(** * COPAC (correlation partition clustering): a shallow embedding of
      [copac.py] and the properties of its specification.

    Real-valued data ([X], the eigenvalues, the correlation distances) is
    modelled over the real numbers of the Standard Library: the arithmetic of
    the source is taken as exact.  The division of line 125, the only one
    whose divisor can vanish, returns a float with the special values of
    IEEE 754.  Indices and correlation dimensions are [nat], cluster labels
    are [Z].  The three external collaborators (nearest-neighbour search, the
    symmetric eigen-solver and DBSCAN) are parameters of the model; the
    functions of numpy and scipy that [copac] calls are modelled by their
    documented behaviour. *)

From Stdlib Require Import List ZArith Arith Lia Bool Reals Lra Permutation Sorted.
Import ListNotations.

Set Implicit Arguments.

(** ** Errors of the Python run-time, as a small error monad *)

Inductive error : Type :=
| InvalidParameter   (* named by the specification; no statement of copac.py raises it *)
| IndexError         (* an index outside an array *)
| ValueError         (* shapes that cannot be broadcast together *)
| AssertionError.    (* the final [assert np.all(used_y)] *)

Inductive result (A : Type) : Type :=
| Ok  : A -> result A
| Err : error -> result A.

Arguments Ok {A} _.
Arguments Err {A} _.

Definition bind {A B : Type} (m : result A) (f : A -> result B) : result B :=
  match m with
  | Ok a => f a
  | Err e => Err e
  end.

Notation "x <- m ;; k" := (bind m (fun x => k))
  (at level 61, m at next level, right associativity).
Notation "' p <- m ;; k" := (bind m (fun x => let p := x in k))
  (at level 61, p pattern, m at next level, right associativity).

(** ** Arrays *)

Section Arrays.
Variable A : Type.

(** [a[i]] for a non-negative index: IndexError outside the array. *)
Definition getitem (a : list A) (i : nat) : result A :=
  match nth_error a i with
  | Some x => Ok x
  | None => Err IndexError
  end.

(** [a[idx]] for an index array (fancy indexing). *)
Fixpoint take (a : list A) (idx : list nat) : result (list A) :=
  match idx with
  | [] => Ok []
  | i :: idx' =>
      x <- getitem a i ;;
      xs <- take a idx' ;;
      Ok (x :: xs)
  end.

(** [a[i] = v], for [i] inside the array. *)
Fixpoint setitem (a : list A) (i : nat) (v : A) : list A :=
  match a, i with
  | [], _ => []
  | _ :: a', O => v :: a'
  | x :: a', S i' => x :: setitem a' i' v
  end.

(** The element-wise part of [a[idx] = vals], shapes already agreeing. *)
Fixpoint assign (a : list A) (idx : list nat) (vals : list A) : result (list A) :=
  match idx, vals with
  | [], _ => Ok a
  | i :: idx', v :: vals' =>
      if i <? length a then assign (setitem a i v) idx' vals'
      else Err IndexError
  | _ :: _, [] => Err ValueError
  end.

(** [a[idx] = vals] with numpy's broadcasting: [vals] has the length of
    [idx], or length one (then it is repeated); anything else is a
    ValueError. *)
Definition scatter (a : list A) (idx : list nat) (vals : list A) : result (list A) :=
  if length vals =? length idx then assign a idx vals
  else match vals with
       | [v] => assign a idx (repeat v (length idx))
       | _ => Err ValueError
       end.

(** [a[start:stop] = vals] where [vals] has [stop - start] elements. *)
Definition set_slice (a : list A) (start stop : nat) (vals : list A) : list A :=
  firstn start a ++ vals ++ skipn stop a.
End Arrays.

(** ** The merge step (copac.py, lines 169-177) *)

(** [np.unique(labels[labels >= 0]).size] *)
Definition new_labels (labels : list Z) : Z :=
  Z.of_nat (length (nodup Z.eq_dec (filter (fun l => 0 <=? l)%Z labels))).

(** The state threaded through the loop over the partitions. *)
Record merge_state : Type := MergeState {
  max_label : Z;
  y : list Z;
  used_y : list bool
}.

(** [y = -np.ones(n)], [max_label = 0], [used_y = np.zeros_like(y)] *)
Definition init_state (n : nat) : merge_state :=
  MergeState 0%Z (repeat (-1)%Z n) (repeat false n).

(** [y_D = labels + max_label] *)
Definition y_D (labels : list Z) (offset : Z) : list Z :=
  map (fun l => (l + offset)%Z) labels.

Definition merge_step (st : merge_state) (D : list nat) (labels : list Z)
  : result merge_state :=
  let yD := y_D labels (max_label st) in
  let max_label' := (max_label st + new_labels labels)%Z in
  y' <- scatter (y st) D yD ;;
  used' <- scatter (used_y st) D [true] ;;
  Ok (MergeState max_label' y' used').

(** ** Vectors and matrices (numpy arrays of floats, row-major) *)

Definition vec : Type := list R.
Definition matrix : Type := list (list R).

Open Scope R_scope.

(** [a.sum()] *)
Definition vsum (v : vec) : R := fold_right Rplus 0 v.

(** Element-wise binary operation on two arrays of one shape. *)
Fixpoint map2 {A B C : Type} (f : A -> B -> C) (u : list A) (v : list B) : list C :=
  match u, v with
  | a :: u', b :: v' => f a b :: map2 f u' v'
  | _, _ => []
  end.

Definition dot (u v : vec) : R := vsum (map2 Rmult u v).

Definition ncols (M : matrix) : nat :=
  match M with
  | [] => O
  | r :: _ => length r
  end.

Definition col (M : matrix) (j : nat) : vec := map (fun r => nth j r 0) M.

(** [M.T] *)
Definition transpose (M : matrix) : matrix := map (col M) (seq 0 (ncols M)).

(** [A @ B] *)
Definition matmul (A B : matrix) : matrix :=
  map (fun a => map (fun j => dot a (col B j)) (seq 0 (ncols B))) A.

(** [np.diag(v)] *)
Definition diag (v : vec) : matrix :=
  map (fun i => map (fun j => if Nat.eqb i j then nth i v 0 else 0)
                    (seq 0 (length v)))
      (seq 0 (length v)).

Definition Rltb (x y : R) : bool := if Rlt_dec x y then true else false.
Definition Rleb (x y : R) : bool := if Rle_dec x y then true else false.

(** ** [_cdist] (copac.py, lines 25-35) *)

Definition _cdist (P : vec) (Q : matrix) (Mhat_P : matrix) : vec :=
  let PQ_diff := map (fun q => map2 Rminus P q) Q in
  map vsum (map2 (map2 Rmult) (matmul PQ_diff Mhat_P) PQ_diff).

(** The entry of [_cdist(P, Q, Mhat_P)] that belongs to one row [q] of [Q]:
    [((P - q) @ Mhat_P * (P - q)).sum()]. *)
Definition cdist1 (P : vec) (Mhat_P : matrix) (q : vec) : R :=
  let diff := map2 Rminus P q in
  vsum (map2 Rmult (map (fun j => dot diff (col Mhat_P j)) (seq 0 (ncols Mhat_P)))
                   diff).

(** The specification's quadratic form [v^t . M . v] (section 4.2). *)
Definition matvec (M : matrix) (v : vec) : vec := map (fun r => dot r v) M.

Definition quad_form (M : matrix) (v : vec) : R := dot v (matvec M v).

(** [sum_{i < n} f i], the index form of [vsum] used in the proofs. *)
Fixpoint bigsum (n : nat) (f : nat -> R) : R :=
  match n with
  | O => 0
  | S n' => f O + bigsum n' (fun i => f (S i))
  end.

(** A [d] x [d] array. *)
Definition square (d : nat) (M : matrix) : Prop :=
  length M = d /\ Forall (fun r => length r = d) M.

(** ** The local analysis of one point (copac.py, lines 114-131) *)

(** [np.cov(N_P, rowvar=False, ddof=0)]: the population covariance of the
    columns of [N_P], for at least two rows and two columns. *)
Definition mean (v : vec) : R := vsum v / INR (length v).

Definition cov (N_P : matrix) : matrix :=
  let d := ncols N_P in
  let centred := map (fun j => let c := col N_P j in
                               map (fun x => x - mean c) c) (seq 0 d) in
  map (fun ci => map (fun cj => dot ci cj / INR (length N_P)) centred) centred.

(** [np.sort(E)]: ascending. *)
Fixpoint insert_sorted (x : R) (l : list R) : list R :=
  match l with
  | [] => [x]
  | y :: l' => if Rleb x y then x :: l else y :: insert_sorted x l'
  end.

Definition np_sort (l : list R) : list R := fold_right insert_sorted [] l.

(** [np.cumsum] *)
Fixpoint cumsum_from (acc : R) (l : list R) : list R :=
  match l with
  | [] => []
  | x :: l' => (acc + x) :: cumsum_from (acc + x) l'
  end.

Definition cumsum (l : list R) : list R := cumsum_from 0 l.

(** The result of the one division of copac.py whose divisor can vanish
    (line 125): a float with the special values of IEEE 754.  The operands
    of that division are finite; the sign of a zero is not modelled. *)
Inductive npfloat : Type :=
| Fin (x : R)
| PInf
| NInf
| NaN.

(** [c / s] on finite operands, as numpy divides: [0 / 0] is NaN (with a
    RuntimeWarning, no exception), [c / 0] an infinity. *)
Definition np_div (c s : R) : npfloat :=
  if Req_dec_T s 0 then
    if Req_dec_T c 0 then NaN
    else if Rlt_dec 0 c then PInf else NInf
  else Fin (c / s).

(** The order that [np.searchsorted] uses on floats:
    [a < b or (b is NaN and a is not)], so that NaN sorts last. *)
Definition np_less (a b : npfloat) : bool :=
  match a, b with
  | Fin x, Fin y => Rltb x y
  | NaN, _ => false
  | _, NaN => true
  | NInf, NInf => false
  | NInf, _ => true
  | Fin _, PInf => true
  | _, _ => false
  end.

(** [np.cumsum(E) / E.sum()] *)
Definition explanation_portion (E : list R) : list npfloat :=
  map (fun c => np_div c (vsum E)) (cumsum E).

(** [np.searchsorted(a, v, side='left')]: numpy's binary search.  The loop
    halves the interval [lo, hi) until it is empty; [fuel] bounds the
    number of iterations and [length a] of it always suffices. *)
Section Searchsorted.
Variable A : Type.
Variable less : A -> A -> bool.

Fixpoint binsearch_left (fuel : nat) (a : list A) (key : A) (lo hi : nat) : nat :=
  match fuel with
  | O => lo
  | S fuel' =>
      if lo <? hi then
        let mid := (lo + (hi - lo) / 2)%nat in
        if less (nth mid a key) key
        then binsearch_left fuel' a key (S mid) hi
        else binsearch_left fuel' a key lo mid
      else lo
  end.

Definition searchsorted (a : list A) (v : A) : nat :=
  binsearch_left (length a) a v 0 (length a).
End Searchsorted.

(** Lines 122-127: the correlation dimension from the eigenvalues that
    [eigh] returned. *)
Definition local_corr_dim (E : list R) (alpha : R) : nat :=
  let E := rev (np_sort E) in
  let lambda_P := searchsorted np_less (explanation_portion E) (Fin alpha) in
  S lambda_P.

(** The specification's wording (section 4.1, step 3).  The
    explained-variance curve: the cumulative sums of the eigenvalues
    normalised by their total. *)
Definition explained_variance (E : list R) : list R :=
  map (fun c => c / vsum E) (cumsum E).

(** The first position, scanning from the largest eigenvalue, at which the
    cumulative explained variance reaches or exceeds [alpha]. *)
Fixpoint first_reach (portion : list R) (alpha : R) : nat :=
  match portion with
  | [] => O
  | p :: rest => if Rle_dec alpha p then O else S (first_reach rest alpha)
  end.

(** [(np.arange(1, d + 1) > lambda_P).astype(int)] *)
Definition E_hat (d lambda_P : nat) : vec :=
  map (fun i => if lambda_P <? i then 1 else 0) (seq 1 d).

(** [V @ np.diag(E_hat) @ V.T]; [V] is used as [eigh] returned it (line
    122 reorders the eigenvalues only). *)
Definition M_hat_of (V : matrix) (d lambda_P : nat) : matrix :=
  matmul (matmul V (diag (E_hat d lambda_P))) (transpose V).

(** The index arrays that address rows of [X]. *)
Definition in_range (X : matrix) (idx : list nat) : Prop :=
  Forall (fun i => (i < length X)%nat) idx.

(** A feature matrix with at least two features in every row. *)
Definition wide (X : matrix) : Prop :=
  Forall (fun r => (2 <= length r)%nat) X.

(** Neighbour lists of at least two points each. *)
Definition two_neighbours (knns : list (list nat)) : Prop :=
  Forall (fun knn => (2 <= length knn)%nat) knns.

(** ** A monadic left fold: a Python [for] loop whose body may raise *)

Fixpoint foldM {S I : Type} (body : S -> I -> result S) (items : list I) (s : S)
  : result S :=
  match items with
  | [] => Ok s
  | i :: items' => s' <- body s i ;; foldM body items' s'
  end.

(** ** Grouping the points by correlation dimension (copac.py, lines 133-136) *)

Close Scope R_scope.

(** [np.argsort(a)]: the indices of [a] ordered by their value.  numpy does
    not fix the order of equal values; the model keeps them in index
    order. *)
Fixpoint insert_by (key : nat -> nat) (i : nat) (l : list nat) : list nat :=
  match l with
  | [] => [i]
  | j :: l' => if key i <=? key j then i :: l else j :: insert_by key i l'
  end.

(** The order that [argsort] establishes. *)
Definition by_key (key : nat -> nat) (p q : nat) : Prop := (key p <= key q)%nat.

Definition argsort (a : list nat) : list nat :=
  fold_right (insert_by (fun i => nth i a 0)) [] (seq 0 (length a)).

(** Membership of bin [i] of [np.histogram(_, bins=np.arange(1, d + 2))]:
    the [d] bins are [[i+1, i+2)], the last one is closed on the right. *)
Definition in_bin (d i v : nat) : bool :=
  (i + 1 <=? v) && ((v <? i + 2) || ((i + 1 =? d) && (v =? d + 1))).

Definition histogram (a : list nat) (d : nat) : list nat :=
  map (fun i => length (filter (in_bin d i) a)) (seq 0 d).

Fixpoint cumsum_nat_from (acc : nat) (l : list nat) : list nat :=
  match l with
  | [] => []
  | x :: l' => (acc + x) :: cumsum_nat_from (acc + x) l'
  end.

Definition cumsum_nat (l : list nat) : list nat := cumsum_nat_from 0 l.

(** [np.split(a, cuts)]: the slices [a[prev:c]] between consecutive cut
    points, and the rest after the last one. *)
Section Split.
Variable A : Type.

Fixpoint split_from (a : list A) (prev : nat) (cuts : list nat) : list (list A) :=
  match cuts with
  | [] => [skipn prev a]
  | c :: cuts' => firstn (c - prev) (skipn prev a) :: split_from a c cuts'
  end.

Definition np_split (a : list A) (cuts : list nat) : list (list A) :=
  split_from a 0 cuts.
End Split.

(** Lines 134-136. *)
Definition partitions (lambda_ : list nat) (d : nat) : list (list nat) :=
  let argsorted := argsort lambda_ in
  let edges := histogram (map (fun i => nth i lambda_ 0) argsorted) d in
  np_split argsorted (cumsum_nat edges).

Open Scope R_scope.

(** ** The distance matrix of one partition (copac.py, lines 141-166) *)

(** [a[lo:hi]] *)
Definition slice {A : Type} (a : list A) (lo hi : nat) : list A :=
  firstn (hi - lo) (skipn lo a).

(** The body of the first loop (lines 146-152); the state is
    [(start, cdist_P)]. *)
Definition triu_step (X : matrix) (M_hats : list matrix)
    (D : list nat) (st : nat * vec) (i : nat) : result (nat * vec) :=
  let n_D := length D in
  let '(start, cdist_P) := st in
  p <- getitem D i ;;
  let q := slice D (i + 1) n_D in
  let stop := (start + n_D - i - 1)%nat in
  Xp <- getitem X p ;;
  Xq <- take X q ;;
  Mp <- getitem M_hats p ;;
  Ok (stop, set_slice cdist_P start stop (_cdist Xp Xq Mp)).

(** The body of the second loop (lines 154-157); the state is [cdist_Q]. *)
Definition tril_step (X : matrix) (M_hats : list matrix)
    (D : list nat) (cdist_Q : matrix) (i : nat) : result matrix :=
  q <- getitem D i ;;
  let p := slice D 0 i in
  Xq <- getitem X q ;;
  Xp <- take X p ;;
  Mq <- getitem M_hats q ;;
  row <- getitem cdist_Q i ;;
  Ok (setitem cdist_Q i (set_slice row 0 i (_cdist Xq Xp Mq))).

(** [np.triu_indices(n, k=1)]: the pairs [i < j], row by row. *)
Definition triu_row (n i : nat) : list (nat * nat) :=
  map (pair i) (seq (i + 1) (n - (i + 1))).

Definition triu_indices (n : nat) : list (nat * nat) :=
  flat_map (triu_row n) (seq 0 n).

(** [cdist_Q.T[np.triu_indices_from(cdist_Q, k=1)]] *)
Definition tril_condensed (cdist_Q : matrix) : vec :=
  map (fun ij => nth (fst ij) (nth (snd ij) cdist_Q []) (-1))
      (triu_indices (length cdist_Q)).

(** [np.block([[cdist_P], [cdist_Q]]).max(axis=0)]: the two rows must have
    one length. *)
Definition block_max (cdist_P cdist_Q : vec) : result vec :=
  if (length cdist_P =? length cdist_Q)%nat
  then Ok (map2 Rmax cdist_P cdist_Q)
  else Err ValueError.

(** [scipy.spatial.distance.squareform] on a condensed vector [v]: entry
    [(i, j)], [i < j], of the square matrix is
    [v[C(n,2) - C(n-i,2) + (j-i-1)]]; the empty vector gives the 1x1 zero
    matrix; a length that is no binomial coefficient is a ValueError. *)
Definition condensed_index (n i j : nat) : nat :=
  (n * (n - 1) / 2 - (n - i) * (n - i - 1) / 2 + (j - i - 1))%nat.

Definition squareform (v : vec) : result matrix :=
  match length v with
  | O => Ok [[0]]
  | L =>
      let n := Nat.sqrt_up (2 * L) in
      if (n * (n - 1) =? 2 * L)%nat then
        Ok (map (fun i =>
                   map (fun j =>
                          if (i =? j)%nat then 0
                          else if (i <? j)%nat then nth (condensed_index n i j) v 0
                          else nth (condensed_index n j i) v 0)
                       (seq 0 n))
                (seq 0 n))
      else Err ValueError
  end.

(** The directional correlation distance from the [a]-th to the [b]-th point
    of the partition [D], measured with the matrix of the [a]-th point. *)
Definition pair_cdist (X : matrix) (M_hats : list matrix) (D : list nat)
    (a b : nat) : R :=
  cdist1 (nth (nth a D O) X []) (nth (nth a D O) M_hats []) (nth (nth b D O) X []).

(** The symmetric [n] x [n] matrix with zero diagonal whose entry [(i, j)],
    [i < j], is [g i j]. *)
Definition sym_matrix (n : nat) (g : nat -> nat -> R) : matrix :=
  map (fun i =>
         map (fun j =>
                if (i =? j)%nat then 0
                else if (i <? j)%nat then g i j else g j i)
             (seq 0 n))
      (seq 0 n).

(** Lines 141-166: the matrix handed to DBSCAN for the partition [D]. *)
Definition partition_distance (X : matrix) (M_hats : list matrix) (D : list nat)
  : result matrix :=
  let n_D := length D in
  let cdist_P := repeat (-1) (n_D * (n_D - 1) / 2) in
  let cdist_Q := repeat (repeat (-1) n_D) n_D in
  sP <- foldM (triu_step X M_hats D) (seq 0 (n_D - 1)) (O, cdist_P) ;;
  cdist_Q <- foldM (tril_step X M_hats D) (seq 1 (n_D - 1)) cdist_Q ;;
  cdist <- block_max (snd sP) (tril_condensed cdist_Q) ;;
  squareform (map sqrt cdist).

(** ** The whole of [copac] (copac.py, lines 97-179) *)

Section Copac.
(** [NearestNeighbors(n_neighbors=k, ...).fit(X).kneighbors()] *)
Variable kneighbors : matrix -> Z -> list (list nat).
(** [scipy.linalg.eigh]: eigenvalues (ascending) and eigenvectors. *)
Variable eigh : matrix -> list R * matrix.
(** [dbscan(X=cdist, eps=eps, min_samples=mu, metric='precomputed')]:
    one label per row of [cdist]. *)
Variable dbscan : matrix -> R -> Z -> list Z.

(** Lines 114-131: the correlation dimension and the projection matrix of
    the point whose neighbours are [knn].  [np.cov] returns a finite [d] x
    [d] array only for at least two neighbours and two features: its result
    is squeezed to a 0-d array when there is one feature, a single row is
    read as one variable, and no row gives NaN; [eigh] rejects all three
    with a ValueError. *)
Definition analyse_point (X : matrix) (d : nat) (alpha : R) (knn : list nat)
  : result (nat * matrix) :=
  N_P <- take X knn ;;
  if ((length N_P <? 2) || (ncols N_P <? 2))%nat then Err ValueError
  else
    let Sigma := cov N_P in
    let EV := eigh Sigma in
    let lambda_P := local_corr_dim (fst EV) alpha in
    Ok (lambda_P, M_hat_of (snd EV) d lambda_P).

(** The body of the loop over the points (lines 113-131); the state is
    [(lambda_, M_hat)]: [lambda_[P] = lambda_P] and [M_hat.append(...)]. *)
Definition analyse_step (X : matrix) (d : nat) (alpha : R)
    (st : list nat * list matrix) (Pknn : nat * list nat)
  : result (list nat * list matrix) :=
  lM <- analyse_point X d alpha (snd Pknn) ;;
  if (fst Pknn <? length (fst st))%nat
  then Ok (setitem (fst st) (fst Pknn) (fst lM), snd st ++ [snd lM])
  else Err IndexError.


(** The two components of [analyse_point] for neighbour indices that lie
    inside [X]. *)
Definition lambda_at (X : matrix) (alpha : R) (knn : list nat) : nat :=
  local_corr_dim (fst (eigh (cov (map (fun i => nth i X []) knn)))) alpha.

Definition M_hat_at (X : matrix) (d : nat) (alpha : R) (knn : list nat) : matrix :=
  M_hat_of (snd (eigh (cov (map (fun i => nth i X []) knn)))) d
           (lambda_at X alpha knn).

Definition enumerate {A : Type} (l : list A) : list (nat * A) :=
  combine (seq 0 (length l)) l.

(** The body of the loop over the partitions (lines 140-177). *)
Definition partition_step (X : matrix) (M_hat : list matrix) (eps : R) (mu : Z)
    (st : merge_state) (D : list nat) : result merge_state :=
  cdist <- partition_distance X M_hat D ;;
  let labels := dbscan cdist eps mu in
  merge_step st D labels.

(** [check_array(X)] accepts a two-dimensional array with at least one
    sample and one feature; the loops follow. *)
Definition copac (X : matrix) (k mu : Z) (eps alpha : R) : result (list Z) :=
  let n := length X in
  let d := ncols X in
  if ((n =? 0) || (d =? 0))%nat then Err ValueError
  else
    let knns := kneighbors X k in
    lM <- foldM (analyse_step X d alpha) (enumerate knns) (repeat O n, []) ;;
    let Ds := partitions (fst lM) d in
    st <- foldM (partition_step X (snd lM) eps mu) Ds (init_state n) ;;
    if forallb (fun b => b) (used_y st) then Ok (y st) else Err AssertionError.
End Copac.


(** ** The parameter domain of the specification and small concrete data *)

(** The parameters that section 7 of the specification calls valid. *)
Definition valid_parameters (k mu : Z) (eps alpha : R) (d : nat) : Prop :=
  (1 <= k)%Z /\ (1 <= mu)%Z /\ (mu <= k)%Z /\ 0 < eps /\ 0 < alpha < 1 /\ (1 <= d)%nat.

(** Three points on a line in the plane and their two nearest neighbours. *)
Definition X_example : matrix := [[0; 0]; [0; 1]; [0; 2]].

Definition knn_example (X : matrix) (k : Z) : list (list nat) :=
  [[1; 2]; [0; 2]; [1; 0]]%nat.

(** An eigen-solver for diagonal matrices whose diagonal is ascending, as
    the covariance matrices of [X_example] are: the eigenvalues are the
    diagonal, the eigenvectors the unit vectors. *)
Definition eigh_diag (S : matrix) : list R * matrix :=
  (map (fun i => nth i (nth i S []) 0) (seq 0 (length S)),
   diag (repeat 1 (length S))).

(** DBSCAN where no point has enough neighbours: every point is noise. *)
Definition dbscan_noise (M : matrix) (eps : R) (mu : Z) : list Z :=
  repeat (-1)%Z (length M).

(** A partition of all three points, with the identity as every point's
    matrix. *)
Definition D_example : list nat := [0; 1; 2]%nat.

Definition M_hat_example : list matrix :=
  [[[1; 0]; [0; 1]]; [[1; 0]; [0; 1]]; [[1; 0]; [0; 1]]].

(** Nine points of the plane: five on a vertical line, and far from them
    the four corners of a diamond; the three nearest neighbours of every
    point. *)
Definition X_nine : matrix :=
  [[0; 0]; [0; 1]; [0; 2]; [0; 3]; [0; 4];
   [101; 0]; [99; 0]; [100; 2]; [100; -2]].

Definition knn_nine (X : matrix) (k : Z) : list (list nat) :=
  [[1; 2; 3]; [0; 2; 3]; [1; 3; 0]; [2; 4; 1]; [3; 2; 1];
   [6; 7; 8]; [5; 7; 8]; [5; 6; 8]; [5; 6; 7]]%nat.

(** DBSCAN with [min_samples = 5] on points that all lie within [eps] of
    each other: five or more points are one cluster, fewer are all noise. *)
Definition dbscan_five (M : matrix) (eps : R) (mu : Z) : list Z :=
  if (5 <=? length M)%nat then repeat 0%Z (length M)
  else repeat (-1)%Z (length M).

(** Three coinciding points. *)
Definition X_same : matrix := [[1; 2]; [1; 2]; [1; 2]].

(** ** Notions used to state further properties of [copac] *)

(** A result that is a value, or one of the two errors that the statements
    of [copac] raise at run time. *)
Definition fails_early {A : Type} (m : result A) : Prop :=
  match m with
  | Ok _ => True
  | Err e => e = IndexError \/ e = ValueError
  end.

(** The labels that DBSCAN returns for the partition [D] (lines 141-169). *)
Definition local_labels (dbscan : matrix -> R -> Z -> list Z)
    (X : matrix) (M_hat : list matrix) (eps : R) (mu : Z) (D : list nat)
  : list Z :=
  match partition_distance X M_hat D with
  | Ok cdist => dbscan cdist eps mu
  | Err _ => []
  end.

(** The value of [max_label] when the loop of line 140 reaches the [i]-th
    partition: the clusters that DBSCAN found in the partitions before it. *)
Definition clusters_before (dbscan : matrix -> R -> Z -> list Z)
    (X : matrix) (M_hat : list matrix) (eps : R) (mu : Z)
    (Ds : list (list nat)) (i : nat) : Z :=
  fold_right Z.add 0%Z
    (map (fun D => new_labels (local_labels dbscan X M_hat eps mu D))
         (firstn i Ds)).

(** A matrix whose columns are orthonormal, as the eigenvectors that
    [eigh] returns are. *)
Definition orthonormal_columns (d : nat) (V : matrix) : Prop :=
  square d V /\
  forall k l, (k < d)%nat -> (l < d)%nat ->
    dot (col V k) (col V l) = if (k =? l)%nat then 1 else 0.

(** The data set moved by the vector [t]: [X + t] in numpy. *)
Definition translate (X : matrix) (t : vec) : matrix :=
  map (fun r => map2 Rplus r t) X.

(** The upper end of the first [s] of the [d] bins of line 135: [s], and
    [d + 1] once the last bin, which is closed, is among them. *)
Definition bins_end (d s : nat) : nat :=
  if (s =? d)%nat then (d + 1)%nat else s.

(** The matrices of three points of full correlation dimension in the
    plane: [lambda_P = d = 2], with the unit vectors as eigenvectors. *)
Definition M_hat_full_example : list matrix :=
  repeat (M_hat_of (diag [1; 1]) 2 2) 3.

(** ** The estimator class [COPAC] (copac.py, lines 182-294) *)


Module Estimator.
Section Class.
(** The arguments [metric], [metric_params], [algorithm], [leaf_size] and
    [p], which [copac] hands unchanged to [NearestNeighbors]. *)
Variable nn_options : Type.
(** [multiprocessing.cpu_count()] *)
Variable cpu_count : Z.
(** [NearestNeighbors(n_neighbors=k, ..., n_jobs=n_jobs).fit(X).kneighbors()] *)
Variable nearest_neighbors : nn_options -> Z -> matrix -> Z -> list (list nat).
Variable eigh : matrix -> list R * matrix.
(** [dbscan(X=cdist, eps=eps, min_samples=mu, metric='precomputed',
    n_jobs=n_jobs)] *)
Variable dbscan : Z -> matrix -> R -> Z -> list Z.


(** An estimator: the parameters that [__init__] stores and the attribute
    [labels_], absent until [fit] has run. *)
Record COPAC : Type := Build {
  k : Z;
  mu : Z;
  eps : R;
  alpha : R;
  options : nn_options;
  n_jobs : Z;
  labels_ : option (list Z)
}.

(** [COPAC(k, mu, eps, alpha, ..., n_jobs)] (lines 240-252) *)
Definition init (k mu : Z) (eps alpha : R) (options : nn_options) (n_jobs : Z)
  : COPAC :=
  Build k mu eps alpha options n_jobs None.



End Class.
End Estimator.

(** Three points with a single feature. *)
Definition X_single_feature : matrix := [[1]; [2]; [4]].

(** The neighbours of the nine points, each list in reverse order. *)
Definition knn_nine_reversed (X : matrix) (k : Z) : list (list nat) :=
  map (@rev nat) (knn_nine X k).
(* ================================================================== *)
(** * Properties *)

Close Scope R_scope.
Unset Implicit Arguments.

Ltac inv H := inversion H; subst; clear H.

(** Case analysis on the result of a monadic step inside a hypothesis. *)
Ltac bind_inv H :=
  match type of H with
  | bind ?m _ = Ok _ =>
      let E := fresh "E" in
      destruct m eqn:E; simpl in H; [ | discriminate H ]
  end.

(** ** Arrays *)

Section ArrayFacts.
Variable A : Type.
Implicit Types (a : list A) (idx : list nat).

Lemma getitem_Ok a i x : getitem a i = Ok x <-> nth_error a i = Some x.
Proof.
  unfold getitem. destruct (nth_error a i); split; intros H; inv H; reflexivity.
Qed.

Lemma getitem_lt a i : i < length a -> exists x, getitem a i = Ok x.
Proof.
  intros H. unfold getitem. destruct (nth_error a i) eqn:E; eauto.
  apply nth_error_None in E. lia.
Qed.

Lemma getitem_nth a i x d : getitem a i = Ok x -> i < length a /\ nth i a d = x.
Proof.
  intros H. apply getitem_Ok in H. split.
  - apply nth_error_Some. congruence.
  - now apply nth_error_nth.
Qed.

Lemma getitem_nth_Ok a i d : i < length a -> getitem a i = Ok (nth i a d).
Proof.
  intros H. apply getitem_Ok. now apply nth_error_nth'.
Qed.

Lemma take_Ok a idx :
  Forall (fun i => i < length a) idx ->
  forall d, take a idx = Ok (map (fun i => nth i a d) idx).
Proof.
  induction 1 as [|i idx Hi _ IH]; intros d; simpl; [reflexivity|].
  rewrite (getitem_nth_Ok _ _ d Hi). simpl. rewrite (IH d). reflexivity.
Qed.

Lemma take_inv a idx xs :
  take a idx = Ok xs -> Forall (fun i => i < length a) idx.
Proof.
  revert xs. induction idx as [|i idx IH]; intros xs H; [constructor|].
  simpl in H. bind_inv H. bind_inv H.
  constructor; [|eauto].
  apply getitem_Ok in E. apply nth_error_Some. congruence.
Qed.

Lemma setitem_length a i v : length (setitem a i v) = length a.
Proof.
  revert i; induction a as [|x a IH]; intros [|i]; simpl; auto.
Qed.

Lemma nth_setitem a i v j d :
  i < length a ->
  nth j (setitem a i v) d = if j =? i then v else nth j a d.
Proof.
  revert i j; induction a as [|x a IH]; intros [|i] [|j] H; simpl in *;
    try lia; auto.
  apply IH. lia.
Qed.

Lemma assign_length a idx vals a' :
  assign a idx vals = Ok a' -> length a' = length a.
Proof.
  revert a vals; induction idx as [|i idx IH]; intros a vals H; simpl in H.
  - now inv H.
  - destruct vals as [|v vals]; [discriminate|].
    destruct (i <? length a); [|discriminate].
    apply IH in H. now rewrite setitem_length in H.
Qed.

Lemma assign_Ok a idx vals :
  Forall (fun i => i < length a) idx -> length vals = length idx ->
  exists a', assign a idx vals = Ok a'.
Proof.
  revert a vals; induction idx as [|i idx IH]; intros a vals Hidx Hlen; simpl.
  - eauto.
  - destruct vals as [|v vals]; [discriminate|]. inv Hidx.
    destruct (Nat.ltb_spec i (length a)); [|lia].
    apply IH; [|simpl in Hlen; lia].
    rewrite setitem_length. assumption.
Qed.

(** An index outside [idx] keeps its value. *)
Lemma assign_other a idx vals a' j d :
  assign a idx vals = Ok a' -> ~ In j idx -> nth j a' d = nth j a d.
Proof.
  revert a vals; induction idx as [|i idx IH]; intros a vals H Hj; simpl in H.
  - now inv H.
  - destruct vals as [|v vals]; [discriminate|].
    destruct (Nat.ltb_spec i (length a)); [|discriminate].
    rewrite (IH _ _ H) by (intros ?; apply Hj; now right).
    rewrite nth_setitem by assumption.
    destruct (Nat.eqb_spec j i); [|reflexivity].
    exfalso; apply Hj; now left.
Qed.

(** With distinct indices, position [idx[r]] receives [vals[r]]. *)
Lemma assign_nth a idx vals a' r d :
  assign a idx vals = Ok a' -> NoDup idx -> r < length idx ->
  nth (nth r idx 0) a' d = nth r vals d.
Proof.
  revert a vals r; induction idx as [|i idx IH]; intros a vals r H Hnd Hr;
    simpl in *; [lia|].
  destruct vals as [|v vals]; [discriminate|].
  destruct (Nat.ltb_spec i (length a)); [|discriminate].
  inv Hnd. destruct r as [|r].
  - rewrite (assign_other _ _ _ _ _ d H) by assumption.
    rewrite nth_setitem by assumption. now rewrite Nat.eqb_refl.
  - apply (IH _ _ _ H); [assumption|lia].
Qed.

Lemma scatter_length a idx vals a' :
  scatter a idx vals = Ok a' -> length a' = length a.
Proof.
  unfold scatter. destruct (length vals =? length idx).
  - apply assign_length.
  - destruct vals as [|v [|? ?]]; try discriminate. apply assign_length.
Qed.

Lemma scatter_Ok a idx vals :
  Forall (fun i => i < length a) idx ->
  length vals = length idx \/ length vals = 1 ->
  exists a', scatter a idx vals = Ok a'.
Proof.
  intros Hidx Hlen. unfold scatter.
  destruct (Nat.eqb_spec (length vals) (length idx)) as [e|ne].
  - now apply assign_Ok.
  - destruct Hlen as [?|Hlen]; [contradiction|].
    destruct vals as [|v [|? ?]]; try discriminate.
    apply assign_Ok; [assumption|apply repeat_length].
Qed.

Lemma scatter_other a idx vals a' j d :
  scatter a idx vals = Ok a' -> ~ In j idx -> nth j a' d = nth j a d.
Proof.
  unfold scatter. destruct (length vals =? length idx).
  - apply assign_other.
  - destruct vals as [|v [|? ?]]; try discriminate. apply assign_other.
Qed.

Lemma scatter_nth a idx vals a' r d :
  scatter a idx vals = Ok a' -> length vals = length idx ->
  NoDup idx -> r < length idx ->
  nth (nth r idx 0) a' d = nth r vals d.
Proof.
  unfold scatter. intros H Hlen. rewrite Hlen, Nat.eqb_refl in H.
  intros Hnd Hr. now apply assign_nth with (a := a).
Qed.

(** Broadcasting one value: every position of [idx] receives it. *)
Lemma scatter_const a idx v a' j d :
  scatter a idx [v] = Ok a' -> In j idx -> nth j a' d = v.
Proof.
  intros H Hj.
  assert (H' : assign a idx (repeat v (length idx)) = Ok a').
  { unfold scatter in H. simpl in H.
    destruct idx as [|i [|i' idx]]; simpl in *; auto. }
  clear H. revert a H' Hj.
  induction idx as [|i idx IH]; intros a H Hj; simpl in *; [contradiction|].
  destruct (Nat.ltb_spec i (length a)); [|discriminate].
  destruct (in_dec Nat.eq_dec j idx) as [Hin|Hnin].
  - eapply IH; eauto.
  - destruct Hj as [->|?]; [|contradiction].
    rewrite (assign_other _ _ _ _ _ d H Hnin), nth_setitem by assumption.
    now rewrite Nat.eqb_refl.
Qed.
End ArrayFacts.

(** ** The merge step *)

Lemma y_D_nth labels offset r :
  r < length labels ->
  nth r (y_D labels offset) (-1)%Z = (nth r labels (-1) + offset)%Z.
Proof.
  intros Hr. unfold y_D.
  rewrite (nth_indep _ (-1)%Z ((fun l => l + offset) (-1))%Z)
    by now rewrite length_map.
  apply (map_nth (fun l => l + offset)%Z).
Qed.

Lemma merge_step_inv st D labels st' :
  merge_step st D labels = Ok st' ->
  scatter (y st) D (y_D labels (max_label st)) = Ok (y st') /\
  scatter (used_y st) D [true] = Ok (used_y st') /\
  max_label st' = (max_label st + new_labels labels)%Z.
Proof.
  unfold merge_step. intros H. bind_inv H. bind_inv H. inv H. auto.
Qed.

Lemma merge_step_Ok st D labels :
  length (used_y st) = length (y st) ->
  Forall (fun i => i < length (y st)) D ->
  length labels = length D \/ length labels = 1 ->
  exists st', merge_step st D labels = Ok st'.
Proof.
  intros Hu HD Hl. unfold merge_step.
  destruct (scatter_Ok _ (y st) D (y_D labels (max_label st)) HD) as [y' ->].
  { unfold y_D. now rewrite length_map. }
  destruct (scatter_Ok _ (used_y st) D [true]) as [u' ->].
  { now rewrite Hu. }
  { now right. }
  simpl. eauto.
Qed.

Lemma merge_step_lengths st D labels st' :
  merge_step st D labels = Ok st' ->
  length (y st') = length (y st) /\ length (used_y st') = length (used_y st).
Proof.
  intros H. apply merge_step_inv in H. destruct H as (Hy & Hu & _).
  split; eapply scatter_length; eauto.
Qed.

Lemma new_labels_nonneg labels : (0 <= new_labels labels)%Z.
Proof. unfold new_labels. lia. Qed.

(** What the merge step writes: with distinct indices and one label per
    index, position [D[r]] of [y] receives [labels[r] + max_label], whatever
    the label is. *)
Lemma merge_step_writes st D labels st' r :
  merge_step st D labels = Ok st' ->
  NoDup D -> length labels = length D -> r < length D ->
  nth (nth r D 0) (y st') (-1)%Z = (nth r labels (-1) + max_label st)%Z.
Proof.
  intros H Hnd Hlen Hr. apply merge_step_inv in H. destruct H as (Hy & _ & _).
  rewrite (scatter_nth _ _ _ _ _ r (-1)%Z Hy); try assumption.
  - apply y_D_nth. lia.
  - unfold y_D. now rewrite length_map.
Qed.

(** Each step advances the offset by the number of distinct non-negative
    local labels of its partition. *)
Lemma merge_step_max_label st D labels st' :
  merge_step st D labels = Ok st' ->
  max_label st' = (max_label st + new_labels labels)%Z.
Proof. intros H. now apply merge_step_inv in H. Qed.

(** C1 (the code departs from the claim): the merge step adds the offset to
    every local label, the noise label included.  After a first partition
    that produced one cluster ([max_label = 1]), a point that DBSCAN marks
    as noise ([-1]) in the next partition is written as [-1 + 1 = 0], the
    id of the earlier cluster, and not as [-1]. *)
Lemma C1_noise_label_is_shifted :
  merge_step (MergeState 1 [0; 0; -1]%Z [true; true; false]) [2] [(-1)%Z]
  = Ok (MergeState 1 [0; 0; 0]%Z [true; true; true]).
Proof. reflexivity. Qed.

(** Two partitions processed in sequence, the first with local labels
    [0, 0], the second with the local noise label [-1]: both write the id
    [0], and the offset ends at 1, the number of distinct non-noise local
    labels. *)
Lemma two_partitions_share_an_id :
  (st1 <- merge_step (init_state 3) [0; 1] [0; 0]%Z ;;
   merge_step st1 [2] [(-1)%Z])
  = Ok (MergeState 1 [0; 0; 0]%Z [true; true; true]).
Proof. reflexivity. Qed.

(** ** Binary search *)

Section SearchsortedFacts.
Variable A : Type.
Variable less : A -> A -> bool.

Lemma binsearch_left_bounds fuel a key lo hi :
  lo <= hi ->
  lo <= binsearch_left less fuel a key lo hi <= hi.
Proof.
  revert lo hi. induction fuel as [|fuel IH]; intros lo hi Hle; cbn [binsearch_left]; [lia|].
  destruct (Nat.ltb_spec lo hi) as [Hlt|]; [|lia].
  assert (Hmid : lo <= lo + (hi - lo) / 2 < hi).
  { split; [lia|].
    assert ((hi - lo) / 2 < hi - lo) by (apply Nat.div_lt; lia). lia. }
  destruct (less _ key).
  - assert (H := IH (S (lo + (hi - lo) / 2)) hi ltac:(lia)). lia.
  - assert (H := IH lo (lo + (hi - lo) / 2) ltac:(lia)). lia.
Qed.

(** The search is monotone in the key, whatever the array holds. *)
Lemma binsearch_left_mono fuel a key1 key2 lo hi :
  (forall x, less x key1 = true -> less x key2 = true) ->
  lo <= hi <= length a ->
  binsearch_left less fuel a key1 lo hi <= binsearch_left less fuel a key2 lo hi.
Proof.
  intros Hkey. revert lo hi.
  induction fuel as [|fuel IH]; intros lo hi Hle; cbn [binsearch_left]; [lia|].
  destruct (Nat.ltb_spec lo hi) as [Hlt|]; [|lia].
  set (mid := lo + (hi - lo) / 2).
  assert (Hmid : lo <= mid < hi).
  { subst mid. split; [lia|].
    assert ((hi - lo) / 2 < hi - lo) by (apply Nat.div_lt; lia). lia. }
  rewrite (nth_indep a key1 key2) by lia.
  destruct (less (nth mid a key2) key1) eqn:E1.
  - rewrite (Hkey _ E1). apply IH. lia.
  - destruct (less (nth mid a key2) key2).
    + pose proof (binsearch_left_bounds fuel a key1 lo mid ltac:(lia)).
      pose proof (binsearch_left_bounds fuel a key2 (S mid) hi ltac:(lia)).
      lia.
    + apply IH. lia.
Qed.

Lemma searchsorted_mono a key1 key2 :
  (forall x, less x key1 = true -> less x key2 = true) ->
  searchsorted less a key1 <= searchsorted less a key2.
Proof.
  intros H. apply binsearch_left_mono; [assumption|lia].
Qed.

(** On an array in which the elements below the key form a prefix, the
    search returns the length of that prefix. *)
Lemma binsearch_left_split fuel a key lo hi :
  (forall i j, i <= j < length a ->
               less (nth j a key) key = true -> less (nth i a key) key = true) ->
  hi - lo <= fuel -> lo <= hi <= length a ->
  (forall i, i < lo -> less (nth i a key) key = true) ->
  (forall i, hi <= i < length a -> less (nth i a key) key = false) ->
  let r := binsearch_left less fuel a key lo hi in
  (forall i, i < r -> less (nth i a key) key = true) /\
  (forall i, r <= i < length a -> less (nth i a key) key = false).
Proof.
  intros Hdown. revert lo hi.
  induction fuel as [|fuel IH]; intros lo hi Hfuel Hle Hlo Hhi; cbn [binsearch_left].
  - split; [assumption|]. intros i Hi. apply Hhi. lia.
  - destruct (Nat.ltb_spec lo hi) as [Hlt|Hge].
    2:{ split; [assumption|]. intros i Hi. apply Hhi. lia. }
    set (mid := lo + (hi - lo) / 2).
    assert (Hmid : lo <= mid < hi).
    { subst mid. split; [lia|].
      assert ((hi - lo) / 2 < hi - lo) by (apply Nat.div_lt; lia). lia. }
    destruct (less (nth mid a key) key) eqn:E.
    + apply IH; try lia; [|assumption].
      intros i Hi. apply (Hdown i mid); [lia|assumption].
    + apply IH; try lia; [assumption|].
      intros i Hi.
      destruct (less (nth i a key) key) eqn:Ei; [|reflexivity].
      rewrite (Hdown mid i) in E; [discriminate|lia|assumption].
Qed.
End SearchsortedFacts.

(** ** The correlation dimension (lines 122-127) *)

Open Scope R_scope.

Lemma Rltb_true x y : Rltb x y = true <-> x < y.
Proof. unfold Rltb. destruct (Rlt_dec x y); split; intros; auto; discriminate. Qed.

Lemma Rltb_false x y : Rltb x y = false <-> y <= x.
Proof.
  unfold Rltb. destruct (Rlt_dec x y); split; intros; auto; try discriminate; lra.
Qed.

Lemma insert_sorted_perm x l : Permutation (insert_sorted x l) (x :: l).
Proof.
  induction l as [|y l IH]; simpl; [reflexivity|].
  destruct (Rleb x y); [reflexivity|].
  rewrite IH. apply perm_swap.
Qed.

Lemma np_sort_perm l : Permutation (np_sort l) l.
Proof.
  induction l as [|x l IH]; simpl; [reflexivity|].
  rewrite insert_sorted_perm. now constructor.
Qed.

Lemma vsum_perm l l' : Permutation l l' -> vsum l = vsum l'.
Proof.
  induction 1; simpl; lra.
Qed.

Lemma sorted_desc_perm E : Permutation (rev (np_sort E)) E.
Proof.
  rewrite <- Permutation_rev. apply np_sort_perm.
Qed.

Lemma cumsum_from_length acc l : length (cumsum_from acc l) = length l.
Proof. revert acc; induction l; intros; simpl; auto. Qed.

Lemma explained_variance_length E : length (explained_variance E) = length E.
Proof.
  unfold explained_variance, cumsum. now rewrite length_map, cumsum_from_length.
Qed.

Lemma cumsum_from_ge acc l i :
  Forall (fun e => 0 <= e) l -> (i < length l)%nat ->
  acc <= nth i (cumsum_from acc l) 0.
Proof.
  intros Hl. revert acc i.
  induction Hl as [|x l Hx _ IH]; intros acc i Hi; simpl in *; [lia|].
  destruct i as [|i]; [lra|].
  specialize (IH (acc + x) i ltac:(lia)). lra.
Qed.

(** The running sums of non-negative numbers are in ascending order. *)
Lemma cumsum_from_ascending acc l i j :
  Forall (fun e => 0 <= e) l -> (i <= j < length l)%nat ->
  nth i (cumsum_from acc l) 0 <= nth j (cumsum_from acc l) 0.
Proof.
  intros Hl. revert acc i j.
  induction Hl as [|x l Hx Hl IH]; intros acc i j Hij; simpl in *; [lia|].
  destruct i as [|i], j as [|j]; try lia; try lra.
  - pose proof (cumsum_from_ge (acc + x) l j Hl ltac:(lia)). lra.
  - apply IH. lia.
Qed.

Lemma cumsum_from_last acc l :
  l <> [] -> nth (length l - 1) (cumsum_from acc l) 0 = acc + vsum l.
Proof.
  revert acc. induction l as [|x l IH]; intros acc Hne; [contradiction|].
  simpl. destruct l as [|x' l].
  - simpl. lra.
  - replace (length (x' :: l) - 0)%nat with (S (length (x' :: l) - 1))
      by (simpl; lia).
    rewrite IH by discriminate. simpl. lra.
Qed.

Lemma explained_variance_nth E i :
  (i < length E)%nat ->
  nth i (explained_variance E) 0 = nth i (cumsum E) 0 / vsum E.
Proof.
  intros Hi. unfold explained_variance.
  rewrite (nth_indep _ 0 ((fun c => c / vsum E) 0)).
  - apply (map_nth (fun c => c / vsum E)).
  - rewrite length_map. unfold cumsum. now rewrite cumsum_from_length.
Qed.

Lemma explained_variance_ascending E i j :
  Forall (fun e => 0 <= e) E -> 0 < vsum E -> (i <= j < length E)%nat ->
  nth i (explained_variance E) 0 <= nth j (explained_variance E) 0.
Proof.
  intros HE Hs Hij.
  rewrite !explained_variance_nth by lia.
  apply Rmult_le_compat_r.
  - left. now apply Rinv_0_lt_compat.
  - now apply cumsum_from_ascending.
Qed.

(** With a positive total, the curve ends at exactly 1. *)
Lemma explained_variance_last E :
  E <> [] -> 0 < vsum E ->
  nth (length E - 1) (explained_variance E) 0 = 1.
Proof.
  intros Hne Hs.
  rewrite explained_variance_nth by (destruct E; [contradiction|simpl; lia]).
  unfold cumsum. rewrite cumsum_from_last by assumption.
  field. lra.
Qed.

(** Away from a zero total the division of line 125 is the exact one and
    the code's curve is the specification's. *)
Lemma explanation_portion_finite E :
  vsum E <> 0 -> explanation_portion E = map Fin (explained_variance E).
Proof.
  intros Hs. unfold explanation_portion, explained_variance.
  rewrite map_map. apply map_ext. intros c. unfold np_div.
  destruct (Req_dec_T (vsum E) 0); [contradiction|reflexivity].
Qed.

Lemma explanation_portion_length E : length (explanation_portion E) = length E.
Proof.
  unfold explanation_portion, cumsum. now rewrite length_map, cumsum_from_length.
Qed.

(** A search through an order-preserving injection is the search itself. *)
Lemma binsearch_left_map {A B : Type} (less : A -> A -> bool)
    (less' : B -> B -> bool) (f : A -> B) fuel a key :
  (forall x y, less' (f x) (f y) = less x y) ->
  forall lo hi,
    binsearch_left less' fuel (map f a) (f key) lo hi
    = binsearch_left less fuel a key lo hi.
Proof.
  intros Hf. induction fuel as [|fuel IH]; intros lo hi;
    cbn [binsearch_left]; [reflexivity|].
  destruct (lo <? hi)%nat; [|reflexivity].
  rewrite (map_nth f), Hf.
  destruct (less _ key); apply IH.
Qed.

Lemma searchsorted_Fin p alpha :
  searchsorted np_less (map Fin p) (Fin alpha) = searchsorted Rltb p alpha.
Proof.
  unfold searchsorted. rewrite length_map.
  apply binsearch_left_map. reflexivity.
Qed.

(** A larger finite key is above everything a smaller one is above. *)
Lemma np_less_key_mono x alpha1 alpha2 :
  alpha1 <= alpha2 ->
  np_less x (Fin alpha1) = true -> np_less x (Fin alpha2) = true.
Proof.
  intros Ha. destruct x as [x| | |]; simpl; auto.
  rewrite !Rltb_true. lra.
Qed.

(** The linear scan of the specification, characterised by the prefix of
    the entries below [alpha]. *)
Lemma first_reach_spec p alpha :
  (first_reach p alpha <= length p)%nat /\
  (forall i, (i < first_reach p alpha)%nat -> nth i p 0 < alpha) /\
  ((first_reach p alpha < length p)%nat ->
   alpha <= nth (first_reach p alpha) p 0).
Proof.
  induction p as [|x p IH]; simpl.
  - repeat split; intros; lia.
  - destruct (Rle_dec alpha x) as [Hle|Hnle].
    + repeat split; intros; try lia; assumption.
    + destruct IH as (IH1 & IH2 & IH3). repeat split.
      * lia.
      * intros [|i] Hi; [lra|]. apply IH2. lia.
      * intros Hlt. apply IH3. lia.
Qed.

(** On an ascending array numpy's binary search and the linear scan of the
    specification agree. *)
Lemma searchsorted_first_reach p alpha :
  (forall i j, (i <= j < length p)%nat -> nth i p 0 <= nth j p 0) ->
  searchsorted Rltb p alpha = first_reach p alpha.
Proof.
  intros Hasc. unfold searchsorted.
  assert (Hnth : forall i, (i < length p)%nat -> nth i p alpha = nth i p 0)
    by (intros; now apply nth_indep).
  destruct (binsearch_left_split R Rltb (length p) p alpha 0 (length p))
    as [Hlt Hge]; try lia.
  - intros i j Hij Hj. rewrite Hnth in * by lia.
    apply Rltb_true in Hj. apply Rltb_true.
    specialize (Hasc i j Hij). lra.
  - pose proof (binsearch_left_bounds R Rltb (length p) p alpha 0 (length p)
                  ltac:(lia)) as Hb.
    set (r := binsearch_left Rltb (length p) p alpha 0 (length p)) in *.
    destruct (first_reach_spec p alpha) as (F1 & F2 & F3).
    set (f := first_reach p alpha) in *.
    destruct (Nat.lt_trichotomy r f) as [Hrf|[Heq|Hfr]]; [|assumption|].
    + specialize (F2 r Hrf). specialize (Hge r ltac:(lia)).
      rewrite Hnth in Hge by lia. apply Rltb_false in Hge. lra.
    + specialize (Hlt f Hfr). rewrite Hnth in Hlt by lia.
      apply Rltb_true in Hlt. specialize (F3 ltac:(lia)). lra.
Qed.

Lemma local_corr_dim_mono E alpha1 alpha2 :
  alpha1 <= alpha2 ->
  (local_corr_dim E alpha1 <= local_corr_dim E alpha2)%nat.
Proof.
  intros H. unfold local_corr_dim. apply le_n_S.
  apply searchsorted_mono. intros x. now apply np_less_key_mono.
Qed.


(** ** The loop over the points (lines 113-131) *)

Section AnalysisLoop.
Variable eigh : matrix -> list R * matrix.
Variables (X : matrix) (d : nat).

Hypothesis X_wide : wide X.

Local Abbreviation in_range := (in_range X).

Lemma analyse_point_Ok alpha knn :
  in_range knn -> (2 <= length knn)%nat ->
  analyse_point eigh X d alpha knn
  = Ok (lambda_at eigh X alpha knn, M_hat_at eigh X d alpha knn).
Proof.
  intros H H2. unfold analyse_point.
  rewrite (take_Ok _ X knn H []). cbn [bind].
  rewrite length_map.
  destruct (Nat.ltb_spec (length knn) 2) as [|_]; [lia|].
  destruct knn as [|i knn]; [simpl in H2; lia|]. cbn [map ncols].
  inv H. pose proof (proj1 (Forall_forall _ _) X_wide (nth i X [])
                       (nth_In _ _ H3)) as Hw.
  cbv beta in Hw.
  destruct (Nat.ltb_spec (length (nth i X [])) 2) as [Hlt|_]; [|reflexivity].
  exfalso. apply (Nat.lt_irrefl 2). eapply Nat.le_lt_trans; eassumption.
Qed.

Lemma firstn_setitem {A : Type} (l : list A) s v :
  (s < length l)%nat ->
  firstn (S s) (setitem l s v) = firstn s l ++ [v].
Proof.
  revert s; induction l as [|x l IH]; intros [|s] H; simpl in *; try lia; auto.
  f_equal. apply IH. lia.
Qed.

Lemma skipn_setitem {A : Type} (l : list A) s k v :
  (s < k)%nat -> skipn k (setitem l s v) = skipn k l.
Proof.
  revert s k; induction l as [|x l IH]; intros [|s] [|k] H; simpl in *;
    try lia; auto.
  apply IH. lia.
Qed.

Lemma analyse_loop_from alpha knns s l M :
  Forall in_range knns -> two_neighbours knns ->
  (s + length knns <= length l)%nat ->
  foldM (analyse_step eigh X d alpha) (combine (seq s (length knns)) knns) (l, M)
  = Ok (firstn s l ++ map (lambda_at eigh X alpha) knns
          ++ skipn (s + length knns) l,
        M ++ map (M_hat_at eigh X d alpha) knns).
Proof.
  intros Hk. revert s l M.
  induction Hk as [|knn knns Hknn _ IH]; intros s l M H2 Hlen; simpl in *.
  - rewrite Nat.add_0_r, firstn_skipn, app_nil_r. reflexivity.
  - inv H2. unfold analyse_step at 1. simpl.
    rewrite (analyse_point_Ok alpha knn Hknn) by assumption. simpl.
    destruct (Nat.ltb_spec s (length l)); [|lia].
    cbn [bind]. rewrite IH by (try assumption; rewrite setitem_length; lia).
    f_equal. f_equal.
    + rewrite firstn_setitem, skipn_setitem by lia.
      replace (S s + length knns)%nat with (s + S (length knns))%nat by lia.
      rewrite <- app_assoc. reflexivity.
    + rewrite <- app_assoc. reflexivity.
Qed.

(** When the neighbour search returns, for every point, a list of at least
    two in-range indices, the loop fills [lambda_] and [M_hat] point by
    point. *)
Lemma analyse_loop_Ok alpha knns :
  length knns = length X -> Forall in_range knns -> two_neighbours knns ->
  foldM (analyse_step eigh X d alpha) (enumerate knns) (repeat O (length X), [])
  = Ok (map (lambda_at eigh X alpha) knns, map (M_hat_at eigh X d alpha) knns).
Proof.
  intros Hlen Hk H2. unfold enumerate.
  rewrite analyse_loop_from by (try assumption; rewrite repeat_length; lia).
  simpl. rewrite skipn_all2 by (rewrite repeat_length; lia).
  now rewrite app_nil_r.
Qed.


(** C9: for a fixed feature matrix (at least two features) and fixed
    neighbourhoods (fixed [k >= 2]),
    the loop over the points run with two thresholds [alpha1 <= alpha2]
    returns two arrays [lambda_] such that every point's correlation
    dimension for [alpha2] is at least the one for [alpha1]. *)
Theorem C9_lambda_monotone_in_alpha (knns : list (list nat)) (alpha1 alpha2 : R) :
  length knns = length X -> Forall in_range knns -> two_neighbours knns ->
  alpha1 <= alpha2 ->
  exists l1 M1 l2 M2,
    foldM (analyse_step eigh X d alpha1) (enumerate knns)
          (repeat O (length X), []) = Ok (l1, M1) /\
    foldM (analyse_step eigh X d alpha2) (enumerate knns)
          (repeat O (length X), []) = Ok (l2, M2) /\
    length l1 = length X /\ length l2 = length X /\
    forall P, (nth P l1 O <= nth P l2 O)%nat.
Proof.
  intros Hlen Hk H2 Ha.
  do 4 eexists.
  split; [apply analyse_loop_Ok; assumption|].
  split; [apply analyse_loop_Ok; assumption|].
  rewrite !length_map. repeat split; try assumption.
  intros P.
  destruct (Nat.lt_ge_cases P (length knns)) as [HP|HP].
  - rewrite !(nth_indep _ O (lambda_at eigh X alpha1 [])),
      (map_nth (lambda_at eigh X alpha1)) by (rewrite length_map; lia).
    rewrite (nth_indep _ _ (lambda_at eigh X alpha2 [])),
      (map_nth (lambda_at eigh X alpha2)) by (rewrite length_map; lia).
    unfold lambda_at. now apply local_corr_dim_mono.
  - rewrite !nth_overflow by (rewrite length_map; lia). lia.
Qed.
End AnalysisLoop.

(** ** Grouping by correlation dimension (lines 133-136) *)

Close Scope R_scope.

Section Partitioner.
Variable key : nat -> nat.

Local Abbreviation by_key := (by_key key).

Lemma insert_by_perm i l : Permutation (insert_by key i l) (i :: l).
Proof.
  induction l as [|j l IH]; simpl; [reflexivity|].
  destruct (key i <=? key j); [reflexivity|].
  rewrite IH. apply perm_swap.
Qed.

Lemma insert_by_sorted i l :
  StronglySorted by_key l -> StronglySorted by_key (insert_by key i l).
Proof.
  induction 1 as [|j l Hs IH Hj]; simpl.
  - repeat constructor.
  - destruct (Nat.leb_spec (key i) (key j)) as [Hle|Hgt].
    + constructor; [now constructor|].
      constructor; [exact Hle|].
      eapply Forall_impl; [|exact Hj]. unfold by_key. intros; lia.
    + constructor; [exact IH|].
      eapply Permutation_Forall; [symmetry; apply insert_by_perm|].
      constructor; [unfold by_key; lia|exact Hj].
Qed.

Lemma fold_insert_by_perm l :
  Permutation (fold_right (insert_by key) [] l) l.
Proof.
  induction l as [|i l IH]; simpl; [reflexivity|].
  rewrite insert_by_perm. now constructor.
Qed.

Lemma fold_insert_by_sorted l :
  StronglySorted by_key (fold_right (insert_by key) [] l).
Proof.
  induction l as [|i l IH]; simpl; [constructor|].
  now apply insert_by_sorted.
Qed.

(** In a list ordered by key, the elements with key at most [t] are a
    prefix. *)
Lemma sorted_prefix t l :
  StronglySorted by_key l ->
  let c := length (filter (fun p => key p <=? t) l) in
  firstn c l = filter (fun p => key p <=? t) l /\
  skipn c l = filter (fun p => t <? key p) l.
Proof.
  induction 1 as [|x l Hs IH Hx]; simpl; [auto|].
  destruct (Nat.leb_spec (key x) t) as [Hle|Hgt].
  - destruct (Nat.ltb_spec t (key x)); [lia|].
    simpl. destruct IH as [IH1 IH2]. split; [now f_equal|exact IH2].
  - destruct (Nat.ltb_spec t (key x)); [|lia].
    assert (Hall : Forall (fun p => t < key p) l).
    { eapply Forall_impl; [|exact Hx]. unfold by_key. intros; lia. }
    assert (Hnil : filter (fun p => key p <=? t) l = []).
    { clear -Hall. induction Hall as [|y l Hy _ IH]; simpl; [reflexivity|].
      destruct (Nat.leb_spec (key y) t); [lia|exact IH]. }
    assert (Hid : filter (fun p => t <? key p) l = l).
    { clear -Hall. induction Hall as [|y l Hy _ IH]; simpl; [reflexivity|].
      destruct (Nat.ltb_spec t (key y)); [now f_equal|lia]. }
    rewrite Hnil, Hid in *. simpl. auto.
Qed.

Lemma filter_sorted f l :
  StronglySorted by_key l -> StronglySorted by_key (filter f l).
Proof.
  induction 1 as [|x l Hs IH Hx]; simpl; [constructor|].
  destruct (f x); [|exact IH].
  constructor; [exact IH|].
  apply Forall_forall. intros q Hq. apply filter_In in Hq.
  rewrite Forall_forall in Hx. now apply Hx.
Qed.

Lemma filter_filter {A : Type} (f g : A -> bool) (l : list A) :
  filter f (filter g l) = filter (fun x => g x && f x) l.
Proof.
  induction l as [|x l IH]; simpl; [reflexivity|].
  destruct (g x); simpl; [destruct (f x); now rewrite IH|exact IH].
Qed.

Lemma filter_length_split {A : Type} (f g : A -> bool) (l : list A) :
  (forall x, In x l -> f x = true -> g x = true) ->
  length (filter g l)
  = length (filter f l) + length (filter (fun x => negb (f x) && g x) l).
Proof.
  induction l as [|x l IH]; intros H; simpl; [reflexivity|].
  assert (IH' := IH (fun y Hy => H y (or_intror Hy))).
  destruct (f x) eqn:Ef; simpl.
  - rewrite (H x (or_introl eq_refl) Ef). simpl. lia.
  - destruct (g x); simpl; lia.
Qed.

(** The slice between the cut points of two consecutive keys holds the
    elements with the larger key. *)
Lemma sorted_slice s l :
  StronglySorted by_key l ->
  let c0 := length (filter (fun p => key p <=? s) l) in
  let c1 := length (filter (fun p => key p <=? s + 1) l) in
  firstn (c1 - c0) (skipn c0 l) = filter (fun p => key p =? s + 1) l.
Proof.
  intros Hs c0 c1.
  destruct (sorted_prefix s l Hs) as [_ Hskip]. fold c0 in Hskip.
  rewrite Hskip.
  pose proof (filter_sorted (fun p => s <? key p) l Hs) as Hs2.
  destruct (sorted_prefix (s + 1) _ Hs2) as [Hfirst _].
  rewrite filter_filter in Hfirst.
  assert (Hc : c1 - c0
               = length (filter (fun x => (s <? key x) && (key x <=? s + 1)) l)).
  { subst c0 c1.
    rewrite (filter_length_split (fun p => key p <=? s)
               (fun p => key p <=? s + 1)).
    2:{ intros x _ Hx. apply Nat.leb_le in Hx. apply Nat.leb_le. lia. }
    replace (filter (fun x => negb (key x <=? s) && (key x <=? s + 1)) l)
      with (filter (fun x => (s <? key x) && (key x <=? s + 1)) l).
    - lia.
    - apply filter_ext. intros x.
      destruct (Nat.leb_spec (key x) s), (Nat.ltb_spec s (key x));
        simpl; try reflexivity; lia. }
  rewrite Hc, Hfirst.
  apply filter_ext. intros x.
  destruct (Nat.ltb_spec s (key x)), (Nat.leb_spec (key x) (s + 1)),
    (Nat.eqb_spec (key x) (s + 1)); simpl; try reflexivity; lia.
Qed.
End Partitioner.

Section Partitions.
Variables (lambda_ : list nat) (d : nat).

Local Abbreviation key := (fun p => nth p lambda_ 0).
Local Abbreviation n := (length lambda_).

Lemma argsort_perm : Permutation (argsort lambda_) (seq 0 n).
Proof. apply fold_insert_by_perm. Qed.

Lemma argsort_sorted : StronglySorted (by_key key) (argsort lambda_).
Proof. apply fold_insert_by_sorted. Qed.

Lemma argsort_In p : In p (argsort lambda_) <-> p < n.
Proof.
  split; intros H.
  - apply (Permutation_in _ argsort_perm), in_seq in H. lia.
  - apply (Permutation_in _ (Permutation_sym argsort_perm)), in_seq. lia.
Qed.

Lemma cumsum_nat_from_length acc l : length (cumsum_nat_from acc l) = length l.
Proof. revert acc; induction l; intros; simpl; auto. Qed.

Lemma split_from_length {A : Type} (a : list A) prev cuts :
  length (split_from a prev cuts) = S (length cuts).
Proof. revert prev; induction cuts; intros; simpl; auto. Qed.

(** Cut at running sums, the pieces tile the array. *)
Lemma split_from_concat {A : Type} (a : list A) prev counts :
  concat (split_from a prev (cumsum_nat_from prev counts)) = skipn prev a.
Proof.
  revert prev. induction counts as [|x counts IH]; intros prev; simpl.
  - apply app_nil_r.
  - rewrite IH. replace (prev + x - prev) with x by lia.
    rewrite (Nat.add_comm prev x), <- skipn_skipn.
    apply firstn_skipn.
Qed.

Lemma partitions_concat : concat (partitions lambda_ d) = argsort lambda_.
Proof.
  unfold partitions, np_split, cumsum_nat. now rewrite split_from_concat.
Qed.

Lemma partitions_length : length (partitions lambda_ d) = d + 1.
Proof.
  unfold partitions, np_split, cumsum_nat, histogram.
  rewrite split_from_length, cumsum_nat_from_length, length_map, length_seq.
  lia.
Qed.

Lemma filter_map_length {A B : Type} (g : B -> bool) (f : A -> B) (l : list A) :
  length (filter g (map f l)) = length (filter (fun x => g (f x)) l).
Proof.
  induction l as [|x l IH]; simpl; [reflexivity|].
  destruct (g (f x)); simpl; now rewrite IH.
Qed.

Hypothesis lambda_range : Forall (fun v => 1 <= v <= d) lambda_.

Lemma key_range p : p < n -> 1 <= key p <= d.
Proof.
  intros Hp. rewrite Forall_forall in lambda_range.
  apply lambda_range. now apply nth_In.
Qed.

Lemma bin_count s :
  s < d ->
  length (filter (in_bin d s) (map key (argsort lambda_)))
  = length (filter (fun p => key p =? s + 1) (argsort lambda_)).
Proof.
  intros Hs. rewrite filter_map_length. f_equal.
  apply filter_ext_in. intros p Hp. apply argsort_In in Hp.
  pose proof (key_range p Hp) as Hk. unfold in_bin.
  destruct (Nat.leb_spec (s + 1) (key p)), (Nat.ltb_spec (key p) (s + 2)),
    (Nat.eqb_spec (key p) (d + 1)), (Nat.eqb_spec (key p) (s + 1)),
    (Nat.eqb_spec (s + 1) d); simpl; try reflexivity; lia.
Qed.

Lemma count_le_succ s (l : list nat) :
  length (filter (fun p => key p <=? s + 1) l)
  = length (filter (fun p => key p <=? s) l)
    + length (filter (fun p => key p =? s + 1) l).
Proof.
  induction l as [|x l IH]; simpl; [reflexivity|].
  destruct (Nat.leb_spec (key x) (s + 1)), (Nat.leb_spec (key x) s),
    (Nat.eqb_spec (key x) (s + 1)); simpl; lia.
Qed.

Lemma split_from_groups m s :
  s + m <= d ->
  split_from (argsort lambda_)
    (length (filter (fun p => key p <=? s) (argsort lambda_)))
    (cumsum_nat_from
       (length (filter (fun p => key p <=? s) (argsort lambda_)))
       (map (fun i => length (filter (in_bin d i)
                                     (map key (argsort lambda_))))
            (seq s m)))
  = map (fun i => filter (fun p => key p =? i + 1) (argsort lambda_)) (seq s m)
    ++ [filter (fun p => s + m <? key p) (argsort lambda_)].
Proof.
  revert s. induction m as [|m IH]; intros s Hsm; simpl.
  - rewrite Nat.add_0_r.
    now destruct (sorted_prefix key s _ argsort_sorted) as [_ ->].
  - rewrite bin_count by lia.
    rewrite <- count_le_succ.
    rewrite (sorted_slice key s _ argsort_sorted).
    f_equal.
    replace (s + S m) with (S s + m) by lia.
    replace (s + 1) with (S s) by lia.
    apply IH. lia.
Qed.

Lemma filter_nil {A : Type} (f : A -> bool) (l : list A) :
  (forall x, In x l -> f x = false) -> filter f l = [].
Proof.
  induction l as [|x l IH]; intros H; simpl; [reflexivity|].
  rewrite (H x (or_introl eq_refl)). apply IH. intros; apply H; now right.
Qed.

Lemma partitions_groups :
  partitions lambda_ d
  = map (fun i => filter (fun p => key p =? i + 1) (argsort lambda_)) (seq 0 d)
    ++ [[]].
Proof.
  unfold partitions, np_split, cumsum_nat, histogram.
  assert (H0 : filter (fun p => key p <=? 0) (argsort lambda_) = []).
  { apply filter_nil. intros p Hp. apply argsort_In in Hp.
    pose proof (key_range p Hp). apply Nat.leb_gt. lia. }
  assert (Hd : filter (fun p => 0 + d <? key p) (argsort lambda_) = []).
  { apply filter_nil. intros p Hp. apply argsort_In in Hp.
    pose proof (key_range p Hp). apply Nat.ltb_ge. lia. }
  pose proof (split_from_groups d 0 ltac:(lia)) as H.
  cbv beta in *. rewrite H0, Hd in H. exact H.
Qed.
End Partitions.

Lemma sorted_app_order {A : Type} (R : A -> A -> Prop) (l1 l2 : list A) :
  StronglySorted R (l1 ++ l2) ->
  StronglySorted R l2 /\ forall x y, In x l1 -> In y l2 -> R x y.
Proof.
  induction l1 as [|a l1 IH]; simpl; intros Hs.
  - split; [exact Hs|intros x y []].
  - inv Hs. destruct (IH H1) as [Hs2 Hxy]. split; [exact Hs2|].
    intros x y [<-|Hx] Hy; [|now apply Hxy].
    rewrite Forall_forall in H2. apply H2, in_or_app. now right.
Qed.

(** In a sorted list cut into consecutive pieces, the elements of an
    earlier piece come before those of a later piece. *)
Lemma sorted_concat_order {A : Type} (R : A -> A -> Prop) (Ds : list (list A)) :
  StronglySorted R (concat Ds) ->
  forall i j p q, i < j -> In p (nth i Ds []) -> In q (nth j Ds []) -> R p q.
Proof.
  induction Ds as [|D Ds IH]; intros Hs i j p q Hij Hp Hq.
  - destruct i; contradiction.
  - simpl in Hs. destruct (sorted_app_order R D (concat Ds) Hs) as [Hs2 Hxy].
    destruct j as [|j]; [lia|]. destruct i as [|i]; simpl in Hp, Hq.
    + apply Hxy; [exact Hp|].
      apply in_concat. exists (nth j Ds []). split; [|exact Hq].
      apply nth_In. destruct (Nat.lt_ge_cases j (length Ds)) as [|Hge]; [assumption|].
      rewrite nth_overflow in Hq by assumption. contradiction.
    + apply (IH Hs2 i j); [lia|assumption|assumption].
Qed.

(** C7: the groups that the loop over the partitions walks through, in this
    order, tile the index set: their concatenation is a rearrangement of
    [0, ..., n-1], so the groups are pairwise disjoint and their union is
    the whole index set.  The groups come in ascending order of lambda: no
    point of an earlier group has a larger correlation dimension than a
    point of a later group; and when every correlation dimension lies in
    [[1, d]], the group at position [i] holds exactly the indices of
    correlation dimension [i + 1] (a last, empty piece follows them). *)
Theorem C7_partitions_tile_in_ascending_order (lambda_ : list nat) (d : nat) :
  Permutation (concat (partitions lambda_ d)) (seq 0 (length lambda_)) /\
  NoDup (concat (partitions lambda_ d)) /\
  (forall p, In p (concat (partitions lambda_ d)) <-> p < length lambda_) /\
  (forall i j p q, i < j ->
     In p (nth i (partitions lambda_ d) []) ->
     In q (nth j (partitions lambda_ d) []) ->
     nth p lambda_ 0 <= nth q lambda_ 0) /\
  (Forall (fun v => 1 <= v <= d) lambda_ ->
   length (partitions lambda_ d) = d + 1 /\
   nth d (partitions lambda_ d) [] = [] /\
   forall i p, i < d ->
     (In p (nth i (partitions lambda_ d) [])
      <-> p < length lambda_ /\ nth p lambda_ 0 = i + 1)).
Proof.
  assert (Hord : forall i j p q, i < j ->
            In p (nth i (partitions lambda_ d) []) ->
            In q (nth j (partitions lambda_ d) []) ->
            nth p lambda_ 0 <= nth q lambda_ 0).
  { apply (sorted_concat_order (by_key (fun p => nth p lambda_ 0))).
    rewrite partitions_concat. apply argsort_sorted. }
  rewrite partitions_concat.
  split; [apply argsort_perm|].
  split.
  { eapply Permutation_NoDup; [symmetry; apply argsort_perm|apply seq_NoDup]. }
  split; [apply argsort_In|].
  split; [exact Hord|].
  intros Hrange.
  split; [apply partitions_length|].
  rewrite (partitions_groups lambda_ d Hrange).
  split.
  - rewrite app_nth2; rewrite length_map, length_seq; [|lia].
    now rewrite Nat.sub_diag.
  - intros i p Hi.
    rewrite app_nth1 by (rewrite length_map, length_seq; lia).
    rewrite (nth_indep _ []
               ((fun i => filter (fun p => nth p lambda_ 0 =? i + 1)
                                 (argsort lambda_)) 0))
      by (rewrite length_map, length_seq; lia).
    rewrite (map_nth (fun i => filter (fun p => nth p lambda_ 0 =? i + 1)
                                      (argsort lambda_))).
    rewrite seq_nth by lia. simpl.
    rewrite filter_In, argsort_In, Nat.eqb_eq. reflexivity.
Qed.

(** ** The distance matrix of a partition (lines 141-166) *)

Open Scope R_scope.

Lemma map2_length {A B C : Type} (f : A -> B -> C) u v :
  length (map2 f u v) = Nat.min (length u) (length v).
Proof.
  revert v; induction u as [|a u IH]; intros [|b v]; simpl; auto.
Qed.

Lemma map2_map_map {A B C D : Type} (f : B -> C -> D) (g : A -> B) (h : A -> C) l :
  map2 f (map g l) (map h l) = map (fun x => f (g x) (h x)) l.
Proof.
  induction l as [|x l IH]; simpl; [reflexivity|]. now rewrite IH.
Qed.

(** One entry of [_cdist]: the value for the single row [q]. *)
Lemma _cdist_map P Q Mhat_P :
  _cdist P Q Mhat_P = map (cdist1 P Mhat_P) Q.
Proof.
  unfold _cdist, matmul, cdist1.
  induction Q as [|q Q IH]; simpl; [reflexivity|].
  f_equal. exact IH.
Qed.

Lemma _cdist_length P Q Mhat_P : length (_cdist P Q Mhat_P) = length Q.
Proof. rewrite _cdist_map. apply length_map. Qed.

Lemma slice_seq {A : Type} (a : list A) lo hi d :
  (hi <= length a)%nat ->
  slice a lo hi = map (fun i => nth i a d) (seq lo (hi - lo)).
Proof.
  unfold slice. revert lo hi. induction a as [|x a IH]; intros lo hi Hhi.
  - simpl in Hhi. replace (hi - lo)%nat with O by lia.
    now rewrite firstn_O.
  - destruct lo as [|lo].
    + rewrite Nat.sub_0_r. simpl skipn.
      destruct hi as [|hi]; [reflexivity|]. simpl. f_equal.
      specialize (IH O hi ltac:(simpl in Hhi; lia)).
      rewrite Nat.sub_0_r in IH. simpl in IH. rewrite IH.
      now rewrite <- seq_shift, map_map.
    + destruct hi as [|hi]; [reflexivity|].
      simpl skipn. rewrite Nat.sub_succ.
      rewrite (IH lo hi) by (simpl in Hhi; lia).
      now rewrite <- seq_shift, map_map.
Qed.

Section DistanceEngine.
Variables (X : matrix) (M_hats : list matrix) (D : list nat).

Hypothesis D_in_X : Forall (fun p => (p < length X)%nat) D.
Hypothesis D_in_M : Forall (fun p => (p < length M_hats)%nat) D.

Local Abbreviation n_D := (length D).
Local Abbreviation cd := (pair_cdist X M_hats D).

Lemma D_nth_X i : (i < n_D)%nat -> (nth i D O < length X)%nat.
Proof.
  intros Hi. rewrite Forall_forall in D_in_X. apply D_in_X. now apply nth_In.
Qed.

Lemma D_nth_M i : (i < n_D)%nat -> (nth i D O < length M_hats)%nat.
Proof.
  intros Hi. rewrite Forall_forall in D_in_M. apply D_in_M. now apply nth_In.
Qed.

Lemma take_slice lo hi :
  (hi <= n_D)%nat ->
  take X (slice D lo hi)
  = Ok (map (fun j => nth (nth j D O) X []) (seq lo (hi - lo))).
Proof.
  intros Hhi. rewrite (slice_seq D lo hi O Hhi).
  rewrite (take_Ok _ X _ ) with (d := []).
  - now rewrite map_map.
  - apply Forall_forall. intros p Hp. apply in_map_iff in Hp.
    destruct Hp as (j & <- & Hj). apply in_seq in Hj. apply D_nth_X. lia.
Qed.

(** One iteration of the first loop writes the distances from point [i]
    to the points after it. *)
Lemma triu_step_Ok start cdist_P i :
  (i < n_D)%nat ->
  triu_step X M_hats D (start, cdist_P) i
  = Ok ((start + n_D - i - 1)%nat,
        set_slice cdist_P start (start + n_D - i - 1)
                  (map (cd i) (seq (i + 1) (n_D - (i + 1))))).
Proof.
  intros Hi. unfold triu_step.
  rewrite (getitem_nth_Ok _ D i O Hi). cbn [bind].
  rewrite (getitem_nth_Ok _ X _ [] (D_nth_X i Hi)). cbn [bind].
  rewrite take_slice by lia. cbn [bind].
  rewrite (getitem_nth_Ok _ M_hats _ [] (D_nth_M i Hi)). cbn [bind].
  rewrite _cdist_map, map_map. reflexivity.
Qed.

(** One iteration of the second loop writes, in row [i], the distances
    from point [i] to the points before it. *)
Lemma tril_step_Ok cdist_Q i :
  (i < n_D)%nat -> (i < length cdist_Q)%nat ->
  tril_step X M_hats D cdist_Q i
  = Ok (setitem cdist_Q i
          (set_slice (nth i cdist_Q []) 0 i (map (cd i) (seq 0 i)))).
Proof.
  intros Hi HQ. unfold tril_step.
  rewrite (getitem_nth_Ok _ D i O Hi). cbn [bind].
  rewrite (getitem_nth_Ok _ X _ [] (D_nth_X i Hi)). cbn [bind].
  rewrite take_slice by lia. cbn [bind].
  rewrite (getitem_nth_Ok _ M_hats _ [] (D_nth_M i Hi)). cbn [bind].
  rewrite (getitem_nth_Ok _ cdist_Q i [] HQ). cbn [bind].
  rewrite _cdist_map, map_map, Nat.sub_0_r. reflexivity.
Qed.

Local Abbreviation row := (fun i => map (cd i) (seq (i + 1) (n_D - (i + 1)))).

Lemma firstn_app_exact {A : Type} (a b c : list A) s :
  length a = s -> firstn (s + length b) (a ++ b ++ c) = a ++ b.
Proof.
  intros <-.
  rewrite app_assoc, <- length_app, <- (Nat.add_0_r (length (a ++ b))).
  now rewrite firstn_app_2, firstn_O, app_nil_r.
Qed.

Lemma skipn_app_exact {A : Type} (a b c : list A) s k :
  length a = s -> skipn (s + length b + k) (a ++ b ++ c) = skipn k c.
Proof.
  intros <-.
  rewrite app_assoc, <- length_app, Nat.add_comm, <- skipn_skipn.
  now rewrite skipn_app, skipn_all, Nat.sub_diag.
Qed.

Lemma triu_loop k : forall i start cdist_P,
  (i + k <= n_D)%nat ->
  (start + length (flat_map row (seq i k)) <= length cdist_P)%nat ->
  foldM (triu_step X M_hats D) (seq i k) (start, cdist_P)
  = Ok ((start + length (flat_map row (seq i k)))%nat,
        firstn start cdist_P ++ flat_map row (seq i k)
          ++ skipn (start + length (flat_map row (seq i k))) cdist_P).
Proof.
  induction k as [|k IH]; intros i start cP Hik Hlen.
  - simpl. now rewrite Nat.add_0_r, firstn_skipn.
  - cbn [seq foldM flat_map] in *.
    rewrite length_app, length_map, length_seq in Hlen.
    rewrite triu_step_Ok by lia. cbn [bind].
    set (ri := map (cd i) (seq (i + 1) (n_D - (i + 1)))) in *.
    assert (Hri : length ri = (n_D - (i + 1))%nat)
      by (subst ri; now rewrite length_map, length_seq).
    replace (start + n_D - i - 1)%nat with (start + length ri)%nat by lia.
    assert (Hf : length (firstn start cP) = start)
      by (rewrite length_firstn; lia).
    unfold set_slice.
    rewrite IH.
    + f_equal. rewrite length_app. f_equal; [lia|].
      rewrite (firstn_app_exact _ _ _ _ Hf).
      rewrite (skipn_app_exact _ _ _ _ _ Hf), skipn_skipn.
      rewrite <- !app_assoc. do 3 f_equal.
      f_equal. lia.
    + lia.
    + rewrite !length_app, length_skipn, Hf. lia.
Qed.

Lemma tril_loop k : forall i cdist_Q,
  (i + k <= n_D)%nat -> (i + k <= length cdist_Q)%nat ->
  exists Q',
    foldM (tril_step X M_hats D) (seq i k) cdist_Q = Ok Q' /\
    length Q' = length cdist_Q /\
    forall j, nth j Q' []
              = if (i <=? j)%nat && (j <? i + k)%nat
                then map (cd j) (seq 0 j) ++ skipn j (nth j cdist_Q [])
                else nth j cdist_Q [].
Proof.
  induction k as [|k IH]; intros i Q HiD HiQ.
  - exists Q. repeat split. intros j.
    destruct (Nat.leb_spec i j), (Nat.ltb_spec j (i + 0)); simpl;
      try reflexivity; lia.
  - cbn [seq foldM]. rewrite tril_step_Ok by lia. cbn [bind].
    set (Q1 := setitem Q i _).
    destruct (IH (S i) Q1) as (Q' & HQ' & Hlen & Hnth).
    + lia.
    + subst Q1. rewrite setitem_length. lia.
    + exists Q'. split; [exact HQ'|].
      split; [subst Q1; now rewrite Hlen, setitem_length|].
      intros j. rewrite Hnth. subst Q1.
      rewrite nth_setitem by lia. unfold set_slice. simpl firstn.
      destruct (Nat.leb_spec (S i) j), (Nat.ltb_spec j (S i + k)),
        (Nat.leb_spec i j), (Nat.ltb_spec j (i + S k)),
        (Nat.eqb_spec j i); simpl; subst; try reflexivity; lia.
Qed.
End DistanceEngine.

(** ** The condensed layout: pairs [i < j] in row-major order *)

Close Scope R_scope.

Lemma consecutive_even n : 2 * (n * (n - 1) / 2) = n * (n - 1).
Proof.
  assert (H : exists k, n * (n - 1) = 2 * k).
  { induction n as [|n [k IH]]; [exists 0; reflexivity|].
    destruct n as [|n]; [exists 0; reflexivity|].
    exists (k + S n). simpl in *. nia. }
  destruct H as [k ->]. rewrite (Nat.mul_comm 2 k), Nat.div_mul by lia. lia.
Qed.

Lemma triangle_succ m : m + m * (m - 1) / 2 = S m * (S m - 1) / 2.
Proof.
  pose proof (consecutive_even m). pose proof (consecutive_even (S m)).
  assert (S m * (S m - 1) = m * (m - 1) + 2 * m).
  { destruct m; simpl; nia. }
  lia.
Qed.

Lemma triu_from_length n k : forall s,
  s + k = n -> length (flat_map (triu_row n) (seq s k)) = k * (k - 1) / 2.
Proof.
  induction k as [|k IH]; intros s Hs; [reflexivity|].
  cbn [seq flat_map]. rewrite length_app, IH by lia.
  unfold triu_row. rewrite length_map, length_seq.
  replace (n - (s + 1)) with k by lia. apply triangle_succ.
Qed.

Lemma triu_indices_length n : length (triu_indices n) = n * (n - 1) / 2.
Proof. apply (triu_from_length n n 0). lia. Qed.

Lemma triu_indices_In n i j : In (i, j) (triu_indices n) <-> i < j < n.
Proof.
  unfold triu_indices, triu_row. rewrite in_flat_map. split.
  - intros (i' & Hi' & Hin). apply in_map_iff in Hin.
    destruct Hin as (j' & Heq & Hj'). inv Heq.
    apply in_seq in Hi', Hj'. lia.
  - intros H. exists i. split; [apply in_seq; lia|].
    apply in_map. apply in_seq. lia.
Qed.

(** scipy's index formula addresses the pair [(i, j)]. *)
Lemma triu_indices_nth_error n i j :
  i < j < n ->
  nth_error (triu_indices n) (condensed_index n i j) = Some (i, j).
Proof.
  intros Hij. unfold triu_indices.
  pose proof (triu_from_length n n 0 ltac:(lia)) as Htot.
  pose proof (triu_from_length n (n - i) i ltac:(lia)) as Hsuf.
  replace n with (i + (n - i)) in Htot at 2 by lia.
  replace (seq 0 n) with (seq 0 i ++ seq i (n - i))
    by (rewrite <- seq_app; f_equal; lia).
  rewrite seq_app, flat_map_app, length_app, Nat.add_0_l in Htot.
  rewrite Hsuf in Htot.
  rewrite flat_map_app.
  assert (Hidx : condensed_index n i j
                 = length (flat_map (triu_row n) (seq 0 i)) + (j - i - 1)).
  { unfold condensed_index.
    pose proof (consecutive_even n). pose proof (consecutive_even (n - i)).
    lia. }
  rewrite Hidx, nth_error_app2 by lia.
  replace (length (flat_map (triu_row n) (seq 0 i)) + (j - i - 1)
           - length (flat_map (triu_row n) (seq 0 i))) with (j - i - 1) by lia.
  replace (n - i) with (S (n - i - 1)) by lia. cbn [seq flat_map].
  rewrite nth_error_app1
    by (unfold triu_row; rewrite length_map, length_seq; lia).
  unfold triu_row. rewrite nth_error_map.
  rewrite (nth_error_nth' _ 0) by (rewrite length_seq; lia).
  rewrite seq_nth by lia. simpl. do 2 f_equal. lia.
Qed.

Open Scope R_scope.

Lemma sqrt_up_consecutive n : (2 <= n)%nat -> Nat.sqrt_up (n * (n - 1)) = n.
Proof.
  intros Hn. apply Nat.sqrt_up_unique; [lia|].
  destruct n as [|[|n]]; lia.
Qed.

(** [squareform] on a condensed vector laid out over the pairs [i < j]. *)
Lemma squareform_condensed (f : nat * nat -> R) n :
  squareform (map f (triu_indices n))
  = Ok (if (n <=? 1)%nat then [[0]] else sym_matrix n (fun i j => f (i, j))).
Proof.
  unfold squareform. rewrite length_map, triu_indices_length.
  destruct (Nat.leb_spec n 1) as [Hle|Hgt].
  - destruct n as [|[|n]]; [reflexivity|reflexivity|lia].
  - pose proof (consecutive_even n) as He.
    assert (Hpos : (0 < n * (n - 1) / 2)%nat).
    { destruct n as [|[|n]]; try lia. }
    destruct (n * (n - 1) / 2)%nat as [|t] eqn:ET; [lia|].
    rewrite He, sqrt_up_consecutive, Nat.eqb_refl by lia.
    f_equal. unfold sym_matrix.
    apply map_ext_in. intros i Hi. apply map_ext_in. intros j Hj.
    apply in_seq in Hi, Hj.
    assert (Hnth : forall a b, (a < b < n)%nat ->
              nth (condensed_index n a b) (map f (triu_indices n)) 0 = f (a, b)).
    { intros a b Hab. apply nth_error_nth.
      rewrite nth_error_map, triu_indices_nth_error by assumption.
      reflexivity. }
    destruct (Nat.eqb_spec i j); [reflexivity|].
    destruct (Nat.ltb_spec i j); apply Hnth; lia.
Qed.

Section DistanceMatrix.
Variables (X : matrix) (M_hats : list matrix) (D : list nat).

Hypothesis D_in_X : Forall (fun p => (p < length X)%nat) D.
Hypothesis D_in_M : Forall (fun p => (p < length M_hats)%nat) D.

Local Abbreviation n_D := (length D).
Local Abbreviation cd := (pair_cdist X M_hats D).

Lemma map_flat_map {A B C : Type} (f : B -> C) (g : A -> list B) l :
  map f (flat_map g l) = flat_map (fun x => map f (g x)) l.
Proof.
  induction l as [|x l IH]; simpl; [reflexivity|].
  now rewrite map_app, IH.
Qed.

(** The upper triangle, as the first loop lays it out. *)
Lemma triu_rows_condensed :
  flat_map (fun i => map (cd i) (seq (i + 1) (n_D - (i + 1)))) (seq 0 (n_D - 1))
  = map (fun ij => cd (fst ij) (snd ij)) (triu_indices n_D).
Proof.
  unfold triu_indices. rewrite map_flat_map.
  destruct n_D as [|m] eqn:En; [reflexivity|].
  replace (S m - 1)%nat with m by lia.
  rewrite seq_S, flat_map_app. cbn [flat_map].
  unfold triu_row at 2.
  replace (S m - (0 + m + 1))%nat with O by lia. cbn [seq map].
  rewrite !app_nil_r.
  apply flat_map_ext. intros i. unfold triu_row. now rewrite map_map.
Qed.

(** The lower triangle, read through the transposed upper-triangle
    indices as line 160 does. *)
Lemma tril_condensed_pairs Q' :
  length Q' = n_D ->
  (forall j, nth j Q' []
             = if (1 <=? j)%nat && (j <? 1 + (n_D - 1))%nat
               then map (cd j) (seq 0 j) ++ skipn j (nth j (repeat (repeat (-1) n_D) n_D) [])
               else nth j (repeat (repeat (-1) n_D) n_D) []) ->
  tril_condensed Q'
  = map (fun ij => cd (snd ij) (fst ij)) (triu_indices n_D).
Proof.
  intros Hlen Hnth. unfold tril_condensed. rewrite Hlen.
  apply map_ext_in. intros [i j] Hij. apply triu_indices_In in Hij.
  simpl. rewrite Hnth.
  destruct (Nat.leb_spec 1 j), (Nat.ltb_spec j (1 + (n_D - 1))); try lia.
  simpl. rewrite app_nth1 by (rewrite length_map, length_seq; lia).
  rewrite (nth_indep _ _ (cd j 0%nat)) by (rewrite length_map, length_seq; lia).
  rewrite (map_nth (cd j)), seq_nth by lia. reflexivity.
Qed.

(** The matrix handed to DBSCAN: symmetric by construction, with the
    square root of the larger directional distance off the diagonal; a
    partition of fewer than two points yields the 1x1 zero matrix. *)
Lemma partition_distance_Ok :
  partition_distance X M_hats D
  = Ok (if (n_D <=? 1)%nat then [[0]]
        else sym_matrix n_D (fun i j => sqrt (Rmax (cd i j) (cd j i)))).
Proof.
  destruct (Nat.eq_dec n_D 0) as [Hz|Hnz].
  { rewrite (proj1 (length_zero_iff_nil D) Hz). reflexivity. }
  unfold partition_distance.
  pose proof triu_rows_condensed as Hrows.
  assert (HlenP : length (flat_map (fun i => map (cd i) (seq (i + 1) (n_D - (i + 1))))
                                   (seq 0 (n_D - 1)))
                  = (n_D * (n_D - 1) / 2)%nat).
  { rewrite Hrows, length_map. apply triu_indices_length. }
  rewrite (triu_loop X M_hats D D_in_X D_in_M)
    by (rewrite ?repeat_length; lia).
  cbn [bind snd firstn app].
  destruct (tril_loop X M_hats D D_in_X D_in_M (n_D - 1) 1
              (repeat (repeat (-1) n_D) n_D))
    as (Q' & -> & HlenQ & Hnth); [lia|rewrite repeat_length; lia|].
  cbn [bind]. rewrite repeat_length in HlenQ.
  rewrite (tril_condensed_pairs Q' HlenQ Hnth).
  rewrite Nat.add_0_l, HlenP.
  rewrite skipn_all2 by (rewrite repeat_length; lia).
  rewrite app_nil_r, Hrows.
  unfold block_max. rewrite !length_map, Nat.eqb_refl. cbn [bind].
  rewrite map2_map_map, map_map.
  apply (squareform_condensed
           (fun ij => sqrt (Rmax (cd (fst ij) (snd ij)) (cd (snd ij) (fst ij))))).
Qed.
End DistanceMatrix.

(** ** Sums over index ranges *)

Lemma bigsum_ext n : forall f g,
  (forall i, (i < n)%nat -> f i = g i) -> bigsum n f = bigsum n g.
Proof.
  induction n as [|n IH]; intros f g H; simpl; [reflexivity|].
  rewrite (H O) by lia. f_equal. apply IH. intros i Hi. apply H. lia.
Qed.

Lemma bigsum_zero n : bigsum n (fun _ => 0) = 0.
Proof. induction n as [|n IH]; simpl; [reflexivity|]. rewrite IH. lra. Qed.

Lemma bigsum_plus n : forall f g,
  bigsum n (fun i => f i + g i) = bigsum n f + bigsum n g.
Proof.
  induction n as [|n IH]; intros f g; simpl; [lra|]. rewrite IH. lra.
Qed.

Lemma bigsum_scal n c : forall f,
  bigsum n (fun i => c * f i) = c * bigsum n f.
Proof.
  induction n as [|n IH]; intros f; simpl; [lra|]. rewrite IH. lra.
Qed.

Lemma bigsum_swap n m : forall f : nat -> nat -> R,
  bigsum n (fun i => bigsum m (fun j => f i j))
  = bigsum m (fun j => bigsum n (fun i => f i j)).
Proof.
  induction n as [|n IH]; intros f; simpl.
  - now rewrite bigsum_zero.
  - rewrite IH, <- bigsum_plus. reflexivity.
Qed.

Lemma bigsum_nonneg n : forall f,
  (forall i, (i < n)%nat -> 0 <= f i) -> 0 <= bigsum n f.
Proof.
  induction n as [|n IH]; intros f H; simpl; [lra|].
  pose proof (H O ltac:(lia)).
  pose proof (IH (fun i => f (S i)) ltac:(intros i Hi; apply H; lia)). lra.
Qed.

(** A sum with a single non-zero term. *)
Lemma bigsum_delta n : forall k (f : nat -> R),
  (k < n)%nat ->
  bigsum n (fun l => if (l =? k)%nat then f l else 0) = f k.
Proof.
  induction n as [|n IH]; intros k f Hk; [lia|]. simpl.
  destruct k as [|k].
  - simpl. rewrite bigsum_zero. lra.
  - simpl. rewrite (IH k (fun l => f (S l))) by lia. lra.
Qed.

Lemma vsum_bigsum v : vsum v = bigsum (length v) (fun i => nth i v 0).
Proof.
  induction v as [|x v IH]; simpl; [reflexivity|]. now rewrite IH.
Qed.

Lemma vsum_map_seq (f : nat -> R) n : forall s,
  vsum (map f (seq s n)) = bigsum n (fun i => f (s + i)%nat).
Proof.
  induction n as [|n IH]; intros s; simpl; [reflexivity|].
  rewrite IH, Nat.add_0_r. f_equal. apply bigsum_ext. intros i _.
  f_equal. lia.
Qed.

Lemma nth_map2 {A B C : Type} (f : A -> B -> C) u v i da db dc :
  (i < length u)%nat -> (i < length v)%nat ->
  nth i (map2 f u v) dc = f (nth i u da) (nth i v db).
Proof.
  revert v i. induction u as [|a u IH]; intros [|b v] [|i] Hu Hv;
    simpl in *; try lia; auto.
  apply IH; lia.
Qed.

Lemma dot_bigsum u v d :
  length u = d -> length v = d ->
  dot u v = bigsum d (fun i => nth i u 0 * nth i v 0).
Proof.
  intros Hu Hv. unfold dot. rewrite vsum_bigsum, map2_length, Hu, Hv, Nat.min_id.
  apply bigsum_ext. intros i Hi. apply nth_map2; lia.
Qed.

Lemma col_nth M j i : nth i (col M j) 0 = nth j (nth i M []) 0.
Proof.
  unfold col.
  destruct (Nat.lt_ge_cases i (length M)) as [Hi|Hi].
  - rewrite (nth_indep _ 0 ((fun r => nth j r 0) [])) by now rewrite length_map.
    apply (map_nth (fun r => nth j r 0)).
  - rewrite (nth_overflow (map _ M)) by (rewrite length_map; lia).
    rewrite (nth_overflow M) by lia. now destruct j.
Qed.

Lemma col_length M j : length (col M j) = length M.
Proof. apply length_map. Qed.

Lemma nth_map_seq (f : nat -> R) n i :
  (i < n)%nat -> nth i (map f (seq 0 n)) 0 = f i.
Proof.
  intros Hi. rewrite (nth_indep _ 0 (f O)) by now rewrite length_map, length_seq.
  rewrite (map_nth f), seq_nth by lia. reflexivity.
Qed.

(** ** The correlation distance as a quadratic form *)

Lemma square_ncols d M : square d M -> ncols M = d.
Proof.
  intros [Hl Hr]. destruct M as [|r M]; simpl in *; [assumption|].
  now inv Hr.
Qed.

Lemma square_row d M i : square d M -> (i < d)%nat -> length (nth i M []) = d.
Proof.
  intros [Hl Hr] Hi. rewrite Forall_forall in Hr. apply Hr, nth_In.
  rewrite <- Hl in Hi. exact Hi.
Qed.

Lemma sub_nth P q d i :
  length P = d -> length q = d -> (i < d)%nat ->
  nth i (map2 Rminus P q) 0 = nth i P 0 - nth i q 0.
Proof. intros HP Hq Hi. apply nth_map2; lia. Qed.

Lemma cdist1_bigsum P M q d :
  square d M -> length P = d -> length q = d ->
  cdist1 P M q
  = bigsum d (fun j =>
      bigsum d (fun i => (nth i P 0 - nth i q 0) * nth j (nth i M []) 0)
      * (nth j P 0 - nth j q 0)).
Proof.
  intros HM HP Hq. unfold cdist1. fold (dot (map (fun j => dot (map2 Rminus P q) (col M j))
                                             (seq 0 (ncols M))) (map2 Rminus P q)).
  assert (Hd : length (map2 Rminus P q) = d)
    by (rewrite map2_length; lia).
  rewrite (square_ncols d M HM).
  rewrite (dot_bigsum _ _ d) by (rewrite ?length_map, ?length_seq; auto).
  apply bigsum_ext. intros j Hj.
  rewrite nth_map_seq by assumption.
  rewrite (sub_nth P q d j) by assumption. f_equal.
  rewrite (dot_bigsum _ _ d) by (rewrite ?col_length; auto; apply HM).
  apply bigsum_ext. intros i Hi.
  now rewrite col_nth, (sub_nth P q d i).
Qed.

Lemma quad_form_bigsum M w d :
  square d M -> length w = d ->
  quad_form M w
  = bigsum d (fun i => nth i w 0 * bigsum d (fun j => nth j (nth i M []) 0 * nth j w 0)).
Proof.
  intros HM Hw. unfold quad_form, matvec.
  rewrite (dot_bigsum _ _ d) by (rewrite ?length_map; auto; apply HM).
  apply bigsum_ext. intros i Hi. f_equal.
  rewrite (nth_indep _ 0 ((fun r => dot r w) []))
    by (rewrite length_map; destruct HM as [HlM _]; rewrite <- HlM in Hi; exact Hi).
  rewrite (map_nth (fun r => dot r w)).
  apply dot_bigsum; [now apply square_row|assumption].
Qed.

(** The value that [_cdist] computes from [P - q] is the quadratic form of
    the specification at [q - P]. *)
Lemma cdist1_quad_form P M q d :
  square d M -> length P = d -> length q = d ->
  cdist1 P M q = quad_form M (map2 Rminus q P).
Proof.
  intros HM HP Hq.
  rewrite (cdist1_bigsum P M q d), (quad_form_bigsum M _ d);
    try assumption; [|rewrite map2_length; lia].
  transitivity
    (bigsum d (fun j => bigsum d (fun i =>
       (nth i q 0 - nth i P 0) * (nth j (nth i M []) 0 * (nth j q 0 - nth j P 0))))).
  - apply bigsum_ext. intros j _.
    rewrite Rmult_comm, <- bigsum_scal.
    apply bigsum_ext. intros i _. ring.
  - rewrite bigsum_swap. apply bigsum_ext. intros i Hi.
    rewrite (sub_nth q P d i) by assumption.
    rewrite bigsum_scal. f_equal.
    apply bigsum_ext. intros j Hj.
    now rewrite (sub_nth q P d j).
Qed.

(** ** The projection matrix is positive semi-definite *)

Lemma matmul_nth A C i j :
  (i < length A)%nat -> (j < ncols C)%nat ->
  nth j (nth i (matmul A C) []) 0 = dot (nth i A []) (col C j).
Proof.
  intros Hi Hj. unfold matmul.
  rewrite (nth_indep _ []
             ((fun a => map (fun j => dot a (col C j)) (seq 0 (ncols C))) []))
    by now rewrite length_map.
  rewrite (map_nth (fun a => map (fun j => dot a (col C j)) (seq 0 (ncols C)))).
  now rewrite nth_map_seq.
Qed.

Lemma matmul_row_length A C i :
  (i < length A)%nat -> length (nth i (matmul A C) []) = ncols C.
Proof.
  intros Hi. unfold matmul.
  rewrite (nth_indep _ []
             ((fun a => map (fun j => dot a (col C j)) (seq 0 (ncols C))) []))
    by now rewrite length_map.
  rewrite (map_nth (fun a => map (fun j => dot a (col C j)) (seq 0 (ncols C)))).
  now rewrite length_map, length_seq.
Qed.

Lemma E_hat_length d lambda_P : length (E_hat d lambda_P) = d.
Proof. unfold E_hat. now rewrite length_map, length_seq. Qed.

Lemma E_hat_nonneg d lambda_P k : 0 <= nth k (E_hat d lambda_P) 0.
Proof.
  destruct (Nat.lt_ge_cases k d) as [Hk|Hk].
  - unfold E_hat.
    rewrite (nth_indep _ 0 ((fun i => if (lambda_P <? i)%nat then 1 else 0) O))
      by now rewrite length_map, length_seq.
    rewrite (map_nth (fun i => if (lambda_P <? i)%nat then 1 else 0)).
    destruct (lambda_P <? _)%nat; lra.
  - rewrite nth_overflow by (rewrite E_hat_length; lia). lra.
Qed.

Lemma diag_nth e l k :
  (l < length e)%nat -> (k < length e)%nat ->
  nth k (nth l (diag e) []) 0 = if (l =? k)%nat then nth l e 0 else 0.
Proof.
  intros Hl Hk. unfold diag.
  rewrite (nth_indep _ []
    ((fun i => map (fun j => if (i =? j)%nat then nth i e 0 else 0)
                   (seq 0 (length e))) O))
    by now rewrite length_map, length_seq.
  rewrite (map_nth (fun i => map (fun j => if (i =? j)%nat then nth i e 0 else 0)
                                 (seq 0 (length e)))).
  rewrite seq_nth by assumption. simpl.
  now rewrite nth_map_seq.
Qed.

Lemma diag_square e : square (length e) (diag e).
Proof.
  unfold diag. split.
  - now rewrite length_map, length_seq.
  - apply Forall_forall. intros r Hr. apply in_map_iff in Hr.
    destruct Hr as (i & <- & _). now rewrite length_map, length_seq.
Qed.

Lemma transpose_nth V d k j :
  square d V -> (k < d)%nat ->
  nth j (nth k (transpose V) []) 0 = nth k (nth j V []) 0.
Proof.
  intros HV Hk. unfold transpose. rewrite (square_ncols d V HV).
  rewrite (nth_indep _ [] (col V O)) by now rewrite length_map, length_seq.
  rewrite (map_nth (col V)), seq_nth by assumption. simpl.
  apply col_nth.
Qed.

Lemma transpose_square V d : square d V -> square d (transpose V).
Proof.
  intros HV. unfold transpose. rewrite (square_ncols d V HV). split.
  - now rewrite length_map, length_seq.
  - apply Forall_forall. intros r Hr. apply in_map_iff in Hr.
    destruct Hr as (i & <- & _). rewrite col_length. apply HV.
Qed.

Lemma matmul_square A C d : square d A -> square d C -> square d (matmul A C).
Proof.
  intros HA HC. unfold matmul. split.
  - rewrite length_map. apply HA.
  - apply Forall_forall. intros r Hr. apply in_map_iff in Hr.
    destruct Hr as (a & <- & _).
    now rewrite length_map, length_seq, (square_ncols d C HC).
Qed.

Lemma M_hat_of_square V d lambda_P : square d V -> square d (M_hat_of V d lambda_P).
Proof.
  intros HV. unfold M_hat_of.
  apply matmul_square; [apply matmul_square; [assumption|]|now apply transpose_square].
  rewrite <- (E_hat_length d lambda_P) at 1. apply diag_square.
Qed.

(** Entry [(i, j)] of [V @ diag(e) @ V.T] is [sum_k V_ik e_k V_jk]. *)
Lemma M_hat_of_nth V d lambda_P i j :
  square d V -> (i < d)%nat -> (j < d)%nat ->
  nth j (nth i (M_hat_of V d lambda_P) []) 0
  = bigsum d (fun k => nth k (nth i V []) 0 * nth k (E_hat d lambda_P) 0
                       * nth k (nth j V []) 0).
Proof.
  intros HV Hi Hj. unfold M_hat_of.
  pose proof (E_hat_length d lambda_P) as He.
  set (e := E_hat d lambda_P) in *.
  assert (HD : square d (diag e)) by (rewrite <- He at 1; apply diag_square).
  assert (HB : square d (matmul V (diag e))) by now apply matmul_square.
  pose proof (transpose_square V d HV) as HT.
  assert (HlV : length V = d) by apply HV.
  assert (HlB : length (matmul V (diag e)) = d) by apply HB.
  rewrite matmul_nth; [|now rewrite HlB|now rewrite (square_ncols d _ HT)].
  rewrite (dot_bigsum _ _ d);
    [|now apply square_row|rewrite col_length; apply HT].
  apply bigsum_ext. intros k Hk.
  rewrite col_nth, (transpose_nth V d k j HV Hk). f_equal.
  rewrite matmul_nth; [|now rewrite HlV|now rewrite (square_ncols d _ HD)].
  rewrite (dot_bigsum _ _ d);
    [|now apply square_row|rewrite col_length; apply HD].
  rewrite (bigsum_ext d _
             (fun l => if (l =? k)%nat
                       then nth l (nth i V []) 0 * nth l e 0 else 0)).
  - now rewrite (bigsum_delta d k (fun l => nth l (nth i V []) 0 * nth l e 0)).
  - intros l Hl. rewrite col_nth, diag_nth by lia.
    destruct (l =? k)%nat; lra.
Qed.

(** [sum_j (sum_i v_i M_ij) v_j = sum_k e_k (sum_i v_i a_ik)^2] for
    [M_ij = sum_k a_ik e_k a_jk]. *)
Lemma gram_form d (v e : nat -> R) (a : nat -> nat -> R) :
  bigsum d (fun j =>
    bigsum d (fun i => v i * bigsum d (fun k => a i k * e k * a j k)) * v j)
  = bigsum d (fun k => e k * (bigsum d (fun i => v i * a i k)
                              * bigsum d (fun i => v i * a i k))).
Proof.
  transitivity
    (bigsum d (fun j => bigsum d (fun k =>
       e k * bigsum d (fun i => v i * a i k) * (v j * a j k)))).
  - apply bigsum_ext. intros j _.
    rewrite Rmult_comm, <- bigsum_scal.
    transitivity
      (bigsum d (fun i => bigsum d (fun k =>
         (e k * (v j * a j k)) * (v i * a i k)))).
    + apply bigsum_ext. intros i _.
      rewrite <- !bigsum_scal. apply bigsum_ext. intros k _. ring.
    + rewrite bigsum_swap. apply bigsum_ext. intros k _.
      rewrite bigsum_scal. ring.
  - rewrite bigsum_swap. apply bigsum_ext. intros k _.
    rewrite bigsum_scal. ring.
Qed.

(** The directional distance measured with a matrix [V @ diag(E_hat) @ V.T]
    is never negative. *)
Lemma cdist1_M_hat_nonneg V d lambda_P P q :
  square d V -> length P = d -> length q = d ->
  0 <= cdist1 P (M_hat_of V d lambda_P) q.
Proof.
  intros HV HP Hq.
  rewrite (cdist1_bigsum P _ q d) by (try assumption; now apply M_hat_of_square).
  rewrite (bigsum_ext d _
    (fun j => bigsum d (fun i =>
       (nth i P 0 - nth i q 0)
       * bigsum d (fun k => nth k (nth i V []) 0 * nth k (E_hat d lambda_P) 0
                            * nth k (nth j V []) 0))
     * (nth j P 0 - nth j q 0))).
  - rewrite (gram_form d (fun i => nth i P 0 - nth i q 0)
               (fun k => nth k (E_hat d lambda_P) 0)
               (fun i k => nth k (nth i V []) 0)).
    apply bigsum_nonneg. intros k _.
    apply Rmult_le_pos; [apply E_hat_nonneg|].
    apply Rle_0_sqr.
  - intros j Hj. f_equal. apply bigsum_ext. intros i Hi.
    now rewrite M_hat_of_nth.
Qed.

(** ** The matrix handed to DBSCAN *)

Lemma sym_matrix_nth n g i j :
  (i < n)%nat -> (j < n)%nat ->
  nth j (nth i (sym_matrix n g) []) 0
  = if (i =? j)%nat then 0 else if (i <? j)%nat then g i j else g j i.
Proof.
  intros Hi Hj. unfold sym_matrix.
  rewrite (nth_indep _ []
    ((fun i => map (fun j => if (i =? j)%nat then 0
                             else if (i <? j)%nat then g i j else g j i)
                   (seq 0 n)) O))
    by now rewrite length_map, length_seq.
  rewrite (map_nth (fun i => map (fun j => if (i =? j)%nat then 0
                                           else if (i <? j)%nat then g i j else g j i)
                                 (seq 0 n))).
  rewrite seq_nth by assumption. simpl.
  now rewrite nth_map_seq.
Qed.

Lemma sym_matrix_outside n g i j :
  (n <= i)%nat \/ (n <= j)%nat -> nth j (nth i (sym_matrix n g) []) 0 = 0.
Proof.
  intros H. unfold sym_matrix.
  destruct (Nat.lt_ge_cases i n) as [Hi|Hi].
  - destruct H as [H|H]; [lia|].
    rewrite (nth_indep _ []
      ((fun i => map (fun j => if (i =? j)%nat then 0
                               else if (i <? j)%nat then g i j else g j i)
                     (seq 0 n)) O))
      by now rewrite length_map, length_seq.
    rewrite (map_nth (fun i => map (fun j => if (i =? j)%nat then 0
                                             else if (i <? j)%nat then g i j else g j i)
                                   (seq 0 n))).
    apply nth_overflow. now rewrite length_map, length_seq.
  - rewrite (nth_overflow (map _ _)) by now rewrite length_map, length_seq.
    now destruct j.
Qed.

Lemma sym_matrix_length n g : length (sym_matrix n g) = n.
Proof. unfold sym_matrix. now rewrite length_map, length_seq. Qed.




Lemma pair_cdist_quad_form X M_hats D d a b :
  Forall (fun r => length r = d) X -> Forall (square d) M_hats ->
  Forall (fun p => (p < length X)%nat) D ->
  Forall (fun p => (p < length M_hats)%nat) D ->
  (a < length D)%nat -> (b < length D)%nat ->
  pair_cdist X M_hats D a b
  = quad_form (nth (nth a D O) M_hats [])
              (map2 Rminus (nth (nth b D O) X []) (nth (nth a D O) X [])).
Proof.
  intros HX HM HDX HDM Ha Hb. unfold pair_cdist.
  rewrite Forall_forall in HX, HM, HDX, HDM.
  apply (cdist1_quad_form _ _ _ d).
  - apply HM, nth_In, HDM, nth_In, Ha.
  - apply HX, nth_In, HDX, nth_In, Ha.
  - apply HX, nth_In, HDX, nth_In, Hb.
Qed.

(** C5: every entry of [_cdist(P, Q, Mhat_P)] is the quadratic form
    [(q - P)^t . Mhat_P . (q - P)] of the corresponding row [q] of [Q]; and
    in the matrix handed to DBSCAN for a partition [D], both entries of the
    unordered pair [{i, j}] are the square root of the larger of the two
    directional distances, each measured with the matrix of its own first
    point. *)
Theorem C5_cdist_is_quadratic_form_and_max_symmetrised
    (X : matrix) (M_hats : list matrix) (D : list nat) (d : nat) :
  Forall (fun r => length r = d) X -> Forall (square d) M_hats ->
  Forall (fun p => (p < length X)%nat) D ->
  Forall (fun p => (p < length M_hats)%nat) D ->
  (forall P Q Mhat_P r,
      square d Mhat_P -> length P = d -> Forall (fun q => length q = d) Q ->
      (r < length Q)%nat ->
      nth r (_cdist P Q Mhat_P) 0
      = quad_form Mhat_P (map2 Rminus (nth r Q []) P)) /\
  exists cdist,
    partition_distance X M_hats D = Ok cdist /\
    forall i j, (i < j < length D)%nat ->
      let P := nth (nth i D O) X [] in
      let Q := nth (nth j D O) X [] in
      let dist :=
        sqrt (Rmax (quad_form (nth (nth i D O) M_hats []) (map2 Rminus Q P))
                   (quad_form (nth (nth j D O) M_hats []) (map2 Rminus P Q))) in
      nth j (nth i cdist []) 0 = dist /\ nth i (nth j cdist []) 0 = dist.
Proof.
  intros HX HM HDX HDM. split.
  - intros P Q Mhat_P r HMP HP HQ Hr.
    rewrite _cdist_map.
    rewrite (nth_indep _ 0 (cdist1 P Mhat_P [])) by now rewrite length_map.
    rewrite (map_nth (cdist1 P Mhat_P)).
    apply (cdist1_quad_form _ _ _ d); try assumption.
    rewrite Forall_forall in HQ. apply HQ, nth_In, Hr.
  - eexists. split; [apply partition_distance_Ok; assumption|].
    intros i j Hij. cbv zeta.
    destruct (Nat.leb_spec (length D) 1) as [|Hn]; [lia|].
    rewrite !sym_matrix_nth by lia.
    destruct (Nat.eqb_spec i j), (Nat.eqb_spec j i), (Nat.ltb_spec i j),
      (Nat.ltb_spec j i); try lia.
    rewrite !(pair_cdist_quad_form X M_hats D d) by (assumption || lia).
    split; reflexivity.
Qed.

Lemma cov_square N_P : square (ncols N_P) (cov N_P).
Proof.
  unfold cov. split.
  - now rewrite !length_map, length_seq.
  - apply Forall_forall. intros r Hr. apply in_map_iff in Hr.
    destruct Hr as (ci & <- & _). now rewrite !length_map, length_seq.
Qed.

Section AnalysedData.
Variable eigh : matrix -> list R * matrix.
Variables (X : matrix) (d : nat) (alpha : R) (knns : list (list nat)).

Hypothesis X_rows : Forall (fun r => length r = d) X.
Hypothesis knns_length : length knns = length X.
Hypothesis knns_in_range : Forall (in_range X) knns.
Hypothesis knns_two : two_neighbours knns.
Hypothesis two_features : (2 <= d)%nat.
Hypothesis eigh_shape : forall S, square (length S) (snd (eigh S)).


Lemma knns_nonempty : Forall (fun knn => knn <> []) knns.
Proof.
  eapply Forall_impl; [|exact knns_two].
  intros knn H Hnil. cbv beta in H. rewrite Hnil in H. simpl in H. lia.
Qed.

Lemma neighbourhood_ncols knn :
  in_range X knn -> knn <> [] ->
  ncols (map (fun i => nth i X []) knn) = d.
Proof.
  intros Hin Hne. destruct knn as [|i knn]; [contradiction|]. simpl.
  inv Hin. pose proof (proj1 (Forall_forall _ _) X_rows) as HX.
  now apply HX, nth_In.
Qed.

Lemma eigenvectors_square knn :
  in_range X knn -> knn <> [] ->
  square d (snd (eigh (cov (map (fun i => nth i X []) knn)))).
Proof.
  intros Hin Hne.
  pose proof (eigh_shape (cov (map (fun i => nth i X []) knn))) as H.
  destruct (cov_square (map (fun i => nth i X []) knn)) as [Hl _].
  rewrite Hl, neighbourhood_ncols in H; assumption.
Qed.

Local Abbreviation M_hat := (map (M_hat_at eigh X d alpha) knns).


Lemma M_hat_squares : Forall (square d) M_hat.
Proof.
  apply Forall_forall. intros M HM. apply in_map_iff in HM.
  destruct HM as (knn & <- & Hknn).
  pose proof (proj1 (Forall_forall _ _) knns_in_range) as Hr.
  pose proof (proj1 (Forall_forall _ _) knns_nonempty) as Hn.
  apply M_hat_of_square, eigenvectors_square; auto.
Qed.


End AnalysedData.

(** ** The loop over the partitions and the final assertion *)

Lemma forallb_nth (l : list bool) :
  (forall j, (j < length l)%nat -> nth j l false = true) ->
  forallb (fun b => b) l = true.
Proof.
  induction l as [|b l IH]; intros H; simpl; [reflexivity|].
  pose proof (H O ltac:(simpl; lia)) as H0. simpl in H0. subst b. simpl.
  apply IH. intros j Hj. apply (H (S j)). simpl. lia.
Qed.

Section PartitionLoop.
Variable dbscan : matrix -> R -> Z -> list Z.
Variables (X : matrix) (M_hat : list matrix) (eps : R) (mu : Z).

Hypothesis dbscan_length : forall M eps mu, length (dbscan M eps mu) = length M.
Hypothesis M_hat_length : length M_hat = length X.

Lemma partition_step_Ok st D :
  length (y st) = length X -> length (used_y st) = length X ->
  in_range X D ->
  exists cdist st',
    partition_distance X M_hat D = Ok cdist /\
    partition_step dbscan X M_hat eps mu st D = Ok st' /\
    merge_step st D (dbscan cdist eps mu) = Ok st'.
Proof.
  intros Hy Hu HD. unfold partition_step.
  assert (HDM : Forall (fun p => (p < length M_hat)%nat) D)
    by (rewrite M_hat_length; exact HD).
  rewrite (partition_distance_Ok X M_hat D HD HDM). cbn [bind].
  destruct (merge_step_Ok st D
              (dbscan (if (length D <=? 1)%nat then [[0]]
                       else sym_matrix (length D)
                              (fun i j => sqrt (Rmax (pair_cdist X M_hat D i j)
                                                     (pair_cdist X M_hat D j i))))
                      eps mu))
    as [st' Hst'].
  - congruence.
  - rewrite Hy. exact HD.
  - rewrite dbscan_length.
    destruct (Nat.leb_spec (length D) 1); [now right|left].
    apply sym_matrix_length.
  - eauto.
Qed.

Lemma partition_loop_Ok Ds : forall st,
  length (y st) = length X -> length (used_y st) = length X ->
  Forall (in_range X) Ds ->
  exists st',
    foldM (partition_step dbscan X M_hat eps mu) Ds st = Ok st' /\
    length (y st') = length X /\ length (used_y st') = length X /\
    forall j, nth j (used_y st') false = true
              <-> In j (concat Ds) \/ nth j (used_y st) false = true.
Proof.
  induction Ds as [|D Ds IH]; intros st Hy Hu HDs.
  - exists st. repeat split; auto. intros [[]|]; assumption.
  - inv HDs. cbn [foldM].
    destruct (partition_step_Ok st D Hy Hu H1) as (cdist & st1 & _ & -> & Hm).
    cbn [bind].
    destruct (merge_step_lengths _ _ _ _ Hm) as [Hy1 Hu1].
    destruct (IH st1) as (st' & Hst' & Hy' & Hu' & Hused);
      [congruence|congruence|assumption|].
    exists st'. repeat split; auto.
    + intros Hj. apply Hused in Hj. simpl. rewrite in_app_iff.
      destruct Hj as [Hj|Hj]; [auto|].
      destruct (in_dec Nat.eq_dec j D) as [Hin|Hnin]; [auto|].
      apply merge_step_inv in Hm. destruct Hm as (_ & Hs & _).
      rewrite (scatter_other _ _ _ _ _ j false Hs Hnin) in Hj. auto.
    + intros Hj. apply Hused. simpl in Hj. rewrite in_app_iff in Hj.
      apply merge_step_inv in Hm. destruct Hm as (_ & Hs & _).
      destruct (in_dec Nat.eq_dec j D) as [Hin|Hnin].
      * right. apply (scatter_const _ _ _ _ _ j false Hs Hin).
      * rewrite (scatter_other _ _ _ _ _ j false Hs Hnin).
        destruct Hj as [[Hj|Hj]|Hj]; [contradiction|auto|auto].
Qed.
End PartitionLoop.

Section CopacRuns.
Variable kneighbors : matrix -> Z -> list (list nat).
Variable eigh : matrix -> list R * matrix.
Variable dbscan : matrix -> R -> Z -> list Z.
Variables (X : matrix) (k mu : Z) (eps alpha : R).

Hypothesis X_nonempty : (0 < length X)%nat.
Hypothesis X_wide : wide X.
Hypothesis knns_length : length (kneighbors X k) = length X.
Hypothesis knns_in_range : Forall (in_range X) (kneighbors X k).
Hypothesis knns_two : two_neighbours (kneighbors X k).
Hypothesis dbscan_length : forall M eps mu, length (dbscan M eps mu) = length M.

Local Abbreviation n := (length X).
Local Abbreviation d := (ncols X).
Local Abbreviation knns := (kneighbors X k).

Lemma check_array_passes : ((n =? 0) || (d =? 0))%nat = false.
Proof.
  destruct X as [|r X']; [simpl in X_nonempty; lia|].
  pose proof (Forall_inv X_wide) as Hr. cbv beta in Hr. simpl.
  destruct (length r); [lia|reflexivity].
Qed.

(** Whatever the parameters are, on data of at least two features and with
    providers that return well-shaped results, every loop of [copac] runs to
    its end and the final assertion holds. *)
Lemma copac_run :
  exists lambda_ M_hat st,
    foldM (analyse_step eigh X d alpha) (enumerate knns) (repeat O n, [])
    = Ok (lambda_, M_hat) /\
    length lambda_ = n /\ length M_hat = n /\
    foldM (partition_step dbscan X M_hat eps mu) (partitions lambda_ d)
          (init_state n) = Ok st /\
    length (y st) = n /\ length (used_y st) = n /\
    forallb (fun b => b) (used_y st) = true /\
    copac kneighbors eigh dbscan X k mu eps alpha = Ok (y st).
Proof.
  pose proof (analyse_loop_Ok eigh X d X_wide alpha knns
                knns_length knns_in_range knns_two) as Hloop.
  set (lambda_ := map (lambda_at eigh X alpha) knns) in *.
  set (M_hat := map (M_hat_at eigh X d alpha) knns) in *.
  assert (Hl : length lambda_ = n)
    by (subst lambda_; now rewrite length_map).
  assert (HM : length M_hat = n) by (subst M_hat; now rewrite length_map).
  assert (HDs : Forall (in_range X) (partitions lambda_ d)).
  { apply Forall_forall. intros D HD. apply Forall_forall. intros p Hp.
    assert (Hc : In p (concat (partitions lambda_ d)))
      by (apply in_concat; eauto).
    rewrite partitions_concat in Hc. apply argsort_In in Hc. lia. }
  destruct (partition_loop_Ok dbscan X M_hat eps mu dbscan_length HM
              (partitions lambda_ d) (init_state n))
    as (st & Hst & Hy & Hu & Hused);
    [apply repeat_length|apply repeat_length|exact HDs|].
  assert (Hall : forallb (fun b => b) (used_y st) = true).
  { apply forallb_nth. intros j Hj. apply Hused. left.
    rewrite partitions_concat. apply argsort_In. lia. }
  exists lambda_, M_hat, st. repeat split; auto.
  unfold copac. rewrite check_array_passes, Hloop. cbn [bind fst snd].
  rewrite Hst. cbn [bind]. now rewrite Hall.
Qed.
End CopacRuns.


(** [check_array] turns away an array without samples or without
    features, before anything is computed. *)
Lemma check_array_rejects kneighbors eigh dbscan X k mu eps alpha :
  length X = 0%nat \/ ncols X = 0%nat ->
  copac kneighbors eigh dbscan X k mu eps alpha = Err ValueError.
Proof.
  intros H. unfold copac.
  replace ((length X =? 0) || (ncols X =? 0))%nat with true; [reflexivity|].
  symmetry. apply orb_true_iff. rewrite !Nat.eqb_eq. exact H.
Qed.

(** C3, as the code has it: [copac] checks none of [k], [mu], [eps] and
    [alpha].  Only the shape of [X] is checked, by [check_array]: an array
    without samples or features is a ValueError at once.  For every [k],
    [mu], [eps] and [alpha], valid or not, the neighbour search, the
    analysis of the points and the clustering of the partitions all run,
    and the call returns a label vector of length [n] whenever the data has
    at least two features and the providers return well-shaped results (per
    point a list of at least two in-range neighbours, one label per row of
    a distance matrix). *)
Theorem C3_parameters_are_not_validated
    (kneighbors : matrix -> Z -> list (list nat))
    (eigh : matrix -> list R * matrix)
    (dbscan : matrix -> R -> Z -> list Z)
    (X : matrix) (k mu : Z) (eps alpha : R) :
  (length X = 0%nat \/ ncols X = 0%nat ->
   copac kneighbors eigh dbscan X k mu eps alpha = Err ValueError) /\
  ((0 < length X)%nat -> wide X ->
   length (kneighbors X k) = length X ->
   Forall (in_range X) (kneighbors X k) ->
   two_neighbours (kneighbors X k) ->
   (forall M eps mu, length (dbscan M eps mu) = length M) ->
   exists labels,
     copac kneighbors eigh dbscan X k mu eps alpha = Ok labels /\
     length labels = length X).
Proof.
  split; [apply check_array_rejects|].
  intros Hn Hw Hk Hr H2 Hd.
  destruct (copac_run kneighbors eigh dbscan X k mu eps alpha Hn Hw Hk Hr H2 Hd)
    as (lambda_ & M_hat & st & _ & _ & _ & _ & Hy & _ & _ & Hc).
  exists (y st). split; assumption.
Qed.

(** ** The concrete data *)

Lemma knn_example_length k : length (knn_example X_example k) = length X_example.
Proof. reflexivity. Qed.

Lemma knn_example_in_range k : Forall (in_range X_example) (knn_example X_example k).
Proof. repeat constructor. Qed.

Lemma knn_example_two k : two_neighbours (knn_example X_example k).
Proof. repeat constructor. Qed.

Lemma X_example_nonempty : (0 < length X_example)%nat.
Proof. repeat constructor. Qed.

Lemma X_example_wide : wide X_example.
Proof. repeat constructor. Qed.

Lemma X_example_rows : Forall (fun r => length r = 2%nat) X_example.
Proof. repeat constructor. Qed.

Lemma eigh_diag_shape S : square (length S) (snd (eigh_diag S)).
Proof.
  unfold eigh_diag. cbn [snd].
  rewrite <- (repeat_length 1 (length S)) at 1. apply diag_square.
Qed.

Lemma dbscan_noise_length M eps mu : length (dbscan_noise M eps mu) = length M.
Proof. apply repeat_length. Qed.

(** With only noise labels the offset stays 0 and the label vector stays
    all [-1]. *)
Lemma assign_noise n idx m a' :
  assign (repeat (-1)%Z n) idx (repeat (-1)%Z m) = Ok a' -> a' = repeat (-1)%Z n.
Proof.
  revert m. induction idx as [|i idx IH]; intros m H; simpl in H.
  - now inv H.
  - destruct m as [|m]; [discriminate|]. simpl in H.
    destruct (Nat.ltb_spec i (length (repeat (-1)%Z n))) as [Hi|]; [|discriminate].
    rewrite repeat_length in Hi.
    replace (setitem (repeat (-1)%Z n) i (-1)%Z) with (repeat (-1)%Z n) in H.
    + eauto.
    + clear -Hi. revert i Hi. induction n as [|n IH]; intros [|i] Hi;
        simpl; try lia; auto. f_equal. apply IH. lia.
Qed.

Lemma new_labels_noise m : new_labels (repeat (-1)%Z m) = 0%Z.
Proof.
  unfold new_labels.
  replace (filter (fun l => (0 <=? l)%Z) (repeat (-1)%Z m)) with (@nil Z);
    [reflexivity|].
  induction m; simpl; auto.
Qed.

Lemma y_D_noise m : y_D (repeat (-1)%Z m) 0 = repeat (-1)%Z m.
Proof. unfold y_D. induction m; simpl; congruence. Qed.

Lemma merge_step_noise n u D m st' :
  merge_step (MergeState 0 (repeat (-1)%Z n) u) D (repeat (-1)%Z m) = Ok st' ->
  max_label st' = 0%Z /\ y st' = repeat (-1)%Z n.
Proof.
  intros H. apply merge_step_inv in H. cbn [max_label y used_y] in H.
  destruct H as (Hy & _ & Hm). split.
  - rewrite Hm, new_labels_noise. reflexivity.
  - rewrite y_D_noise in Hy.
    unfold scatter in Hy.
    destruct (length (repeat (-1)%Z m) =? length D)%nat.
    + eapply assign_noise; eauto.
    + destruct m as [|[|m]]; try discriminate. simpl in Hy.
      eapply (assign_noise n D (length D)); eauto.
Qed.

Lemma partition_loop_noise X M_hat eps mu Ds : forall st st',
  max_label st = 0%Z -> y st = repeat (-1)%Z (length X) ->
  foldM (partition_step dbscan_noise X M_hat eps mu) Ds st = Ok st' ->
  y st' = repeat (-1)%Z (length X).
Proof.
  induction Ds as [|D Ds IH]; intros st st' Hm Hy H; simpl in H.
  - now inv H.
  - bind_inv H. unfold partition_step in E. bind_inv E.
    destruct st as [ml ys us]. simpl in Hm, Hy. subst ml ys.
    unfold dbscan_noise in E. apply merge_step_noise in E.
    destruct E as [Hm' Hy']. eapply IH; eauto.
Qed.

(** C3, the claim as it is stated fails: with [mu = 5 > k = 2] and
    [alpha = 2] outside (0, 1) the call on three points of the plane (each
    with its two nearest neighbours, a DBSCAN that finds five neighbours
    nowhere) raises nothing and returns three noise labels. *)
Lemma C3_invalid_parameters_are_accepted :
  ~ valid_parameters 2 5 (1 / 2) 2 (ncols X_example) /\
  copac knn_example eigh_diag dbscan_noise X_example 2 5 (1 / 2) 2
  = Ok [-1; -1; -1]%Z.
Proof.
  split.
  - intros (_ & _ & Hmu & _). lia.
  - destruct (copac_run knn_example eigh_diag dbscan_noise X_example 2 5 (1 / 2) 2
                X_example_nonempty X_example_wide
                (knn_example_length 2) (knn_example_in_range 2)
                (knn_example_two 2) dbscan_noise_length)
      as (lambda_ & M_hat & st & _ & _ & _ & Hst & _ & _ & _ & Hc).
    rewrite Hc. f_equal.
    apply (partition_loop_noise X_example M_hat (1 / 2) 5 _
             (init_state (length X_example)) st eq_refl eq_refl Hst).
Qed.

(** ** The executable parts on small inputs *)

Example partitions_example : partitions [1; 2; 1]%nat 2 = [[0; 2]; [1]; []]%nat.
Proof. reflexivity. Qed.

Example partitions_last_bin_closed :
  partitions [3; 1; 3]%nat 2 = [[1]; [0; 2]; []]%nat.
Proof. reflexivity. Qed.

Example triu_indices_example : triu_indices 3 = [(0, 1); (0, 2); (1, 2)]%nat.
Proof. reflexivity. Qed.

Example new_labels_example : new_labels [0; -1; 1; 0; -1]%Z = 2%Z.
Proof. reflexivity. Qed.

Example scatter_broadcast_example :
  scatter [false; false; false] [0; 2]%nat [true] = Ok [true; false; true].
Proof. reflexivity. Qed.

(** ** The theorems at concrete inputs *)


Lemma C7_witness :
  Forall (fun v => 1 <= v <= 2)%nat [1; 2; 1]%nat /\
  (length (partitions [1; 2; 1]%nat 2) = (2 + 1)%nat /\
   nth 2 (partitions [1; 2; 1]%nat 2) [] = [] /\
   forall i p, (i < 2)%nat ->
     (In p (nth i (partitions [1; 2; 1]%nat 2) [])
      <-> (p < length [1; 2; 1]%nat)%nat /\ nth p [1; 2; 1]%nat O = (i + 1)%nat)).
Proof.
  assert (H : Forall (fun v => 1 <= v <= 2)%nat [1; 2; 1]%nat)
    by (repeat constructor).
  exact (conj H (proj2 (proj2 (proj2 (proj2
           (C7_partitions_tile_in_ascending_order [1; 2; 1]%nat 2)))) H)).
Defined.

Lemma C9_witness :
  (wide X_example /\
   length (knn_example X_example 2) = length X_example /\
   Forall (in_range X_example) (knn_example X_example 2) /\
   two_neighbours (knn_example X_example 2) /\
   8 / 10 <= 9 / 10) /\
  exists l1 M1 l2 M2,
    foldM (analyse_step eigh_diag X_example 2 (8 / 10))
          (enumerate (knn_example X_example 2))
          (repeat O (length X_example), []) = Ok (l1, M1) /\
    foldM (analyse_step eigh_diag X_example 2 (9 / 10))
          (enumerate (knn_example X_example 2))
          (repeat O (length X_example), []) = Ok (l2, M2) /\
    length l1 = length X_example /\ length l2 = length X_example /\
    forall P, (nth P l1 O <= nth P l2 O)%nat.
Proof.
  assert (H3 : 8 / 10 <= 9 / 10) by lra.
  exact (conj (conj X_example_wide
                 (conj (knn_example_length 2)
                    (conj (knn_example_in_range 2)
                       (conj (knn_example_two 2) H3))))
              (C9_lambda_monotone_in_alpha eigh_diag X_example 2 X_example_wide
                 (knn_example X_example 2) (8 / 10) (9 / 10)
                 (knn_example_length 2) (knn_example_in_range 2)
                 (knn_example_two 2) H3)).
Defined.

Lemma M_hat_example_squares : Forall (square 2) M_hat_example.
Proof. repeat constructor. Qed.

Lemma D_example_in_X : Forall (fun p => (p < length X_example)%nat) D_example.
Proof. repeat constructor. Qed.

Lemma D_example_in_M : Forall (fun p => (p < length M_hat_example)%nat) D_example.
Proof. repeat constructor. Qed.

Lemma C5_witness :
  (Forall (fun r => length r = 2%nat) X_example /\
   Forall (square 2) M_hat_example /\
   Forall (fun p => (p < length X_example)%nat) D_example /\
   Forall (fun p => (p < length M_hat_example)%nat) D_example) /\
  nth 0 (_cdist [0; 0] [[0; 1]] [[1; 0]; [0; 1]]) 0
  = quad_form [[1; 0]; [0; 1]] (map2 Rminus (nth 0 [[0; 1]] []) [0; 0]) /\
  exists cdist,
    partition_distance X_example M_hat_example D_example = Ok cdist /\
    forall i j, (i < j < length D_example)%nat ->
      let P := nth (nth i D_example O) X_example [] in
      let Q := nth (nth j D_example O) X_example [] in
      let dist :=
        sqrt (Rmax (quad_form (nth (nth i D_example O) M_hat_example [])
                              (map2 Rminus Q P))
                   (quad_form (nth (nth j D_example O) M_hat_example [])
                              (map2 Rminus P Q))) in
      nth j (nth i cdist []) 0 = dist /\ nth i (nth j cdist []) 0 = dist.
Proof.
  assert (HI : square 2 [[1; 0]; [0; 1]]) by (repeat constructor).
  assert (HQ : Forall (fun q : list R => length q = 2%nat) [[0; 1]])
    by (repeat constructor).
  assert (Hr : (0 < length [[0; 1]])%nat) by (simpl; lia).
  pose (T := C5_cdist_is_quadratic_form_and_max_symmetrised
               X_example M_hat_example D_example 2
               X_example_rows M_hat_example_squares
               D_example_in_X D_example_in_M).
  exact (conj (conj X_example_rows
                 (conj M_hat_example_squares (conj D_example_in_X D_example_in_M)))
              (conj (proj1 T [0; 0] [[0; 1]] [[1; 0]; [0; 1]] O HI eq_refl HQ Hr)
                    (proj2 T))).
Defined.



Lemma C3_witness :
  ((0 < length X_example)%nat /\ wide X_example /\
   length (knn_example X_example 2) = length X_example /\
   Forall (in_range X_example) (knn_example X_example 2) /\
   two_neighbours (knn_example X_example 2) /\
   (forall M eps mu, length (dbscan_noise M eps mu) = length M)) /\
  exists labels,
    copac knn_example eigh_diag dbscan_noise X_example 2 5 (1 / 2) 2 = Ok labels /\
    length labels = length X_example.
Proof.
  exact (conj (conj X_example_nonempty
                 (conj X_example_wide
                    (conj (knn_example_length 2)
                       (conj (knn_example_in_range 2)
                          (conj (knn_example_two 2) dbscan_noise_length)))))
              (proj2 (C3_parameters_are_not_validated
                 knn_example eigh_diag dbscan_noise X_example 2 5 (1 / 2) 2)
                 X_example_nonempty X_example_wide
                 (knn_example_length 2) (knn_example_in_range 2)
                 (knn_example_two 2) dbscan_noise_length)).
Defined.

(** ** A complete run *)

(** The correlation dimension from two eigenvalues. *)
Lemma local_corr_dim_pair e1 e2 alpha :
  0 <= e1 -> e1 <= e2 -> 0 < e2 -> alpha <= 1 ->
  local_corr_dim [e1; e2] alpha
  = if Rle_dec (alpha * (e1 + e2)) e2 then 1%nat else 2%nat.
Proof.
  intros H1 H12 H2 Ha. unfold local_corr_dim.
  assert (Hs : np_sort [e1; e2] = [e1; e2]).
  { unfold np_sort. simpl. unfold Rleb. destruct (Rle_dec e1 e2); [reflexivity|lra]. }
  rewrite Hs. cbn [rev app].
  rewrite explanation_portion_finite by (simpl; lra).
  rewrite searchsorted_Fin, searchsorted_first_reach.
  2:{ intros i j Hij. rewrite explained_variance_length in Hij.
      apply explained_variance_ascending;
        [repeat (constructor; try lra)|simpl; lra|exact Hij]. }
  unfold explained_variance, cumsum. cbn [cumsum_from map vsum fold_right first_reach].
  assert (Hp : 0 < e2 + (e1 + 0)) by lra.
  destruct (Rle_dec alpha ((0 + e2) / (e2 + (e1 + 0)))) as [Hle|Hnle].
  - destruct (Rle_dec (alpha * (e1 + e2)) e2) as [|Hn]; [reflexivity|].
    exfalso. apply Hn.
    apply (Rmult_le_compat_r (e2 + (e1 + 0))) in Hle; [|lra].
    unfold Rdiv in Hle. rewrite Rmult_assoc, Rinv_l in Hle by lra. lra.
  - destruct (Rle_dec alpha ((0 + e2 + e1) / (e2 + (e1 + 0)))) as [Hle1|Hnle1].
    + destruct (Rle_dec (alpha * (e1 + e2)) e2) as [Hy|]; [|reflexivity].
      exfalso. apply Hnle.
      apply (Rmult_le_reg_r (e2 + (e1 + 0))); [lra|].
      unfold Rdiv. rewrite Rmult_assoc, Rinv_l by lra. lra.
    + exfalso. apply Hnle1.
      replace ((0 + e2 + e1) / (e2 + (e1 + 0))) with 1 by (field; lra). exact Ha.
Qed.

Ltac eval_lambda_nine :=
  unfold lambda_at;
  cbv [map nth X_nine cov ncols col seq mean vsum fold_right dot map2 length
       eigh_diag fst];
  replace (INR 3) with 3 by (simpl; lra);
  rewrite local_corr_dim_pair by lra;
  match goal with
  | |- (if ?c then _ else _) = _ =>
      destruct c; [first [reflexivity | exfalso; lra]
                  |first [reflexivity | exfalso; lra]]
  end.

Lemma lambda_nine :
  map (lambda_at eigh_diag X_nine (95 / 100)) (knn_nine X_nine 3)
  = [1; 1; 1; 1; 1; 2; 2; 2; 2]%nat.
Proof.
  unfold knn_nine. cbn [map].
  repeat (f_equal; [eval_lambda_nine|]).
  f_equal. eval_lambda_nine.
Qed.

Lemma partition_step_five X M_hat eps mu st D :
  in_range X D -> length M_hat = length X ->
  partition_step dbscan_five X M_hat eps mu st D
  = merge_step st D
      (if (5 <=? Nat.max 1 (length D))%nat
       then repeat 0%Z (Nat.max 1 (length D))
       else repeat (-1)%Z (Nat.max 1 (length D))).
Proof.
  intros HD HM. unfold partition_step.
  rewrite (partition_distance_Ok X M_hat D HD)
    by (rewrite HM; exact HD).
  cbn [bind]. unfold dbscan_five.
  destruct (Nat.leb_spec (length D) 1) as [Hle|Hgt].
  - replace (Nat.max 1 (length D)) with 1%nat by lia. reflexivity.
  - rewrite sym_matrix_length.
    replace (Nat.max 1 (length D)) with (length D) by lia. reflexivity.
Qed.

Lemma loop_nine M_hat :
  length M_hat = length X_nine ->
  foldM (partition_step dbscan_five X_nine M_hat 4 5)
        [[0; 1; 2; 3; 4]; [5; 6; 7; 8]; []]%nat (init_state (length X_nine))
  = Ok (MergeState 1 [0; 0; 0; 0; 0; 0; 0; 0; 0]%Z
          [true; true; true; true; true; true; true; true; true]).
Proof.
  intros HM. cbn [foldM].
  rewrite partition_step_five by (first [assumption | repeat constructor]).
  match goal with |- bind ?m _ = _ =>
    replace m with (Ok (MergeState 1 [0; 0; 0; 0; 0; -1; -1; -1; -1]%Z
                          [true; true; true; true; true;
                           false; false; false; false]))
      by reflexivity
  end.
  cbn [bind].
  rewrite partition_step_five by (first [assumption | repeat constructor]).
  match goal with |- bind ?m _ = _ =>
    replace m with (Ok (MergeState 1 [0; 0; 0; 0; 0; 0; 0; 0; 0]%Z
                          [true; true; true; true; true;
                           true; true; true; true]))
      by reflexivity
  end.
  cbn [bind].
  rewrite partition_step_five by (first [assumption | repeat constructor]).
  reflexivity.
Qed.

Lemma knn_nine_in_range k : Forall (in_range X_nine) (knn_nine X_nine k).
Proof. repeat constructor. Qed.

Lemma knn_nine_two k : two_neighbours (knn_nine X_nine k).
Proof. repeat constructor. Qed.

Lemma X_nine_wide : wide X_nine.
Proof. repeat constructor. Qed.

(** C2 (the code departs from the claim), on a complete run: five points on
    a line and the four corners of a distant diamond, [k = 3], [mu = 5],
    [eps = 4], [alpha = 0.95].  The line points have correlation dimension
    1 and form the cluster with id 0; the diamond points have correlation
    dimension 2 and DBSCAN marks all four as noise.  The label vector that
    [copac] returns gives all nine points the id 0: the second partition
    wrote the id of the first. *)
Lemma C2_partitions_share_an_id_in_a_run :
  exists M_hat cdist1 cdist2,
    foldM (analyse_step eigh_diag X_nine (ncols X_nine) (95 / 100))
          (enumerate (knn_nine X_nine 3)) (repeat O (length X_nine), [])
    = Ok ([1; 1; 1; 1; 1; 2; 2; 2; 2]%nat, M_hat) /\
    partitions [1; 1; 1; 1; 1; 2; 2; 2; 2]%nat (ncols X_nine)
    = [[0; 1; 2; 3; 4]; [5; 6; 7; 8]; []]%nat /\
    partition_distance X_nine M_hat [0; 1; 2; 3; 4]%nat = Ok cdist1 /\
    dbscan_five cdist1 4 5 = [0; 0; 0; 0; 0]%Z /\
    partition_distance X_nine M_hat [5; 6; 7; 8]%nat = Ok cdist2 /\
    dbscan_five cdist2 4 5 = [-1; -1; -1; -1]%Z /\
    copac knn_nine eigh_diag dbscan_five X_nine 3 5 4 (95 / 100)
    = Ok [0; 0; 0; 0; 0; 0; 0; 0; 0]%Z.
Proof.
  pose proof (analyse_loop_Ok eigh_diag X_nine (ncols X_nine) X_nine_wide
                (95 / 100) (knn_nine X_nine 3) eq_refl (knn_nine_in_range 3)
                (knn_nine_two 3)) as Hloop.
  rewrite lambda_nine in Hloop.
  set (M_hat := map (M_hat_at eigh_diag X_nine (ncols X_nine) (95 / 100))
                    (knn_nine X_nine 3)) in *.
  assert (HM : length M_hat = length X_nine) by (subst M_hat; now rewrite length_map).
  do 3 eexists.
  split; [exact Hloop|].
  split; [reflexivity|].
  split.
  { apply partition_distance_Ok; [|rewrite HM]; repeat constructor. }
  split.
  { unfold dbscan_five. cbn [length Nat.leb]. now rewrite sym_matrix_length. }
  split.
  { apply partition_distance_Ok; [|rewrite HM]; repeat constructor. }
  split.
  { unfold dbscan_five. cbn [length Nat.leb]. now rewrite sym_matrix_length. }
  unfold copac. change ((length X_nine =? 0) || (ncols X_nine =? 0))%nat with false.
  cbv iota. rewrite Hloop. cbn [bind fst snd].
  replace (partitions [1; 1; 1; 1; 1; 2; 2; 2; 2]%nat (ncols X_nine))
    with [[0; 1; 2; 3; 4]; [5; 6; 7; 8]; []]%nat by reflexivity.
  rewrite loop_nine by exact HM.
  reflexivity.
Qed.

(** ** The neighbourhood without variance (line 125 divides 0 by 0) *)









Section ZeroVariance.
Variable kneighbors : matrix -> Z -> list (list nat).
Variable eigh : matrix -> list R * matrix.
Variable dbscan : matrix -> R -> Z -> list Z.
Variables (X : matrix) (k mu : Z) (eps alpha : R).

Hypothesis X_wide : wide X.
Hypothesis knns_length : length (kneighbors X k) = length X.
Hypothesis knns_in_range : Forall (in_range X) (kneighbors X k).
Hypothesis knns_two : two_neighbours (kneighbors X k).
Hypothesis dbscan_length : forall M eps mu, length (dbscan M eps mu) = length M.
(** The eigenvalues of a zero matrix are zero. *)
Hypothesis eigh_zero :
  forall S, Forall (Forall (eq 0)) S -> Forall (eq 0) (fst (eigh S)).

End ZeroVariance.




(* ================================================================== *)
(** * Further properties of the code *)

(** ** What a call of [copac] can return *)

Lemma analyse_fold_length eigh X d alpha items : forall st st',
  foldM (analyse_step eigh X d alpha) items st = Ok st' ->
  length (fst st') = length (fst st).
Proof.
  induction items as [|i items IH]; intros st st' H; cbn [foldM] in H.
  - now inv H.
  - bind_inv H. apply IH in H. rewrite H.
    unfold analyse_step in E. bind_inv E.
    destruct (fst i <? length (fst st))%nat; [|discriminate].
    inv E. cbn [fst]. apply setitem_length.
Qed.

Lemma partition_step_inv dbscan X M_hat eps mu st D st' :
  partition_step dbscan X M_hat eps mu st D = Ok st' ->
  exists cdist,
    partition_distance X M_hat D = Ok cdist /\
    merge_step st D (dbscan cdist eps mu) = Ok st'.
Proof.
  unfold partition_step. intros H. bind_inv H. eauto.
Qed.

Lemma scatter_in_range {A : Type} (a : list A) idx vals a' :
  scatter a idx vals = Ok a' -> Forall (fun i => (i < length a)%nat) idx.
Proof.
  assert (Ha : forall idx (vals a a' : list A),
             assign a idx vals = Ok a' ->
             Forall (fun i => (i < length a)%nat) idx).
  { clear. induction idx as [|i idx IH]; intros vals a a' H; [constructor|].
    destruct vals as [|v vals]; [discriminate|]. cbn [assign] in H.
    destruct (Nat.ltb_spec i (length a)); [|discriminate].
    constructor; [assumption|].
    apply IH in H. now rewrite setitem_length in H. }
  unfold scatter. destruct (length vals =? length idx)%nat; [apply Ha|].
  destruct vals as [|v [|? ?]]; try discriminate. apply Ha.
Qed.

(** A run of the loop over the partitions keeps the lengths of [y] and
    [used_y], and marks every index that a partition holds. *)
Lemma partition_fold_marks dbscan X M_hat eps mu Ds : forall st st',
  foldM (partition_step dbscan X M_hat eps mu) Ds st = Ok st' ->
  length (y st') = length (y st) /\
  length (used_y st') = length (used_y st) /\
  forall j, In j (concat Ds) \/ nth j (used_y st) false = true ->
            nth j (used_y st') false = true.
Proof.
  induction Ds as [|D Ds IH]; intros st st' H; cbn [foldM] in H.
  - inv H. repeat split; auto. intros j [[]|]; assumption.
  - bind_inv H. apply IH in H. destruct H as (Hy & Hu & Hm).
    apply partition_step_inv in E. destruct E as (cdist & _ & E).
    destruct (merge_step_lengths _ _ _ _ E) as [Hy1 Hu1].
    apply merge_step_inv in E. destruct E as (_ & Hs & _).
    repeat split; [congruence|congruence|].
    intros j Hj. apply Hm. cbn [concat] in Hj. rewrite in_app_iff in Hj.
    destruct (in_dec Nat.eq_dec j D) as [Hin|Hnin].
    + right. apply (scatter_const _ _ _ _ _ j false Hs Hin).
    + rewrite (scatter_other _ _ _ _ _ j false Hs Hnin).
      destruct Hj as [[Hj|Hj]|Hj]; [contradiction|auto|auto].
Qed.

Lemma fails_early_bind {A B : Type} (m : result A) (f : A -> result B) :
  fails_early m -> (forall a, m = Ok a -> fails_early (f a)) ->
  fails_early (bind m f).
Proof. destruct m; simpl; auto. Qed.

Lemma fails_early_foldM {S T : Type} (body : S -> T -> result S) items :
  (forall s i, fails_early (body s i)) ->
  forall s, fails_early (foldM body items s).
Proof.
  intros Hb. induction items as [|i items IH]; intros s; cbn [foldM].
  - exact I.
  - apply fails_early_bind; [apply Hb|]. intros; apply IH.
Qed.

Lemma fails_early_getitem {A : Type} (a : list A) i : fails_early (getitem a i).
Proof. unfold getitem. destruct (nth_error a i); simpl; auto. Qed.

Lemma fails_early_take {A : Type} (a : list A) idx : fails_early (take a idx).
Proof.
  induction idx as [|i idx IH]; cbn [take]; [exact I|].
  apply fails_early_bind; [apply fails_early_getitem|]. intros x _.
  apply fails_early_bind; [exact IH|]. intros; exact I.
Qed.

Lemma fails_early_assign {A : Type} idx : forall (a vals : list A),
  fails_early (assign a idx vals).
Proof.
  induction idx as [|i idx IH]; intros a vals; cbn [assign]; [exact I|].
  destruct vals as [|v vals]; [simpl; auto|].
  destruct (i <? length a)%nat; [apply IH|simpl; auto].
Qed.

Lemma fails_early_scatter {A : Type} (a : list A) idx vals :
  fails_early (scatter a idx vals).
Proof.
  unfold scatter. destruct (length vals =? length idx)%nat;
    [apply fails_early_assign|].
  destruct vals as [|v [|? ?]]; try (simpl; auto; fail).
  apply fails_early_assign.
Qed.

Lemma fails_early_partition_step dbscan X M_hat eps mu st D :
  fails_early (partition_step dbscan X M_hat eps mu st D).
Proof.
  unfold partition_step.
  apply fails_early_bind.
  - unfold partition_distance.
    apply fails_early_bind.
    { apply fails_early_foldM. intros [start cdist_P] i. unfold triu_step.
      repeat (apply fails_early_bind;
              [first [apply fails_early_getitem | apply fails_early_take]
              |intros ? _]).
      exact I. }
    intros sP _. apply fails_early_bind.
    { apply fails_early_foldM. intros cdist_Q i. unfold tril_step.
      repeat (apply fails_early_bind;
              [first [apply fails_early_getitem | apply fails_early_take]
              |intros ? _]).
      exact I. }
    intros cdist_Q _. apply fails_early_bind.
    { unfold block_max. destruct (_ =? _)%nat; simpl; auto. }
    intros cdist _. unfold squareform.
    destruct (length (map sqrt cdist)); [exact I|].
    destruct (_ =? _)%nat; simpl; auto.
  - intros cdist _. unfold merge_step.
    apply fails_early_bind; [apply fails_early_scatter|]. intros y' _.
    apply fails_early_bind; [apply fails_early_scatter|]. intros; exact I.
Qed.

Lemma fails_early_analyse_step eigh X d alpha st Pknn :
  fails_early (analyse_step eigh X d alpha st Pknn).
Proof.
  unfold analyse_step. apply fails_early_bind.
  - unfold analyse_point.
    apply fails_early_bind; [apply fails_early_take|]. intros N_P _.
    destruct (_ || _)%bool; simpl; auto.
  - intros lM _. destruct (_ <? _)%nat; simpl; auto.
Qed.

(** X1: whatever the three providers return and whatever the parameters
    are, a call of [copac] ends in one of three ways: it returns exactly one
    label per row of [X], or it fails with an IndexError or a ValueError.
    The assertion of line 178 never fails: a run that reaches it has marked
    every index. *)
Theorem copac_returns_n_labels_or_fails_early
    (kneighbors : matrix -> Z -> list (list nat))
    (eigh : matrix -> list R * matrix)
    (dbscan : matrix -> R -> Z -> list Z)
    (X : matrix) (k mu : Z) (eps alpha : R) :
  match copac kneighbors eigh dbscan X k mu eps alpha with
  | Ok labels => length labels = length X
  | Err e => e = IndexError \/ e = ValueError
  end.
Proof.
  unfold copac.
  destruct ((length X =? 0) || (ncols X =? 0))%nat; [now right|].
  pose proof (fails_early_foldM (analyse_step eigh X (ncols X) alpha)
                (enumerate (kneighbors X k))
                (fails_early_analyse_step eigh X (ncols X) alpha)
                (repeat O (length X), [])) as Ha.
  destruct (foldM (analyse_step eigh X (ncols X) alpha) _ _)
    as [[lambda_ M_hat]|e] eqn:Ea; [|exact Ha].
  cbn [bind fst snd].
  apply analyse_fold_length in Ea. cbn [fst] in Ea.
  rewrite repeat_length in Ea.
  pose proof (fails_early_foldM (partition_step dbscan X M_hat eps mu)
                (partitions lambda_ (ncols X))
                (fails_early_partition_step dbscan X M_hat eps mu)
                (init_state (length X))) as Hp.
  destruct (foldM (partition_step dbscan X M_hat eps mu) _ _)
    as [st|e] eqn:Ep; [|exact Hp].
  cbn [bind].
  apply partition_fold_marks in Ep. destruct Ep as (Hy & Hu & Hm).
  cbn [init_state y used_y] in Hy, Hu. rewrite repeat_length in Hy, Hu.
  rewrite forallb_nth; [exact Hy|].
  intros j Hj. apply Hm. left.
  rewrite partitions_concat. apply argsort_In. lia.
Qed.

(** ** The labels of a run, in closed form *)

Lemma NoDup_app_disjoint {A : Type} (l1 l2 : list A) a :
  NoDup (l1 ++ l2) -> In a l1 -> ~ In a l2.
Proof.
  induction l1 as [|x l1 IH]; intros H Ha Hin; [contradiction|].
  simpl in H. inv H. destruct Ha as [Ha|Ha].
  - subst x. apply H2. apply in_app_iff. now right.
  - now apply IH.
Qed.

Section ClustersBefore.
Variable dbscan : matrix -> R -> Z -> list Z.
Variables (X : matrix) (M_hat : list matrix) (eps : R) (mu : Z).

Local Abbreviation local := (local_labels dbscan X M_hat eps mu).
Local Abbreviation before := (clusters_before dbscan X M_hat eps mu).

Lemma clusters_before_cons D Ds i :
  before (D :: Ds) (S i) = (new_labels (local D) + before Ds i)%Z.
Proof. reflexivity. Qed.

Lemma clusters_before_mono Ds : forall i j,
  (i <= j)%nat -> (before Ds i <= before Ds j)%Z.
Proof.
  induction Ds as [|D Ds IH]; intros i j Hij.
  - unfold clusters_before. rewrite !firstn_nil. simpl. lia.
  - destruct i as [|i], j as [|j]; try lia.
    + rewrite clusters_before_cons.
      pose proof (IH O j ltac:(lia)) as H.
      pose proof (new_labels_nonneg (local D)).
      unfold clusters_before in *. simpl in *. lia.
    + rewrite !clusters_before_cons.
      pose proof (IH i j ltac:(lia)). lia.
Qed.

Lemma clusters_before_nonneg Ds i : (0 <= before Ds i)%Z.
Proof. apply (clusters_before_mono Ds O i). lia. Qed.

Lemma clusters_before_succ Ds : forall i,
  (i < length Ds)%nat ->
  before Ds (S i) = (before Ds i + new_labels (local (nth i Ds [])))%Z.
Proof.
  induction Ds as [|D Ds IH]; intros i Hi; [simpl in Hi; lia|].
  destruct i as [|i].
  - unfold clusters_before. simpl. lia.
  - rewrite !clusters_before_cons. cbn [nth].
    rewrite IH by (simpl in Hi; lia). lia.
Qed.
End ClustersBefore.

Section LabelsOfARun.
Variable dbscan : matrix -> R -> Z -> list Z.
Variables (X : matrix) (M_hat : list matrix) (eps : R) (mu : Z).

Hypothesis dbscan_length : forall M eps mu, length (dbscan M eps mu) = length M.
Hypothesis M_hat_length : length M_hat = length X.

Local Abbreviation local := (local_labels dbscan X M_hat eps mu).
Local Abbreviation before := (clusters_before dbscan X M_hat eps mu).

Lemma local_labels_length D :
  in_range X D -> D <> [] -> length (local D) = length D.
Proof.
  intros HD Hne. unfold local_labels.
  assert (HDM : Forall (fun p => (p < length M_hat)%nat) D)
    by (rewrite M_hat_length; exact HD).
  rewrite (partition_distance_Ok X M_hat D HD HDM), dbscan_length.
  destruct (Nat.leb_spec (length D) 1) as [Hle|Hgt].
  - destruct D as [|p [|q D]]; simpl in *; [congruence|reflexivity|lia].
  - apply sym_matrix_length.
Qed.

(** The loop over the partitions, solved: position [D[r]] of [y] holds the
    local label of the [r]-th point of [D] plus the number of clusters of
    the partitions before [D]. *)
Lemma partition_loop_closed_form Ds : forall st,
  length (y st) = length X -> length (used_y st) = length X ->
  Forall (in_range X) Ds -> NoDup (concat Ds) ->
  exists st',
    foldM (partition_step dbscan X M_hat eps mu) Ds st = Ok st' /\
    max_label st' = (max_label st + before Ds (length Ds))%Z /\
    (forall i r, (i < length Ds)%nat -> (r < length (nth i Ds []))%nat ->
       nth (nth r (nth i Ds []) O) (y st') (-1)%Z
       = (nth r (local (nth i Ds [])) (-1) + (max_label st + before Ds i))%Z) /\
    (forall j, ~ In j (concat Ds) -> nth j (y st') (-1)%Z = nth j (y st) (-1)%Z).
Proof.
  induction Ds as [|D Ds IH]; intros st Hy Hu HDs Hnd.
  - exists st. cbn [foldM]. repeat split; auto.
    + unfold clusters_before. simpl. lia.
    + intros i r Hi. simpl in Hi. lia.
  - inv HDs. cbn [concat] in Hnd.
    pose proof (NoDup_app_remove_r _ _ Hnd) as HndD.
    pose proof (NoDup_app_remove_l _ _ Hnd) as HndDs.
    destruct (partition_step_Ok dbscan X M_hat eps mu dbscan_length
                M_hat_length st D Hy Hu H1) as (cdist & st1 & Hc & Hs & Hm).
    assert (Hloc : local D = dbscan cdist eps mu)
      by (unfold local_labels; now rewrite Hc).
    destruct (merge_step_lengths _ _ _ _ Hm) as [Hy1 Hu1].
    destruct (IH st1) as (st' & Hst' & Hmax & Hpos & Hout);
      [congruence|congruence|assumption|assumption|].
    pose proof (merge_step_max_label _ _ _ _ Hm) as Hm1.
    exists st'. split; [cbn [foldM]; rewrite Hs; exact Hst'|].
    split; [|split].
    + rewrite Hmax, Hm1. cbn [length]. rewrite clusters_before_cons, Hloc. lia.
    + intros [|i] r Hi Hr; cbn [nth] in *.
      * rewrite Hout.
        2:{ apply (NoDup_app_disjoint D _ _ Hnd). now apply nth_In. }
        assert (Hne : D <> []) by (intros ->; simpl in Hr; lia).
        rewrite (merge_step_writes _ _ _ _ r Hm HndD); try assumption.
        -- rewrite Hloc. unfold clusters_before. simpl. lia.
        -- rewrite <- Hloc. now apply local_labels_length.
      * rewrite Hpos by (simpl in Hi; lia || assumption).
        rewrite clusters_before_cons, Hm1, Hloc. lia.
    + intros j Hj. cbn [concat] in Hj. rewrite in_app_iff in Hj.
      rewrite Hout by tauto.
      apply merge_step_inv in Hm. destruct Hm as (Hsy & _ & _).
      apply (scatter_other _ _ _ _ _ j (-1)%Z Hsy). tauto.
Qed.
End LabelsOfARun.

Lemma concat_position {A : Type} (Ds : list (list A)) (a : A) (d : A) :
  In a (concat Ds) ->
  exists i r, (i < length Ds)%nat /\ (r < length (nth i Ds []))%nat /\
              nth r (nth i Ds []) d = a.
Proof.
  induction Ds as [|D Ds IH]; intros H; [contradiction|].
  cbn [concat] in H. apply in_app_iff in H. destruct H as [H|H].
  - destruct (In_nth _ _ d H) as (r & Hr & Hn).
    exists O, r. simpl. repeat split; [lia|assumption|assumption].
  - destruct (IH H) as (i & r & Hi & Hr & Hn).
    exists (S i), r. simpl. repeat split; [lia|assumption|assumption].
Qed.

(** X2: the label vector of a run in closed form.  On data of at least two
    features and with providers that return well-shaped results, [copac]
    returns, for the [r]-th point of the [i]-th partition, the label that
    DBSCAN gave that point inside its partition plus the number of clusters
    that DBSCAN found in the partitions before it; noise ([-1]) is shifted
    like every other label. *)
Theorem copac_labels_in_closed_form
    (kneighbors : matrix -> Z -> list (list nat))
    (eigh : matrix -> list R * matrix)
    (dbscan : matrix -> R -> Z -> list Z)
    (X : matrix) (k mu : Z) (eps alpha : R) :
  (0 < length X)%nat -> wide X ->
  length (kneighbors X k) = length X ->
  Forall (in_range X) (kneighbors X k) ->
  two_neighbours (kneighbors X k) ->
  (forall M eps mu, length (dbscan M eps mu) = length M) ->
  exists lambda_ M_hat labels,
    foldM (analyse_step eigh X (ncols X) alpha) (enumerate (kneighbors X k))
          (repeat O (length X), []) = Ok (lambda_, M_hat) /\
    copac kneighbors eigh dbscan X k mu eps alpha = Ok labels /\
    forall i r,
      (i < length (partitions lambda_ (ncols X)))%nat ->
      (r < length (nth i (partitions lambda_ (ncols X)) []))%nat ->
      nth (nth r (nth i (partitions lambda_ (ncols X)) []) O) labels (-1)%Z
      = (nth r (local_labels dbscan X M_hat eps mu
                  (nth i (partitions lambda_ (ncols X)) [])) (-1)
         + clusters_before dbscan X M_hat eps mu
             (partitions lambda_ (ncols X)) i)%Z.
Proof.
  intros Hn Hw Hk Hr H2 Hd.
  destruct (copac_run kneighbors eigh dbscan X k mu eps alpha Hn Hw Hk Hr H2 Hd)
    as (lambda_ & M_hat & st & Ha & Hl & HM & Hst & _ & _ & _ & Hc).
  assert (HDs : Forall (in_range X) (partitions lambda_ (ncols X))).
  { apply Forall_forall. intros D HD. apply Forall_forall. intros p Hp.
    assert (Hin : In p (concat (partitions lambda_ (ncols X))))
      by (apply in_concat; eauto).
    rewrite partitions_concat in Hin. apply argsort_In in Hin. lia. }
  assert (Hnd : NoDup (concat (partitions lambda_ (ncols X)))).
  { rewrite partitions_concat.
    apply (Permutation_NoDup (Permutation_sym (argsort_perm lambda_))).
    apply seq_NoDup. }
  destruct (partition_loop_closed_form dbscan X M_hat eps mu Hd HM
              (partitions lambda_ (ncols X)) (init_state (length X)))
    as (st' & Hst' & _ & Hpos & _);
    [apply repeat_length|apply repeat_length|exact HDs|exact Hnd|].
  rewrite Hst in Hst'. inv Hst'.
  exists lambda_, M_hat, (y st'). split; [exact Ha|]. split; [exact Hc|].
  intros i r Hi Hri. rewrite (Hpos i r Hi Hri). cbn [init_state max_label].
  lia.
Qed.

(** X3: the range of the labels of a run.  When DBSCAN numbers the clusters
    of a partition 0, 1, ... and marks noise by [-1], no label that [copac]
    returns is below [-1], and every label is below the number of clusters
    counted over all the partitions. *)
Theorem copac_labels_are_in_range
    (kneighbors : matrix -> Z -> list (list nat))
    (eigh : matrix -> list R * matrix)
    (dbscan : matrix -> R -> Z -> list Z)
    (X : matrix) (k mu : Z) (eps alpha : R) :
  (0 < length X)%nat -> wide X ->
  length (kneighbors X k) = length X ->
  Forall (in_range X) (kneighbors X k) ->
  two_neighbours (kneighbors X k) ->
  (forall M eps mu, length (dbscan M eps mu) = length M) ->
  (forall M eps mu,
      Forall (fun l => (-1 <= l < new_labels (dbscan M eps mu))%Z)
             (dbscan M eps mu)) ->
  exists lambda_ M_hat labels,
    foldM (analyse_step eigh X (ncols X) alpha) (enumerate (kneighbors X k))
          (repeat O (length X), []) = Ok (lambda_, M_hat) /\
    copac kneighbors eigh dbscan X k mu eps alpha = Ok labels /\
    length labels = length X /\
    Forall (fun l =>
              (-1 <= l < clusters_before dbscan X M_hat eps mu
                           (partitions lambda_ (ncols X))
                           (length (partitions lambda_ (ncols X))))%Z)
           labels.
Proof.
  intros Hn Hw Hk Hr H2 Hd Hrange.
  destruct (copac_run kneighbors eigh dbscan X k mu eps alpha Hn Hw Hk Hr H2 Hd)
    as (lambda_ & M_hat & st & Ha & Hl & HM & Hst & Hy & _ & _ & Hc).
  assert (HDs : Forall (in_range X) (partitions lambda_ (ncols X))).
  { apply Forall_forall. intros D HD. apply Forall_forall. intros p Hp.
    assert (Hin : In p (concat (partitions lambda_ (ncols X))))
      by (apply in_concat; eauto).
    rewrite partitions_concat in Hin. apply argsort_In in Hin. lia. }
  assert (Hnd : NoDup (concat (partitions lambda_ (ncols X)))).
  { rewrite partitions_concat.
    apply (Permutation_NoDup (Permutation_sym (argsort_perm lambda_))).
    apply seq_NoDup. }
  destruct (partition_loop_closed_form dbscan X M_hat eps mu Hd HM
              (partitions lambda_ (ncols X)) (init_state (length X)))
    as (st' & Hst' & _ & Hpos & _);
    [apply repeat_length|apply repeat_length|exact HDs|exact Hnd|].
  rewrite Hst in Hst'. inv Hst'.
  exists lambda_, M_hat, (y st'). split; [exact Ha|]. split; [exact Hc|].
  split; [exact Hy|].
  apply Forall_forall. intros l Hin.
  destruct (In_nth _ _ (-1)%Z Hin) as (j & Hj & <-).
  assert (Hjin : In j (concat (partitions lambda_ (ncols X)))).
  { rewrite partitions_concat. apply argsort_In. lia. }
  destruct (concat_position _ j O Hjin) as (i & r & Hi & Hri & <-).
  rewrite (Hpos i r Hi Hri). cbn [init_state max_label].
  set (D := nth i (partitions lambda_ (ncols X)) []) in *.
  assert (HD : in_range X D).
  { apply (proj1 (Forall_forall _ _) HDs). now apply nth_In. }
  assert (Hne : D <> []) by (intros E; rewrite E in Hri; simpl in Hri; lia).
  pose proof (local_labels_length dbscan X M_hat eps mu Hd HM D HD Hne) as Hlen.
  assert (Hloc : (-1 <= nth r (local_labels dbscan X M_hat eps mu D) (-1)
                  < new_labels (local_labels dbscan X M_hat eps mu D))%Z).
  { unfold local_labels in *.
    destruct (partition_distance X M_hat D) as [cdist|e];
      [|simpl in Hlen; lia].
    apply (proj1 (Forall_forall _ _) (Hrange cdist eps mu)).
    apply nth_In. lia. }
  pose proof (clusters_before_nonneg dbscan X M_hat eps mu
                (partitions lambda_ (ncols X)) i) as H0.
  pose proof (clusters_before_mono dbscan X M_hat eps mu
                (partitions lambda_ (ncols X)) (S i)
                (length (partitions lambda_ (ncols X))) ltac:(lia)) as Hmono.
  pose proof (clusters_before_succ dbscan X M_hat eps mu
                (partitions lambda_ (ncols X)) i Hi) as HS.
  fold D in HS.
  lia.
Qed.

Lemma X_nine_nonempty : (0 < length X_nine)%nat.
Proof. simpl. lia. Qed.

Lemma dbscan_five_length M eps mu : length (dbscan_five M eps mu) = length M.
Proof. unfold dbscan_five. destruct (5 <=? length M)%nat; apply repeat_length. Qed.

Lemma new_labels_repeat_0 n : (0 < n)%nat -> new_labels (repeat 0%Z n) = 1%Z.
Proof.
  intros Hn. unfold new_labels.
  assert (H : nodup Z.eq_dec (filter (fun l => (0 <=? l)%Z) (repeat 0%Z n)) = [0%Z]).
  { destruct n as [|n]; [lia|]. clear Hn.
    induction n as [|n IH]; [reflexivity|].
    change (repeat 0%Z (S (S n))) with (0%Z :: repeat 0%Z (S n)).
    cbn [filter]. change (0 <=? 0)%Z with true. cbv iota.
    cbn [nodup]. destruct (in_dec Z.eq_dec 0%Z _) as [_|Hn]; [exact IH|].
    exfalso. apply Hn. simpl. now left. }
  now rewrite H.
Qed.

Lemma dbscan_five_range M eps mu :
  Forall (fun l => (-1 <= l < new_labels (dbscan_five M eps mu))%Z)
         (dbscan_five M eps mu).
Proof.
  unfold dbscan_five. destruct (Nat.leb_spec 5 (length M)) as [H|H].
  - rewrite new_labels_repeat_0 by lia.
    apply Forall_forall. intros l Hl. apply repeat_spec in Hl. lia.
  - rewrite new_labels_noise.
    apply Forall_forall. intros l Hl. apply repeat_spec in Hl. lia.
Qed.

Lemma copac_labels_in_closed_form_witness :
  ((0 < length X_nine)%nat /\ wide X_nine /\
   length (knn_nine X_nine 3) = length X_nine /\
   Forall (in_range X_nine) (knn_nine X_nine 3) /\
   two_neighbours (knn_nine X_nine 3) /\
   (forall M eps mu, length (dbscan_five M eps mu) = length M)) /\
  exists lambda_ M_hat labels,
    foldM (analyse_step eigh_diag X_nine (ncols X_nine) (95 / 100))
          (enumerate (knn_nine X_nine 3))
          (repeat O (length X_nine), []) = Ok (lambda_, M_hat) /\
    copac knn_nine eigh_diag dbscan_five X_nine 3 5 4 (95 / 100) = Ok labels /\
    forall i r,
      (i < length (partitions lambda_ (ncols X_nine)))%nat ->
      (r < length (nth i (partitions lambda_ (ncols X_nine)) []))%nat ->
      nth (nth r (nth i (partitions lambda_ (ncols X_nine)) []) O) labels (-1)%Z
      = (nth r (local_labels dbscan_five X_nine M_hat 4 5
                  (nth i (partitions lambda_ (ncols X_nine)) [])) (-1)
         + clusters_before dbscan_five X_nine M_hat 4 5
             (partitions lambda_ (ncols X_nine)) i)%Z.
Proof.
  exact (conj (conj X_nine_nonempty
                 (conj X_nine_wide
                    (conj eq_refl
                       (conj (knn_nine_in_range 3)
                          (conj (knn_nine_two 3) dbscan_five_length)))))
              (copac_labels_in_closed_form
                 knn_nine eigh_diag dbscan_five X_nine 3 5 4 (95 / 100)
                 X_nine_nonempty X_nine_wide eq_refl (knn_nine_in_range 3)
                 (knn_nine_two 3) dbscan_five_length)).
Defined.

Lemma copac_labels_are_in_range_witness :
  ((0 < length X_nine)%nat /\ wide X_nine /\
   length (knn_nine X_nine 3) = length X_nine /\
   Forall (in_range X_nine) (knn_nine X_nine 3) /\
   two_neighbours (knn_nine X_nine 3) /\
   (forall M eps mu, length (dbscan_five M eps mu) = length M) /\
   (forall M eps mu,
       Forall (fun l => (-1 <= l < new_labels (dbscan_five M eps mu))%Z)
              (dbscan_five M eps mu))) /\
  exists lambda_ M_hat labels,
    foldM (analyse_step eigh_diag X_nine (ncols X_nine) (95 / 100))
          (enumerate (knn_nine X_nine 3))
          (repeat O (length X_nine), []) = Ok (lambda_, M_hat) /\
    copac knn_nine eigh_diag dbscan_five X_nine 3 5 4 (95 / 100) = Ok labels /\
    length labels = length X_nine /\
    Forall (fun l =>
              (-1 <= l < clusters_before dbscan_five X_nine M_hat 4 5
                           (partitions lambda_ (ncols X_nine))
                           (length (partitions lambda_ (ncols X_nine))))%Z)
           labels.
Proof.
  exact (conj (conj X_nine_nonempty
                 (conj X_nine_wide
                    (conj eq_refl
                       (conj (knn_nine_in_range 3)
                          (conj (knn_nine_two 3)
                             (conj dbscan_five_length dbscan_five_range))))))
              (copac_labels_are_in_range
                 knn_nine eigh_diag dbscan_five X_nine 3 5 4 (95 / 100)
                 X_nine_nonempty X_nine_wide eq_refl (knn_nine_in_range 3)
                 (knn_nine_two 3) dbscan_five_length dbscan_five_range)).
Defined.

(** ** The correlation dimension at the ends of its range *)

(** The linear scan, for any threshold. *)
Lemma local_corr_dim_scan (E : list R) (alpha : R) :
  Forall (fun e => 0 <= e) E -> 0 < vsum E ->
  local_corr_dim E alpha
  = S (first_reach (explained_variance (rev (np_sort E))) alpha).
Proof.
  intros HE Hs.
  pose proof (sorted_desc_perm E) as Hperm.
  set (E' := rev (np_sort E)) in *.
  assert (HE' : Forall (fun e => 0 <= e) E')
    by (eapply Permutation_Forall; [symmetry; exact Hperm|exact HE]).
  assert (Hs' : 0 < vsum E') by (rewrite (vsum_perm _ _ Hperm); exact Hs).
  unfold local_corr_dim. fold E'. f_equal.
  rewrite explanation_portion_finite by lra.
  rewrite searchsorted_Fin.
  apply searchsorted_first_reach. intros i j Hij.
  rewrite explained_variance_length in Hij.
  now apply explained_variance_ascending.
Qed.

Lemma local_corr_dim_bounds (E : list R) (alpha : R) :
  (1 <= local_corr_dim E alpha <= length E + 1)%nat.
Proof.
  pose proof (sorted_desc_perm E) as Hperm.
  assert (Hlen : length (rev (np_sort E)) = length E)
    by (now apply Permutation_length).
  unfold local_corr_dim, searchsorted.
  pose proof (binsearch_left_bounds npfloat np_less
                (length (explanation_portion (rev (np_sort E))))
                (explanation_portion (rev (np_sort E))) (Fin alpha) 0
                (length (explanation_portion (rev (np_sort E))))
                ltac:(lia)) as Hb.
  rewrite explanation_portion_length, Hlen in *. lia.
Qed.

(** X4: the correlation dimension of line 127 always lies between 1 and one
    more than the number of eigenvalues, whatever the eigenvalues and the
    threshold are.  For non-negative eigenvalues with a positive total the
    two ends are reached by thresholds outside (0, 1]: [alpha <= 0] gives
    dimension 1, and [alpha > 1], which the explained variance never
    reaches, gives [d + 1]. *)
Theorem local_corr_dim_range_and_extremes (E : list R) (alpha : R) :
  (1 <= local_corr_dim E alpha <= length E + 1)%nat /\
  (Forall (fun e => 0 <= e) E -> 0 < vsum E -> alpha <= 0 ->
   local_corr_dim E alpha = 1%nat) /\
  (Forall (fun e => 0 <= e) E -> 0 < vsum E -> 1 < alpha ->
   local_corr_dim E alpha = (length E + 1)%nat).
Proof.
  pose proof (sorted_desc_perm E) as Hperm.
  assert (Hlen : length (rev (np_sort E)) = length E)
    by (now apply Permutation_length).
  split; [|split].
  - apply local_corr_dim_bounds.
  - intros HE Hs Ha. rewrite local_corr_dim_scan by assumption. f_equal.
    set (E' := rev (np_sort E)) in *.
    assert (HE' : Forall (fun e => 0 <= e) E')
      by (eapply Permutation_Forall; [symmetry; exact Hperm|exact HE]).
    assert (Hs' : 0 < vsum E') by (rewrite (vsum_perm _ _ Hperm); exact Hs).
    assert (Hpos : (0 < length E')%nat).
    { destruct E'; [simpl in Hs'; lra|simpl; lia]. }
    destruct (first_reach_spec (explained_variance E') alpha) as (_ & F2 & _).
    destruct (first_reach (explained_variance E') alpha) as [|f];
      [reflexivity|exfalso].
    specialize (F2 O ltac:(lia)).
    rewrite explained_variance_nth in F2 by assumption.
    pose proof (cumsum_from_ge 0 E' O HE' Hpos) as Hc.
    fold (cumsum E') in Hc.
    assert (0 <= nth 0 (cumsum E') 0 / vsum E').
    { apply Rmult_le_pos; [exact Hc|]. left. now apply Rinv_0_lt_compat. }
    lra.
  - intros HE Hs Ha. rewrite local_corr_dim_scan by assumption.
    rewrite Nat.add_1_r. f_equal.
    set (E' := rev (np_sort E)) in *.
    assert (HE' : Forall (fun e => 0 <= e) E')
      by (eapply Permutation_Forall; [symmetry; exact Hperm|exact HE]).
    assert (Hs' : 0 < vsum E') by (rewrite (vsum_perm _ _ Hperm); exact Hs).
    assert (Hne : E' <> []).
    { intros Hnil. rewrite Hnil in Hs'. simpl in Hs'. lra. }
    assert (Hpos : (0 < length E')%nat).
    { destruct E'; [contradiction|simpl; lia]. }
    destruct (first_reach_spec (explained_variance E') alpha) as (F1 & _ & F3).
    rewrite explained_variance_length in F1, F3.
    rewrite <- Hlen.
    destruct (Nat.eq_dec (first_reach (explained_variance E') alpha)
                         (length E')) as [|Hneq]; [assumption|exfalso].
    specialize (F3 ltac:(lia)).
    pose proof (explained_variance_ascending E'
                  (first_reach (explained_variance E') alpha)
                  (length E' - 1) HE' Hs' ltac:(lia)) as Hasc.
    rewrite explained_variance_last in Hasc by assumption. lra.
Qed.

Lemma local_corr_dim_range_and_extremes_witness :
  (Forall (fun e => 0 <= e) [1; 3] /\ 0 < vsum [1; 3] /\ -1 <= 0 /\ 1 < 2) /\
  local_corr_dim [1; 3] (-1) = 1%nat /\
  local_corr_dim [1; 3] 2 = (length [1; 3] + 1)%nat.
Proof.
  assert (HE : Forall (fun e => 0 <= e) [1; 3]) by (repeat constructor; lra).
  assert (Hs : 0 < vsum [1; 3]) by (simpl; lra).
  assert (H1 : -1 <= 0) by lra.
  assert (H2 : 1 < 2) by lra.
  exact (conj (conj HE (conj Hs (conj H1 H2)))
           (conj (proj1 (proj2 (local_corr_dim_range_and_extremes [1; 3] (-1)))
                    HE Hs H1)
                 (proj2 (proj2 (local_corr_dim_range_and_extremes [1; 3] 2))
                    HE Hs H2))).
Defined.

(** ** The histogram's closed last bin (line 135) *)

Close Scope R_scope.

Section SlicesOfASortedList.
Variable key : nat -> nat.

(** The slice between the cut points of two keys [s <= t] holds the
    elements whose key is above [s] and at most [t]. *)
Lemma sorted_slice_between s t l :
  s <= t -> StronglySorted (by_key key) l ->
  let c0 := length (filter (fun p => key p <=? s) l) in
  let c1 := length (filter (fun p => key p <=? t) l) in
  firstn (c1 - c0) (skipn c0 l)
  = filter (fun p => (s <? key p) && (key p <=? t)) l.
Proof.
  intros Hst Hs c0 c1.
  destruct (sorted_prefix key s l Hs) as [_ Hskip]. fold c0 in Hskip.
  rewrite Hskip.
  pose proof (filter_sorted key (fun p => s <? key p) l Hs) as Hs2.
  destruct (sorted_prefix key t _ Hs2) as [Hfirst _].
  rewrite filter_filter in Hfirst.
  assert (Hc : c1 - c0
               = length (filter (fun x => (s <? key x) && (key x <=? t)) l)).
  { subst c0 c1.
    rewrite (filter_length_split (fun p => key p <=? s)
               (fun p => key p <=? t)).
    2:{ intros x _ Hx. apply Nat.leb_le in Hx. apply Nat.leb_le. lia. }
    replace (filter (fun x => negb (key x <=? s) && (key x <=? t)) l)
      with (filter (fun x => (s <? key x) && (key x <=? t)) l).
    - lia.
    - apply filter_ext. intros x.
      destruct (Nat.leb_spec (key x) s), (Nat.ltb_spec s (key x));
        simpl; try reflexivity; lia. }
  rewrite Hc. exact Hfirst.
Qed.

Lemma count_between s t (l : list nat) :
  s <= t ->
  length (filter (fun p => key p <=? t) l)
  = length (filter (fun p => key p <=? s) l)
    + length (filter (fun p => (s <? key p) && (key p <=? t)) l).
Proof.
  intros Hst. induction l as [|x l IH]; simpl; [reflexivity|].
  destruct (Nat.leb_spec (key x) t), (Nat.leb_spec (key x) s),
    (Nat.ltb_spec s (key x)); simpl; lia.
Qed.
End SlicesOfASortedList.

Section ClosedLastBin.
Variables (lambda_ : list nat) (d : nat).

Local Abbreviation key := (fun p => nth p lambda_ 0).
Local Abbreviation upto := (bins_end d).

Lemma in_bin_between s v :
  s < d -> in_bin d s v = (upto s <? v) && (v <=? upto (s + 1)).
Proof.
  intros Hs. unfold in_bin, bins_end.
  destruct (Nat.eqb_spec s d); [lia|].
  destruct (Nat.eqb_spec (s + 1) d), (Nat.leb_spec (s + 1) v),
    (Nat.ltb_spec v (s + 2)), (Nat.eqb_spec v (d + 1)), (Nat.ltb_spec s v);
    simpl; try lia;
    repeat match goal with
           | |- context [?a <=? ?b] => destruct (Nat.leb_spec a b)
           end; try reflexivity; lia.
Qed.

Lemma split_from_bins m : forall s,
  s + m <= d ->
  split_from (argsort lambda_)
    (length (filter (fun p => key p <=? upto s) (argsort lambda_)))
    (cumsum_nat_from
       (length (filter (fun p => key p <=? upto s) (argsort lambda_)))
       (map (fun i => length (filter (in_bin d i)
                                     (map key (argsort lambda_))))
            (seq s m)))
  = map (fun i => filter (fun p => in_bin d i (key p)) (argsort lambda_))
        (seq s m)
    ++ [filter (fun p => upto (s + m) <? key p) (argsort lambda_)].
Proof.
  induction m as [|m IH]; intros s Hsm; simpl.
  - rewrite Nat.add_0_r.
    now destruct (sorted_prefix key (upto s) _ (argsort_sorted lambda_))
      as [_ ->].
  - assert (Hle : upto s <= upto (s + 1)).
    { unfold bins_end. destruct (Nat.eqb_spec s d), (Nat.eqb_spec (s + 1) d); lia. }
    assert (Hbin : length (filter (in_bin d s) (map key (argsort lambda_)))
                   = length (filter (fun p => (upto s <? key p)
                                              && (key p <=? upto (s + 1)))
                                    (argsort lambda_))).
    { rewrite filter_map_length. f_equal. apply filter_ext. intros p.
      apply in_bin_between. lia. }
    rewrite Hbin, <- (count_between key (upto s) (upto (s + 1)) _ Hle).
    rewrite (sorted_slice_between key (upto s) (upto (s + 1)) _ Hle
               (argsort_sorted lambda_)).
    f_equal.
    + apply filter_ext. intros p. symmetry. apply in_bin_between. lia.
    + replace (s + S m) with (S s + m) by lia.
      replace (s + 1) with (S s) by lia.
      apply IH. lia.
Qed.

Hypothesis d_positive : 1 <= d.
Hypothesis lambda_range : Forall (fun v => 1 <= v <= d + 1) lambda_.

Lemma key_range_closed p : p < length lambda_ -> 1 <= key p <= d + 1.
Proof.
  intros Hp. rewrite Forall_forall in lambda_range.
  apply lambda_range. now apply nth_In.
Qed.

Lemma partitions_bins :
  partitions lambda_ d
  = map (fun i => filter (fun p => in_bin d i (key p)) (argsort lambda_))
        (seq 0 d)
    ++ [[]].
Proof.
  unfold partitions, np_split, cumsum_nat, histogram.
  assert (H0 : filter (fun p => key p <=? upto 0) (argsort lambda_) = []).
  { apply filter_nil. intros p Hp. apply argsort_In in Hp.
    pose proof (key_range_closed p Hp). apply Nat.leb_gt.
    unfold bins_end. destruct (Nat.eqb_spec 0 d); lia. }
  assert (Hd : filter (fun p => upto (0 + d) <? key p) (argsort lambda_) = []).
  { apply filter_nil. intros p Hp. apply argsort_In in Hp.
    pose proof (key_range_closed p Hp). apply Nat.ltb_ge.
    unfold bins_end. rewrite Nat.eqb_refl. lia. }
  pose proof (split_from_bins d 0 ltac:(lia)) as H.
  cbv beta in *. rewrite H0, Hd in H. exact H.
Qed.
End ClosedLastBin.

(** X5: the pieces of line 136 when the last bin of the histogram is closed.
    For correlation dimensions between 1 and [d + 1], [np.split] returns
    [d + 1] pieces.  The piece at position [i < d - 1] holds exactly the
    indices with dimension [i + 1]; the piece at position [d - 1] holds the
    indices with dimension [d] and, because the last bin [[d, d + 1]] is
    closed, those with dimension [d + 1] too; the piece after the last cut
    is empty. *)
Theorem partitions_with_closed_last_bin (lambda_ : list nat) (d : nat) :
  1 <= d -> Forall (fun v => 1 <= v <= d + 1) lambda_ ->
  length (partitions lambda_ d) = d + 1 /\
  nth d (partitions lambda_ d) [] = [] /\
  (forall i p, i + 1 < d ->
     (In p (nth i (partitions lambda_ d) [])
      <-> p < length lambda_ /\ nth p lambda_ 0 = i + 1)) /\
  (forall p,
     In p (nth (d - 1) (partitions lambda_ d) [])
     <-> p < length lambda_ /\ d <= nth p lambda_ 0).
Proof.
  intros Hd Hr.
  pose proof (partitions_bins lambda_ d Hd Hr) as Hg.
  split; [apply partitions_length|]. split; [|split].
  - rewrite Hg, app_nth2; rewrite length_map, length_seq; [|lia].
    now rewrite Nat.sub_diag.
  - intros i p Hi. rewrite Hg.
    rewrite app_nth1 by (rewrite length_map, length_seq; lia).
    rewrite (nth_indep _ []
               ((fun i => filter (fun p => in_bin d i (nth p lambda_ 0))
                                 (argsort lambda_)) O))
      by (rewrite length_map, length_seq; lia).
    rewrite (map_nth (fun i => filter (fun p => in_bin d i (nth p lambda_ 0))
                                      (argsort lambda_))).
    rewrite seq_nth by lia. rewrite filter_In, argsort_In. simpl.
    unfold in_bin.
    destruct (Nat.leb_spec (i + 1) (nth p lambda_ 0)),
      (Nat.ltb_spec (nth p lambda_ 0) (i + 2)), (Nat.eqb_spec (i + 1) d);
      simpl; split; intros [? ?]; split; try assumption; try lia;
      discriminate.
  - intros p. rewrite Hg.
    rewrite app_nth1 by (rewrite length_map, length_seq; lia).
    rewrite (nth_indep _ []
               ((fun i => filter (fun p => in_bin d i (nth p lambda_ 0))
                                 (argsort lambda_)) O))
      by (rewrite length_map, length_seq; lia).
    rewrite (map_nth (fun i => filter (fun p => in_bin d i (nth p lambda_ 0))
                                      (argsort lambda_))).
    rewrite seq_nth by lia. rewrite filter_In, argsort_In. simpl.
    split.
    + intros [Hp Hb]. split; [assumption|].
      unfold in_bin in Hb. apply andb_true_iff in Hb.
      destruct Hb as [Hb _]. apply Nat.leb_le in Hb. lia.
    + intros [Hp Hk]. split; [assumption|].
      pose proof (proj1 (Forall_forall _ _) Hr (nth p lambda_ 0)
                    (nth_In _ _ Hp)) as Hv. cbv beta in Hv.
      unfold in_bin.
      destruct (Nat.leb_spec (d - 1 + 1) (nth p lambda_ 0)); [|lia].
      destruct (Nat.ltb_spec (nth p lambda_ 0) (d - 1 + 2)); [reflexivity|].
      destruct (Nat.eqb_spec (d - 1 + 1) d); [|lia].
      destruct (Nat.eqb_spec (nth p lambda_ 0) (d + 1)); [reflexivity|lia].
Qed.

Lemma partitions_with_closed_last_bin_witness :
  (1 <= 2 /\ Forall (fun v => 1 <= v <= 2 + 1) [3; 1; 2; 3]) /\
  length (partitions [3; 1; 2; 3] 2) = 2 + 1 /\
  nth 2 (partitions [3; 1; 2; 3] 2) [] = [] /\
  (forall i p, i + 1 < 2 ->
     (In p (nth i (partitions [3; 1; 2; 3] 2) [])
      <-> p < length [3; 1; 2; 3] /\ nth p [3; 1; 2; 3] 0 = i + 1)) /\
  (forall p,
     In p (nth (2 - 1) (partitions [3; 1; 2; 3] 2) [])
     <-> p < length [3; 1; 2; 3] /\ 2 <= nth p [3; 1; 2; 3] 0).
Proof.
  assert (Hd : 1 <= 2) by lia.
  assert (Hr : Forall (fun v => 1 <= v <= 2 + 1) [3; 1; 2; 3])
    by (repeat constructor; lia).
  exact (conj (conj Hd Hr)
              (partitions_with_closed_last_bin [3; 1; 2; 3] 2 Hd Hr)).
Defined.

Open Scope R_scope.


(** ** Partitions of fewer than two points (lines 141-177) *)

(** X6: a partition without points and a partition of one point both hand
    DBSCAN the same 1x1 zero matrix: neither loop of lines 146-157 runs, and
    [squareform] turns the empty vector into [[0]].  For the empty
    partition the merge changes neither [y] nor [used_y], but [max_label]
    still grows by the number of clusters that DBSCAN reports for that
    matrix. *)
Theorem partitions_of_fewer_than_two_points
    (dbscan : matrix -> R -> Z -> list Z)
    (X : matrix) (M_hat : list matrix) (eps : R) (mu : Z) (st : merge_state) :
  partition_distance X M_hat [] = Ok [[0]] /\
  (forall p, partition_distance X M_hat [p] = Ok [[0]]) /\
  (length (dbscan [[0]] eps mu) = 1%nat ->
   partition_step dbscan X M_hat eps mu st []
   = Ok (MergeState (max_label st + new_labels (dbscan [[0]] eps mu))
                    (y st) (used_y st))).
Proof.
  split; [reflexivity|]. split; [reflexivity|].
  intros Hlen. unfold partition_step.
  change (partition_distance X M_hat []) with (@Ok matrix [[0]]).
  cbn [bind]. unfold merge_step, scatter, y_D.
  rewrite length_map, Hlen. cbn [length Nat.eqb].
  destruct (dbscan [[0]] eps mu) as [|l [|? ?]]; try discriminate.
  reflexivity.
Qed.

Lemma partitions_of_fewer_than_two_points_witness :
  length (dbscan_noise [[0]] (1 / 2) 5) = 1%nat /\
  partition_step dbscan_noise X_example M_hat_example (1 / 2) 5 (init_state 3) []
  = Ok (MergeState
          (max_label (init_state 3) + new_labels (dbscan_noise [[0]] (1 / 2) 5))
          (y (init_state 3)) (used_y (init_state 3))).
Proof.
  exact (conj eq_refl
           (proj2 (proj2 (partitions_of_fewer_than_two_points
                            dbscan_noise X_example M_hat_example (1 / 2) 5
                            (init_state 3)))
              eq_refl)).
Defined.

(** ** Points of full correlation dimension (lines 130-131) *)

(** [E_hat] is 0 at the first [lambda_P] positions and 1 after them. *)
Lemma E_hat_nth d lambda_P k :
  (k < d)%nat ->
  nth k (E_hat d lambda_P) 0 = if (lambda_P <=? k)%nat then 1 else 0.
Proof.
  intros Hk. unfold E_hat.
  rewrite (nth_indep _ 0 ((fun i => if (lambda_P <? i)%nat then 1 else 0) O))
    by now rewrite length_map, length_seq.
  rewrite (map_nth (fun i => if (lambda_P <? i)%nat then 1 else 0)).
  rewrite seq_nth by assumption.
  destruct (Nat.ltb_spec lambda_P (1 + k)), (Nat.leb_spec lambda_P k);
    try reflexivity; lia.
Qed.

Lemma E_hat_full d lambda_P k :
  (d <= lambda_P)%nat -> nth k (E_hat d lambda_P) 0 = 0.
Proof.
  intros Hd. destruct (Nat.lt_ge_cases k d) as [Hk|Hk].
  - rewrite E_hat_nth by assumption.
    destruct (Nat.leb_spec lambda_P k); [lia|reflexivity].
  - apply nth_overflow. now rewrite E_hat_length.
Qed.

Lemma cdist1_full V d lambda_P P q :
  square d V -> (d <= lambda_P)%nat -> length P = d -> length q = d ->
  cdist1 P (M_hat_of V d lambda_P) q = 0.
Proof.
  intros HV Hd HP Hq.
  rewrite (cdist1_bigsum P _ q d) by (try assumption; now apply M_hat_of_square).
  transitivity (bigsum d (fun _ => 0)); [|apply bigsum_zero].
  apply bigsum_ext. intros j Hj.
  rewrite (bigsum_ext d _ (fun _ => 0)).
  - rewrite bigsum_zero. ring.
  - intros i Hi. rewrite M_hat_of_nth by assumption.
    rewrite (bigsum_ext d _ (fun _ => 0)).
    + rewrite bigsum_zero. ring.
    + intros k _. rewrite E_hat_full by assumption. ring.
Qed.

Lemma sqrt_Rmax_0 : sqrt (Rmax 0 0) = 0.
Proof. rewrite Rmax_left by lra. apply sqrt_0. Qed.

Lemma full_partition_zero (X : matrix) (M_hats : list matrix)
    (D : list nat) (d : nat) :
  Forall (fun r => length r = d) X ->
  Forall (fun p => (p < length X)%nat) D ->
  Forall (fun p => (p < length M_hats)%nat) D ->
  Forall (fun p => exists V lambda_P,
              square d V /\ (d <= lambda_P)%nat /\
              nth p M_hats [] = M_hat_of V d lambda_P) D ->
  exists cdist,
    partition_distance X M_hats D = Ok cdist /\
    length cdist = Nat.max 1 (length D) /\
    forall i j, nth j (nth i cdist []) 0 = 0.
Proof.
  intros HX HDX HDM Hfull.
  eexists. split; [apply partition_distance_Ok; assumption|].
  destruct (Nat.leb_spec (length D) 1) as [Hle|Hgt].
  - split; [cbn [length]; lia|].
    intros [|[|i]] [|[|j]]; reflexivity.
  - split; [rewrite sym_matrix_length; lia|].
    intros i j.
    destruct (Nat.lt_ge_cases i (length D)) as [Hi|Hi];
      [|apply sym_matrix_outside; now left].
    destruct (Nat.lt_ge_cases j (length D)) as [Hj|Hj];
      [|apply sym_matrix_outside; now right].
    assert (Hcd : forall a b, (a < length D)%nat -> (b < length D)%nat ->
                              pair_cdist X M_hats D a b = 0).
    { intros a b Ha Hb. unfold pair_cdist.
      pose proof (proj1 (Forall_forall _ _) Hfull (nth a D O) (nth_In _ _ Ha))
        as (V & l & HV & Hl & ->).
      pose proof (proj1 (Forall_forall _ _) HX) as HX'.
      pose proof (proj1 (Forall_forall _ _) HDX) as HD'.
      apply (cdist1_full V d); try assumption;
        apply HX', nth_In, HD', nth_In; assumption. }
    rewrite sym_matrix_nth by assumption.
    destruct (i =? j)%nat; [reflexivity|].
    destruct (i <? j)%nat; rewrite !Hcd by assumption; apply sqrt_Rmax_0.
Qed.

(** X7: a point whose correlation dimension is [d] or more has an all-zero
    [E_hat], so its matrix [V @ diag(E_hat) @ V.T] measures the distance 0
    to every point.  A partition in which every point is of that kind
    hands DBSCAN a matrix of zeros: whatever the coordinates are, its
    points all coincide for DBSCAN. *)
Theorem full_dimension_points_are_at_distance_zero
    (X : matrix) (M_hats : list matrix) (D : list nat) (d : nat) :
  Forall (fun r => length r = d) X ->
  Forall (fun p => (p < length X)%nat) D ->
  Forall (fun p => (p < length M_hats)%nat) D ->
  Forall (fun p => exists V lambda_P,
              square d V /\ (d <= lambda_P)%nat /\
              nth p M_hats [] = M_hat_of V d lambda_P) D ->
  (forall V lambda_P P Q,
      square d V -> (d <= lambda_P)%nat -> length P = d ->
      Forall (fun q => length q = d) Q ->
      _cdist P Q (M_hat_of V d lambda_P) = repeat 0 (length Q)) /\
  exists cdist,
    partition_distance X M_hats D = Ok cdist /\
    length cdist = Nat.max 1 (length D) /\
    forall i j, nth j (nth i cdist []) 0 = 0.
Proof.
  intros HX HDX HDM Hfull. split.
  - intros V lambda_P P Q HV Hd HP HQ. rewrite _cdist_map.
    induction HQ as [|q Q Hq _ IH]; [reflexivity|].
    cbn [map length repeat]. rewrite IH. f_equal.
    now apply (cdist1_full V d).
  - now apply (full_partition_zero X M_hats D d).
Qed.

Lemma M_hat_full_example_full :
  Forall (fun p => exists V lambda_P,
              square 2 V /\ (2 <= lambda_P)%nat /\
              nth p M_hat_full_example [] = M_hat_of V 2 lambda_P) D_example.
Proof.
  repeat constructor;
    exists (diag [1; 1]), 2%nat;
    (split; [apply (diag_square [1; 1])|split; [apply le_n|reflexivity]]).
Qed.

Lemma D_example_in_M_full :
  Forall (fun p => (p < length M_hat_full_example)%nat) D_example.
Proof. repeat constructor. Qed.

Lemma full_dimension_points_are_at_distance_zero_witness :
  (Forall (fun r => length r = 2%nat) X_example /\
   Forall (fun p => (p < length X_example)%nat) D_example /\
   Forall (fun p => (p < length M_hat_full_example)%nat) D_example /\
   Forall (fun p => exists V lambda_P,
               square 2 V /\ (2 <= lambda_P)%nat /\
               nth p M_hat_full_example [] = M_hat_of V 2 lambda_P) D_example) /\
  (forall V lambda_P P Q,
      square 2 V -> (2 <= lambda_P)%nat -> length P = 2%nat ->
      Forall (fun q => length q = 2%nat) Q ->
      _cdist P Q (M_hat_of V 2 lambda_P) = repeat 0 (length Q)) /\
  exists cdist,
    partition_distance X_example M_hat_full_example D_example = Ok cdist /\
    length cdist = Nat.max 1 (length D_example) /\
    forall i j, nth j (nth i cdist []) 0 = 0.
Proof.
  exact (conj (conj X_example_rows
                 (conj D_example_in_X
                    (conj D_example_in_M_full M_hat_full_example_full)))
              (full_dimension_points_are_at_distance_zero
                 X_example M_hat_full_example D_example 2
                 X_example_rows D_example_in_X D_example_in_M_full
                 M_hat_full_example_full)).
Defined.

(** ** The matrix [M_hat] of a point (lines 130-131) *)

Lemma map2_minus_zeros w : map2 Rminus w (repeat 0 (length w)) = w.
Proof.
  induction w as [|x w IH]; [reflexivity|].
  cbn [length repeat map2]. rewrite IH. f_equal. ring.
Qed.

Lemma square_entry_outside d M i j :
  square d M -> (d <= i)%nat \/ (d <= j)%nat -> nth j (nth i M []) 0 = 0.
Proof.
  intros HM H.
  destruct (Nat.lt_ge_cases i d) as [Hi|Hi].
  - destruct H as [H|H]; [lia|].
    apply nth_overflow. now rewrite (square_row d M i HM Hi).
  - rewrite (nth_overflow M) by (destruct HM as [-> _]; exact Hi).
    now destruct j.
Qed.

(** X8: for every square [V], whatever its columns are, the matrix
    [V @ diag(E_hat) @ V.T] of line 131 is a [d] x [d] matrix, symmetric and
    positive semi-definite: its quadratic form is never negative. *)
Theorem M_hat_is_symmetric_positive_semidefinite
    (V : matrix) (d lambda_P : nat) :
  square d V ->
  square d (M_hat_of V d lambda_P) /\
  (forall i j, nth j (nth i (M_hat_of V d lambda_P) []) 0
               = nth i (nth j (M_hat_of V d lambda_P) []) 0) /\
  (forall w, length w = d -> 0 <= quad_form (M_hat_of V d lambda_P) w).
Proof.
  intros HV. pose proof (M_hat_of_square V d lambda_P HV) as HM.
  split; [exact HM|]. split.
  - intros i j.
    destruct (Nat.lt_ge_cases i d) as [Hi|Hi];
      [|rewrite !(square_entry_outside d) by (assumption || auto); reflexivity].
    destruct (Nat.lt_ge_cases j d) as [Hj|Hj];
      [|rewrite !(square_entry_outside d) by (assumption || auto); reflexivity].
    rewrite !M_hat_of_nth by assumption.
    apply bigsum_ext. intros k _. ring.
  - intros w Hw.
    pose proof (cdist1_M_hat_nonneg V d lambda_P (repeat 0 d) w HV
                  (repeat_length _ _) Hw) as H.
    rewrite (cdist1_quad_form _ _ _ d) in H;
      [|assumption|apply repeat_length|assumption].
    rewrite <- Hw, map2_minus_zeros in H. rewrite <- Hw. exact H.
Qed.

Lemma M_hat_is_symmetric_positive_semidefinite_witness :
  square 2 (diag [1; 1]) /\
  square 2 (M_hat_of (diag [1; 1]) 2 1) /\
  (forall i j, nth j (nth i (M_hat_of (diag [1; 1]) 2 1) []) 0
               = nth i (nth j (M_hat_of (diag [1; 1]) 2 1) []) 0) /\
  (forall w, length w = 2%nat -> 0 <= quad_form (M_hat_of (diag [1; 1]) 2 1) w).
Proof.
  exact (conj (diag_square [1; 1])
              (M_hat_is_symmetric_positive_semidefinite
                 (diag [1; 1]) 2 1 (diag_square [1; 1]))).
Defined.

Lemma matvec_nth M v i :
  (i < length M)%nat -> nth i (matvec M v) 0 = dot (nth i M []) v.
Proof.
  intros Hi. unfold matvec.
  rewrite (nth_indep _ 0 ((fun r => dot r v) [])) by now rewrite length_map.
  apply (map_nth (fun r => dot r v)).
Qed.

Lemma matvec_length M v : length (matvec M v) = length M.
Proof. apply length_map. Qed.

Lemma bigsum_count d : forall l,
  bigsum d (fun k => if (l <=? k)%nat then 1 else 0) = INR (d - l).
Proof.
  induction d as [|d IH]; intros l; [reflexivity|].
  cbn [bigsum]. destruct l as [|l].
  - rewrite (bigsum_ext d _ (fun k => if (0 <=? k)%nat then 1 else 0))
      by reflexivity.
    rewrite IH. cbn [Nat.leb]. rewrite !Nat.sub_0_r, S_INR. ring.
  - rewrite (bigsum_ext d _ (fun k => if (l <=? k)%nat then 1 else 0))
      by reflexivity.
    rewrite IH. cbn [Nat.leb Nat.sub]. ring.
Qed.

Section Projection.
Variables (V : matrix) (d lambda_P : nat).
Hypothesis V_orthonormal : orthonormal_columns d V.

Local Abbreviation M := (M_hat_of V d lambda_P).
Local Abbreviation e := (fun k => nth k (E_hat d lambda_P) 0).

Lemma V_square : square d V.
Proof. apply V_orthonormal. Qed.

Lemma columns_orthonormal k l :
  (k < d)%nat -> (l < d)%nat ->
  bigsum d (fun j => nth k (nth j V []) 0 * nth l (nth j V []) 0)
  = if (k =? l)%nat then 1 else 0.
Proof.
  intros Hk Hl. destruct V_orthonormal as [[HlV _] Ho].
  rewrite <- (Ho k l Hk Hl).
  rewrite (dot_bigsum _ _ d) by (rewrite col_length; exact HlV).
  apply bigsum_ext. intros j _. now rewrite !col_nth.
Qed.

(** [sum_j M_ij V_jk = e_k V_ik]. *)
Lemma M_hat_column i k :
  (i < d)%nat -> (k < d)%nat ->
  bigsum d (fun j => nth j (nth i M []) 0 * nth k (nth j V []) 0)
  = e k * nth k (nth i V []) 0.
Proof.
  intros Hi Hk.
  transitivity
    (bigsum d (fun j => bigsum d (fun m =>
       (nth m (nth i V []) 0 * e m)
       * (nth m (nth j V []) 0 * nth k (nth j V []) 0)))).
  - apply bigsum_ext. intros j Hj.
    rewrite (M_hat_of_nth V d lambda_P i j V_square Hi Hj).
    rewrite Rmult_comm, <- bigsum_scal.
    apply bigsum_ext. intros m _. ring.
  - rewrite bigsum_swap.
    rewrite (bigsum_ext d _
               (fun m => if (m =? k)%nat
                         then nth m (nth i V []) 0 * e m else 0)).
    + rewrite (bigsum_delta d k (fun m => nth m (nth i V []) 0 * e m) Hk). ring.
    + intros m Hm. rewrite bigsum_scal, (columns_orthonormal m k Hm Hk).
      destruct (m =? k)%nat; ring.
Qed.

Lemma E_hat_idempotent k : e k * e k = e k.
Proof.
  destruct (Nat.lt_ge_cases k d) as [Hk|Hk].
  - rewrite E_hat_nth by assumption. destruct (lambda_P <=? k)%nat; ring.
  - rewrite nth_overflow by (now rewrite E_hat_length). ring.
Qed.
End Projection.

Lemma square_ext d A B :
  square d A -> square d B ->
  (forall i j, (i < d)%nat -> (j < d)%nat ->
               nth j (nth i A []) 0 = nth j (nth i B []) 0) ->
  A = B.
Proof.
  intros HA HB H.
  apply (nth_ext A B [] []).
  - destruct HA as [-> _], HB as [-> _]. reflexivity.
  - intros i Hi. destruct HA as [HlA HrA]. rewrite HlA in Hi.
    apply (nth_ext _ _ 0 0).
    + rewrite (square_row d A i) by (try split; assumption).
      now rewrite (square_row d B i).
    + intros j Hj.
      rewrite (square_row d A i) in Hj by (try split; assumption).
      now apply H.
Qed.

(** X9: when the columns of [V] are orthonormal, as those of the matrix
    that [eigh] returns are, [M_hat = V @ diag(E_hat) @ V.T] is the
    orthogonal projection on the columns of [V] from position [lambda_P]
    on, in the order in which [V] was returned: it maps the [k]-th column
    to itself when [lambda_P <= k] and to zero when [k < lambda_P], it is
    idempotent, and its trace is [d - lambda_P]. *)
Theorem M_hat_is_a_projection (V : matrix) (d lambda_P : nat) :
  orthonormal_columns d V ->
  (forall k, (k < d)%nat ->
     matvec (M_hat_of V d lambda_P) (col V k)
     = if (lambda_P <=? k)%nat then col V k else repeat 0 d) /\
  matmul (M_hat_of V d lambda_P) (M_hat_of V d lambda_P)
  = M_hat_of V d lambda_P /\
  bigsum d (fun i => nth i (nth i (M_hat_of V d lambda_P) []) 0)
  = INR (d - lambda_P).
Proof.
  intros HO. pose proof (V_square V d HO) as HV.
  pose proof (M_hat_of_square V d lambda_P HV) as HM.
  assert (HlV : length V = d) by apply HV.
  assert (HlM : length (M_hat_of V d lambda_P) = d) by apply HM.
  split; [|split].
  - intros k Hk.
    apply (nth_ext _ _ 0 0).
    + rewrite matvec_length, HlM.
      destruct (lambda_P <=? k)%nat;
        [now rewrite col_length|now rewrite repeat_length].
    + intros i Hi. rewrite matvec_length, HlM in Hi.
      rewrite matvec_nth by (rewrite HlM; exact Hi).
      rewrite (dot_bigsum _ _ d);
        [|now apply square_row|now rewrite col_length].
      rewrite (bigsum_ext d _
                 (fun j => nth j (nth i (M_hat_of V d lambda_P) []) 0
                           * nth k (nth j V []) 0))
        by (intros j _; now rewrite col_nth).
      rewrite (M_hat_column V d lambda_P HO i k Hi Hk).
      rewrite E_hat_nth by assumption.
      destruct (lambda_P <=? k)%nat.
      * rewrite col_nth. ring.
      * rewrite nth_repeat. ring.
  - apply (square_ext d); [now apply matmul_square|assumption|].
    intros i j Hi Hj.
    rewrite matmul_nth by (rewrite ?HlM, ?(square_ncols d _ HM); assumption).
    rewrite (dot_bigsum _ _ d);
      [|now apply square_row|now rewrite col_length].
    transitivity
      (bigsum d (fun m => bigsum d (fun k =>
         (nth k (E_hat d lambda_P) 0 * nth k (nth j V []) 0)
         * (nth m (nth i (M_hat_of V d lambda_P) []) 0 * nth k (nth m V []) 0)))).
    + apply bigsum_ext. intros m Hm.
      rewrite col_nth, (M_hat_of_nth V d lambda_P m j HV Hm Hj).
      rewrite <- bigsum_scal. apply bigsum_ext. intros k _. ring.
    + rewrite bigsum_swap, (M_hat_of_nth V d lambda_P i j HV Hi Hj).
      apply bigsum_ext. intros k Hk.
      rewrite bigsum_scal, (M_hat_column V d lambda_P HO i k Hi Hk).
      pose proof (E_hat_idempotent d lambda_P k) as He. cbv beta in He.
      transitivity (nth k (E_hat d lambda_P) 0 * nth k (E_hat d lambda_P) 0
                    * nth k (nth i V []) 0 * nth k (nth j V []) 0); [ring|].
      rewrite He. ring.
  - transitivity
      (bigsum d (fun i => bigsum d (fun k =>
         nth k (E_hat d lambda_P) 0
         * (nth k (nth i V []) 0 * nth k (nth i V []) 0)))).
    + apply bigsum_ext. intros i Hi.
      rewrite (M_hat_of_nth V d lambda_P i i HV Hi Hi).
      apply bigsum_ext. intros k _. ring.
    + rewrite bigsum_swap, <- bigsum_count.
      apply bigsum_ext. intros k Hk.
      rewrite bigsum_scal, (columns_orthonormal V d HO k k Hk Hk).
      rewrite Nat.eqb_refl, E_hat_nth by assumption. ring.
Qed.

Lemma unit_vectors_orthonormal : orthonormal_columns 2 (diag [1; 1]).
Proof.
  split; [apply (diag_square [1; 1])|].
  intros [|[|k]] [|[|l]] Hk Hl; try lia;
    unfold dot, col, diag; simpl; lra.
Qed.

Lemma M_hat_is_a_projection_witness :
  orthonormal_columns 2 (diag [1; 1]) /\
  (forall k, (k < 2)%nat ->
     matvec (M_hat_of (diag [1; 1]) 2 1) (col (diag [1; 1]) k)
     = if (1 <=? k)%nat then col (diag [1; 1]) k else repeat 0 2) /\
  matmul (M_hat_of (diag [1; 1]) 2 1) (M_hat_of (diag [1; 1]) 2 1)
  = M_hat_of (diag [1; 1]) 2 1 /\
  bigsum 2 (fun i => nth i (nth i (M_hat_of (diag [1; 1]) 2 1) []) 0)
  = INR (2 - 1).
Proof.
  exact (conj unit_vectors_orthonormal
              (M_hat_is_a_projection (diag [1; 1]) 2 1 unit_vectors_orthonormal)).
Defined.

(** ** The partition of the points of full dimension, in a run *)

Lemma X_nine_rows : Forall (fun r => length r = 2%nat) X_nine.
Proof. repeat constructor. Qed.

Lemma eigh_diag_values S : length (fst (eigh_diag S)) = length S.
Proof. unfold eigh_diag. cbn [fst]. now rewrite length_map, length_seq. Qed.

(** X10: in every run on data of [d >= 2] features (providers well-shaped,
    [eigh] returning [d] eigenvalues and a [d] x [d] matrix), the piece at
    position [d - 1] collects the points whose correlation dimension is [d]
    or more, and the matrix that DBSCAN receives for it is all zeros:
    these points are clustered as if they all coincided. *)
Theorem top_partition_is_clustered_on_zeros
    (eigh : matrix -> list R * matrix)
    (X : matrix) (d : nat) (alpha : R) (knns : list (list nat)) :
  Forall (fun r => length r = d) X ->
  length knns = length X ->
  Forall (in_range X) knns ->
  two_neighbours knns ->
  (2 <= d)%nat ->
  (forall S, square (length S) (snd (eigh S))) ->
  (forall S, length (fst (eigh S)) = length S) ->
  exists lambda_ M_hats cdist,
    foldM (analyse_step eigh X d alpha) (enumerate knns)
          (repeat O (length X), []) = Ok (lambda_, M_hats) /\
    (forall p, In p (nth (d - 1) (partitions lambda_ d) [])
               <-> (p < length X)%nat /\ (d <= nth p lambda_ O)%nat) /\
    partition_distance X M_hats (nth (d - 1) (partitions lambda_ d) [])
    = Ok cdist /\
    forall i j, nth j (nth i cdist []) 0 = 0.
Proof.
  intros HX Hlen Hin H2 Hd Hshape Hvalues.
  assert (Hwide : wide X).
  { unfold wide. eapply Forall_impl; [|exact HX].
    intros r Hr. cbv beta in Hr. now rewrite Hr. }
  pose proof (analyse_loop_Ok eigh X d Hwide alpha knns Hlen Hin H2) as Hloop.
  set (lambda_ := map (lambda_at eigh X alpha) knns) in *.
  set (M_hats := map (M_hat_at eigh X d alpha) knns) in *.
  assert (Hl : length lambda_ = length X)
    by (subst lambda_; now rewrite length_map).
  assert (HM : length M_hats = length X)
    by (subst M_hats; now rewrite length_map).
  assert (Hknn : forall p, (p < length X)%nat ->
            in_range X (nth p knns []) /\ nth p knns [] <> []).
  { intros p Hp. rewrite <- Hlen in Hp. split.
    - apply (proj1 (Forall_forall _ _) Hin). now apply nth_In.
    - pose proof (proj1 (Forall_forall _ _) H2 _ (nth_In _ [] Hp)) as Ht.
      cbv beta in Ht. intros E. rewrite E in Ht. simpl in Ht. lia. }
  assert (Hcols : forall p, (p < length X)%nat ->
            ncols (map (fun i => nth i X []) (nth p knns [])) = d).
  { intros p Hp. destruct (Hknn p Hp) as [Hr Hne].
    destruct (nth p knns []) as [|i knn]; [contradiction|]. simpl.
    inv Hr. apply (proj1 (Forall_forall _ _) HX). now apply nth_In. }
  assert (Hlam : forall p, (p < length X)%nat ->
            nth p lambda_ O = lambda_at eigh X alpha (nth p knns [])).
  { intros p Hp. subst lambda_.
    rewrite (nth_indep _ O (lambda_at eigh X alpha []))
      by (rewrite length_map; lia).
    apply (map_nth (lambda_at eigh X alpha)). }
  assert (Hrange : Forall (fun v => (1 <= v <= d + 1)%nat) lambda_).
  { apply Forall_forall. intros v Hv.
    destruct (In_nth _ _ O Hv) as (p & Hp & <-). rewrite Hl in Hp.
    rewrite (Hlam p Hp). unfold lambda_at.
    pose proof (local_corr_dim_bounds
                  (fst (eigh (cov (map (fun i => nth i X []) (nth p knns [])))))
                  alpha) as Hb.
    rewrite Hvalues in Hb.
    destruct (cov_square (map (fun i => nth i X []) (nth p knns []))) as [Hc _].
    rewrite Hc, (Hcols p Hp) in Hb. exact Hb. }
  pose proof (partitions_bins lambda_ d ltac:(lia) Hrange) as Hbins.
  assert (Hpiece : forall p, In p (nth (d - 1) (partitions lambda_ d) [])
                    <-> (p < length X)%nat /\ (d <= nth p lambda_ O)%nat).
  { intros p. rewrite Hbins.
    rewrite app_nth1 by (rewrite length_map, length_seq; lia).
    rewrite (nth_indep _ []
               ((fun i => filter (fun p => in_bin d i (nth p lambda_ O))
                                 (argsort lambda_)) O))
      by (rewrite length_map, length_seq; lia).
    rewrite (map_nth (fun i => filter (fun p => in_bin d i (nth p lambda_ O))
                                      (argsort lambda_))).
    rewrite seq_nth by lia. rewrite filter_In, argsort_In, Hl. simpl.
    split.
    - intros [Hp Hb]. split; [assumption|].
      unfold in_bin in Hb. apply andb_true_iff in Hb.
      destruct Hb as [Hb _]. apply Nat.leb_le in Hb. lia.
    - intros [Hp Hk]. split; [assumption|].
      assert (Hp' : (p < length lambda_)%nat) by lia.
      pose proof (proj1 (Forall_forall _ _) Hrange (nth p lambda_ O)
                    (nth_In _ _ Hp')) as Hv. cbv beta in Hv.
      unfold in_bin.
      destruct (Nat.leb_spec (d - 1 + 1) (nth p lambda_ O)); [|lia].
      destruct (Nat.ltb_spec (nth p lambda_ O) (d - 1 + 2)); [reflexivity|].
      destruct (Nat.eqb_spec (d - 1 + 1) d); [|lia].
      destruct (Nat.eqb_spec (nth p lambda_ O) (d + 1)); [reflexivity|lia]. }
  set (D := nth (d - 1) (partitions lambda_ d) []) in *.
  assert (HDX : Forall (fun p => (p < length X)%nat) D).
  { apply Forall_forall. intros p Hp. now apply Hpiece in Hp. }
  destruct (full_partition_zero X M_hats D d HX HDX) as (cdist & Hc & _ & Hz).
  - rewrite HM. exact HDX.
  - apply Forall_forall. intros p Hp. apply Hpiece in Hp.
    destruct Hp as [Hp Hk]. destruct (Hknn p Hp) as [Hr Hne].
    exists (snd (eigh (cov (map (fun i => nth i X []) (nth p knns []))))),
           (nth p lambda_ O).
    split; [|split; [exact Hk|]].
    + pose proof (Hshape (cov (map (fun i => nth i X []) (nth p knns []))))
        as Hs.
      destruct (cov_square (map (fun i => nth i X []) (nth p knns []))) as [Hcl _].
      rewrite Hcl, (Hcols p Hp) in Hs. exact Hs.
    + subst M_hats.
      rewrite (nth_indep _ [] (M_hat_at eigh X d alpha []))
        by (rewrite length_map; lia).
      rewrite (map_nth (M_hat_at eigh X d alpha)).
      rewrite (Hlam p Hp). reflexivity.
  - exists lambda_, M_hats, cdist. repeat split; try assumption;
      apply Hpiece; assumption.
Qed.

Lemma top_partition_is_clustered_on_zeros_witness :
  (Forall (fun r => length r = 2%nat) X_nine /\
   length (knn_nine X_nine 3) = length X_nine /\
   Forall (in_range X_nine) (knn_nine X_nine 3) /\
   two_neighbours (knn_nine X_nine 3) /\
   (2 <= 2)%nat /\
   (forall S, square (length S) (snd (eigh_diag S))) /\
   (forall S, length (fst (eigh_diag S)) = length S)) /\
  exists lambda_ M_hats cdist,
    foldM (analyse_step eigh_diag X_nine 2 (95 / 100))
          (enumerate (knn_nine X_nine 3))
          (repeat O (length X_nine), []) = Ok (lambda_, M_hats) /\
    (forall p, In p (nth (2 - 1) (partitions lambda_ 2) [])
               <-> (p < length X_nine)%nat /\ (2 <= nth p lambda_ O)%nat) /\
    partition_distance X_nine M_hats (nth (2 - 1) (partitions lambda_ 2) [])
    = Ok cdist /\
    forall i j, nth j (nth i cdist []) 0 = 0.
Proof.
  exact (conj (conj X_nine_rows
                 (conj eq_refl
                    (conj (knn_nine_in_range 3)
                       (conj (knn_nine_two 3)
                          (conj (le_n 2)
                             (conj eigh_diag_shape eigh_diag_values))))))
              (top_partition_is_clustered_on_zeros
                 eigh_diag X_nine 2 (95 / 100) (knn_nine X_nine 3)
                 X_nine_rows eq_refl (knn_nine_in_range 3) (knn_nine_two 3)
                 (le_n 2) eigh_diag_shape eigh_diag_values)).
Defined.

(** ** The estimator class *)


(** ** Moving the data *)

Lemma foldM_ext {S T : Type} (f g : S -> T -> result S) items :
  (forall s i, f s i = g s i) ->
  forall s, foldM f items s = foldM g items s.
Proof.
  intros H. induction items as [|i items IH]; intros s; cbn [foldM];
    [reflexivity|].
  rewrite H. destruct (g s i); cbn [bind]; [apply IH|reflexivity].
Qed.

Lemma diff_shift (t P q : vec) :
  length P = length t -> length q = length t ->
  map2 Rminus (map2 Rplus P t) (map2 Rplus q t) = map2 Rminus P q.
Proof.
  revert P q. induction t as [|c t' IH]; intros [|a P] [|b q] HP Hq;
    simpl in *; try discriminate; try reflexivity.
  f_equal; [ring|]. apply IH; congruence.
Qed.

Section Translation.
Variables (X : matrix) (t : vec).
Hypothesis X_rows : Forall (fun r => length r = length t) X.

Local Abbreviation shift r := (map2 Rplus r t).

Lemma translate_length : length (translate X t) = length X.
Proof. apply length_map. Qed.

Lemma shift_length r : length r = length t -> length (shift r) = length r.
Proof. intros H. rewrite map2_length, H. apply Nat.min_id. Qed.

Lemma translate_ncols : ncols (translate X t) = ncols X.
Proof.
  destruct X as [|r X']; [reflexivity|]. simpl.
  apply shift_length. now inv X_rows.
Qed.

Lemma getitem_translate i :
  getitem (translate X t) i
  = match getitem X i with
    | Ok r => Ok (shift r)
    | Err e => Err e
    end.
Proof.
  unfold getitem, translate. rewrite nth_error_map.
  destruct (nth_error X i); reflexivity.
Qed.

Lemma getitem_row i r : getitem X i = Ok r -> length r = length t.
Proof.
  unfold getitem. destruct (nth_error X i) as [r'|] eqn:E; [|discriminate].
  intros H. inv H. apply nth_error_In in E.
  exact (proj1 (Forall_forall _ _) X_rows r E).
Qed.

Lemma take_translate idx :
  take (translate X t) idx
  = match take X idx with
    | Ok rows => Ok (translate rows t)
    | Err e => Err e
    end.
Proof.
  induction idx as [|i idx IH]; cbn [take]; [reflexivity|].
  rewrite getitem_translate, IH.
  destruct (getitem X i); cbn [bind]; [|reflexivity].
  destruct (take X idx); reflexivity.
Qed.

Lemma take_rows idx rows :
  take X idx = Ok rows -> Forall (fun r => length r = length t) rows.
Proof.
  revert rows. induction idx as [|i idx IH]; intros rows H; cbn [take] in H.
  - inv H. constructor.
  - bind_inv H. bind_inv H. inv H. constructor.
    + eapply getitem_row; eassumption.
    + now apply IH.
Qed.

Lemma cdist_translate P Q M :
  length P = length t -> Forall (fun q => length q = length t) Q ->
  _cdist (shift P) (translate Q t) M = _cdist P Q M.
Proof.
  intros HP HQ. rewrite !_cdist_map. unfold translate. rewrite map_map.
  apply map_ext_in. intros q Hq. unfold cdist1.
  rewrite diff_shift; [reflexivity|assumption|].
  exact (proj1 (Forall_forall _ _) HQ q Hq).
Qed.

Lemma triu_step_translate M_hats D st i :
  triu_step (translate X t) M_hats D st i = triu_step X M_hats D st i.
Proof.
  unfold triu_step. destruct st as [start cdist_P].
  destruct (getitem D i) as [p|e]; cbn [bind]; [|reflexivity].
  rewrite getitem_translate.
  destruct (getitem X p) as [Xp|e] eqn:Ep; cbn [bind]; [|reflexivity].
  rewrite take_translate.
  destruct (take X (slice D (i + 1) (length D))) as [Xq|e] eqn:Eq;
    cbn [bind]; [|reflexivity].
  destruct (getitem M_hats p) as [Mp|e]; cbn [bind]; [|reflexivity].
  rewrite cdist_translate;
    [reflexivity|eapply getitem_row; eassumption|eapply take_rows; eassumption].
Qed.

Lemma tril_step_translate M_hats D cdist_Q i :
  tril_step (translate X t) M_hats D cdist_Q i = tril_step X M_hats D cdist_Q i.
Proof.
  unfold tril_step.
  destruct (getitem D i) as [q|e]; cbn [bind]; [|reflexivity].
  rewrite getitem_translate.
  destruct (getitem X q) as [Xq|e] eqn:Eq; cbn [bind]; [|reflexivity].
  rewrite take_translate.
  destruct (take X (slice D 0 i)) as [Xp|e] eqn:Ep; cbn [bind]; [|reflexivity].
  destruct (getitem M_hats q) as [Mq|e]; cbn [bind]; [|reflexivity].
  destruct (getitem cdist_Q i) as [row|e]; cbn [bind]; [|reflexivity].
  rewrite cdist_translate;
    [reflexivity|eapply getitem_row; eassumption|eapply take_rows; eassumption].
Qed.

Lemma partition_distance_translate M_hats D :
  partition_distance (translate X t) M_hats D = partition_distance X M_hats D.
Proof.
  unfold partition_distance.
  rewrite (foldM_ext _ _ _ (triu_step_translate M_hats D)).
  destruct (foldM (triu_step X M_hats D) _ _); cbn [bind]; [|reflexivity].
  now rewrite (foldM_ext _ _ _ (tril_step_translate M_hats D)).
Qed.
End Translation.

Lemma vsum_shift c v : vsum (map (fun x => x + c) v) = vsum v + INR (length v) * c.
Proof.
  induction v as [|x v IH]; [simpl; ring|].
  cbn [map vsum fold_right] in *. fold (vsum (map (fun x => x + c) v)).
  fold (vsum v). rewrite IH.
  change (length (x :: v)) with (S (length v)). rewrite S_INR. ring.
Qed.

Lemma centred_shift c v :
  map (fun x => x - mean (map (fun x => x + c) v)) (map (fun x => x + c) v)
  = map (fun x => x - mean v) v.
Proof.
  destruct v as [|x0 v]; [reflexivity|].
  set (w := x0 :: v).
  assert (Hn : INR (length w) <> 0).
  { subst w. change (length (x0 :: v)) with (S (length v)).
    apply not_0_INR. discriminate. }
  rewrite map_map. apply map_ext. intros x. unfold mean.
  rewrite length_map, vsum_shift. field. exact Hn.
Qed.

Lemma col_translate N t j :
  Forall (fun r => length r = length t) N -> (j < length t)%nat ->
  col (translate N t) j = map (fun x => x + nth j t 0) (col N j).
Proof.
  intros HN Hj. unfold col, translate. rewrite !map_map.
  apply map_ext_in. intros r Hr.
  pose proof (proj1 (Forall_forall _ _) HN r Hr) as Hlen. cbv beta in Hlen.
  apply nth_map2; lia.
Qed.

(** The covariance matrix does not change when the data is moved. *)
Lemma cov_translate N t :
  Forall (fun r => length r = length t) N -> cov (translate N t) = cov N.
Proof.
  intros HN. unfold cov.
  rewrite (translate_ncols N t HN), (translate_length N t).
  assert (Hc : map (fun j => map (fun x => x - mean (col (translate N t) j))
                                 (col (translate N t) j))
                   (seq 0 (ncols N))
               = map (fun j => map (fun x => x - mean (col N j)) (col N j))
                     (seq 0 (ncols N))).
  { apply map_ext_in. intros j Hj. apply in_seq in Hj.
    assert (Hjt : (j < length t)%nat).
    { destruct N as [|r N']; [simpl in Hj; lia|].
      simpl in Hj. inv HN. lia. }
    rewrite (col_translate N t j HN Hjt). apply centred_shift. }
  cbv zeta. now rewrite Hc.
Qed.

Section TranslatedRun.
Variable kneighbors : matrix -> Z -> list (list nat).
Variable eigh : matrix -> list R * matrix.
Variable dbscan : matrix -> R -> Z -> list Z.
Variables (X : matrix) (t : vec).
Hypothesis X_rows : Forall (fun r => length r = length t) X.

Lemma analyse_point_translate d alpha knn :
  analyse_point eigh (translate X t) d alpha knn
  = analyse_point eigh X d alpha knn.
Proof.
  unfold analyse_point. rewrite (take_translate X t).
  destruct (take X knn) as [N_P|e] eqn:E; cbn [bind]; [|reflexivity].
  pose proof (take_rows X t X_rows knn N_P E) as HN.
  now rewrite (translate_length N_P t), (translate_ncols N_P t HN),
    (cov_translate N_P t HN).
Qed.

Lemma analyse_step_translate d alpha st Pknn :
  analyse_step eigh (translate X t) d alpha st Pknn
  = analyse_step eigh X d alpha st Pknn.
Proof. unfold analyse_step. now rewrite analyse_point_translate. Qed.

Lemma partition_step_translate M_hat eps mu st D :
  partition_step dbscan (translate X t) M_hat eps mu st D
  = partition_step dbscan X M_hat eps mu st D.
Proof.
  unfold partition_step. now rewrite (partition_distance_translate X t X_rows).
Qed.
End TranslatedRun.

(** X12: over exact arithmetic the clustering does not depend on where the
    data lies.  When the neighbour search finds the same neighbours after
    every row of [X] has been moved by one vector [t], [copac] returns the
    same result, label for label and error for error: the covariance
    matrices and the correlation distances only see differences of
    rows. *)
Theorem copac_is_translation_invariant
    (kneighbors : matrix -> Z -> list (list nat))
    (eigh : matrix -> list R * matrix)
    (dbscan : matrix -> R -> Z -> list Z)
    (X : matrix) (t : vec) (k mu : Z) (eps alpha : R) :
  Forall (fun r => length r = length t) X ->
  kneighbors (translate X t) k = kneighbors X k ->
  copac kneighbors eigh dbscan (translate X t) k mu eps alpha
  = copac kneighbors eigh dbscan X k mu eps alpha.
Proof.
  intros HX Hk. unfold copac.
  rewrite (translate_length X t), (translate_ncols X t HX), Hk.
  destruct ((length X =? 0) || (ncols X =? 0))%nat; [reflexivity|].
  rewrite (foldM_ext _ _ _ (analyse_step_translate eigh X t HX (ncols X) alpha)).
  destruct (foldM (analyse_step eigh X (ncols X) alpha) _ _) as [[l M]|e];
    cbn [bind fst snd]; [|reflexivity].
  now rewrite (foldM_ext _ _ _
                 (partition_step_translate dbscan X t HX M eps mu)).
Qed.

Lemma copac_is_translation_invariant_witness :
  (Forall (fun r => length r = length [5; -3]) X_nine /\
   knn_nine (translate X_nine [5; -3]) 3 = knn_nine X_nine 3) /\
  copac knn_nine eigh_diag dbscan_five (translate X_nine [5; -3]) 3 5 4 (95 / 100)
  = copac knn_nine eigh_diag dbscan_five X_nine 3 5 4 (95 / 100).
Proof.
  exact (conj (conj X_nine_rows eq_refl)
              (copac_is_translation_invariant
                 knn_nine eigh_diag dbscan_five X_nine [5; -3] 3 5 4 (95 / 100)
                 X_nine_rows eq_refl)).
Defined.

(** ** Data and neighbourhoods that are too small *)

(** X13: [copac] cannot analyse data with a single feature, nor a
    neighbourhood of fewer than two points.  [np.cov] then returns a 0-d
    array, which [eigh] rejects: on non-empty data, with in-range neighbours
    for every point, the call fails with a ValueError as soon as [X] has
    one column or the first point has fewer than two neighbours. *)
Theorem copac_needs_two_features_and_two_neighbours
    (kneighbors : matrix -> Z -> list (list nat))
    (eigh : matrix -> list R * matrix)
    (dbscan : matrix -> R -> Z -> list Z)
    (X : matrix) (k mu : Z) (eps alpha : R) :
  (0 < length X)%nat ->
  length (kneighbors X k) = length X ->
  Forall (in_range X) (kneighbors X k) ->
  Forall (fun r => length r = 1%nat) X
  \/ (length (nth 0 (kneighbors X k) []) < 2)%nat ->
  copac kneighbors eigh dbscan X k mu eps alpha = Err ValueError.
Proof.
  intros Hn Hlen Hin Hsmall. unfold copac.
  destruct ((length X =? 0) || (ncols X =? 0))%nat; [reflexivity|].
  unfold enumerate.
  destruct (kneighbors X k) as [|knn knns]; [simpl in Hlen; lia|].
  cbn [length seq combine foldM nth] in *.
  inv Hin.
  assert (Hp : analyse_point eigh X (ncols X) alpha knn = Err ValueError).
  { unfold analyse_point.
    rewrite (take_Ok _ X knn H1 []). cbn [bind]. rewrite length_map.
    destruct (Nat.ltb_spec (length knn) 2) as [|Hk2]; [reflexivity|].
    destruct Hsmall as [Hone|Hfew]; [|lia].
    destruct knn as [|i knn]; [simpl in Hk2; lia|]. cbn [map ncols].
    inv H1.
    rewrite (proj1 (Forall_forall _ _) Hone (nth i X []) (nth_In _ _ H3)).
    reflexivity. }
  unfold analyse_step at 1. cbn [snd]. rewrite Hp. reflexivity.
Qed.

Lemma copac_needs_two_features_and_two_neighbours_witness :
  ((0 < length X_single_feature)%nat /\
   length (knn_example X_single_feature 2) = length X_single_feature /\
   Forall (in_range X_single_feature) (knn_example X_single_feature 2) /\
   (Forall (fun r => length r = 1%nat) X_single_feature
    \/ (length (nth 0 (knn_example X_single_feature 2) []) < 2)%nat)) /\
  copac knn_example eigh_diag dbscan_noise X_single_feature 2 5 (1 / 2) (85 / 100)
  = Err ValueError.
Proof.
  assert (Hn : (0 < length X_single_feature)%nat) by (simpl; lia).
  assert (Hin : Forall (in_range X_single_feature) (knn_example X_single_feature 2))
    by (repeat constructor).
  assert (Hs : Forall (fun r => length r = 1%nat) X_single_feature
               \/ (length (nth 0 (knn_example X_single_feature 2) []) < 2)%nat)
    by (left; repeat constructor).
  exact (conj (conj Hn (conj eq_refl (conj Hin Hs)))
              (copac_needs_two_features_and_two_neighbours
                 knn_example eigh_diag dbscan_noise X_single_feature 2 5 (1 / 2)
                 (85 / 100) Hn eq_refl Hin Hs)).
Defined.

(** ** Points that coincide *)

Lemma diff_self (P : vec) : Forall (eq 0) (map2 Rminus P P).
Proof.
  induction P as [|x P IH]; simpl; constructor; [ring|exact IH].
Qed.

Lemma vsum_mult_zeros (u z : vec) :
  Forall (eq 0) z -> vsum (map2 Rmult u z) = 0.
Proof.
  intros Hz. revert u. induction Hz as [|x z Hx _ IH]; intros [|a u];
    simpl; try reflexivity.
  fold (vsum (map2 Rmult u z)). rewrite IH, <- Hx. ring.
Qed.

Lemma cdist1_self P M : cdist1 P M P = 0.
Proof. unfold cdist1. apply vsum_mult_zeros, diff_self. Qed.

(** X14: the correlation distance from a point to a point with the same
    coordinates is 0, whatever the matrix is; so two points of a partition
    that coincide are at distance 0 in the matrix handed to DBSCAN, in
    both directions. *)
Theorem coinciding_points_are_at_distance_zero
    (X : matrix) (M_hats : list matrix) (D : list nat) :
  Forall (fun p => (p < length X)%nat) D ->
  Forall (fun p => (p < length M_hats)%nat) D ->
  (forall P Q M r, (r < length Q)%nat -> nth r Q [] = P ->
                   nth r (_cdist P Q M) 0 = 0) /\
  exists cdist,
    partition_distance X M_hats D = Ok cdist /\
    forall i j, (i < length D)%nat -> (j < length D)%nat ->
      nth (nth i D O) X [] = nth (nth j D O) X [] ->
      nth j (nth i cdist []) 0 = 0.
Proof.
  intros HDX HDM. split.
  - intros P Q M r Hr HP. rewrite _cdist_map.
    rewrite (nth_indep _ 0 (cdist1 P M [])) by now rewrite length_map.
    rewrite (map_nth (cdist1 P M)). subst P. apply cdist1_self.
  - eexists. split; [apply partition_distance_Ok; assumption|].
    intros i j Hi Hj Heq.
    destruct (Nat.leb_spec (length D) 1) as [Hle|Hgt].
    + destruct i as [|i], j as [|j]; try lia. reflexivity.
    + rewrite sym_matrix_nth by assumption.
      destruct (i =? j)%nat; [reflexivity|].
      assert (H0 : forall a b, nth (nth a D O) X [] = nth (nth b D O) X [] ->
                               pair_cdist X M_hats D a b = 0).
      { intros a b E. unfold pair_cdist. rewrite <- E. apply cdist1_self. }
      destruct (i <? j)%nat;
        rewrite (H0 i j Heq), (H0 j i (eq_sym Heq)); apply sqrt_Rmax_0.
Qed.

Lemma X_same_D_in_X : Forall (fun p => (p < length X_same)%nat) D_example.
Proof. repeat constructor. Qed.

Lemma coinciding_points_are_at_distance_zero_witness :
  (Forall (fun p => (p < length X_same)%nat) D_example /\
   Forall (fun p => (p < length M_hat_example)%nat) D_example) /\
  (forall P Q M r, (r < length Q)%nat -> nth r Q [] = P ->
                   nth r (_cdist P Q M) 0 = 0) /\
  exists cdist,
    partition_distance X_same M_hat_example D_example = Ok cdist /\
    forall i j, (i < length D_example)%nat -> (j < length D_example)%nat ->
      nth (nth i D_example O) X_same [] = nth (nth j D_example O) X_same [] ->
      nth j (nth i cdist []) 0 = 0.
Proof.
  exact (conj (conj X_same_D_in_X D_example_in_M)
              (coinciding_points_are_at_distance_zero
                 X_same M_hat_example D_example X_same_D_in_X D_example_in_M)).
Defined.

(** ** The covariance matrix of a neighbourhood (line 117) *)





(** ** The order of the neighbours *)

Lemma take_Err {A : Type} (a : list A) idx :
  ~ Forall (fun i => (i < length a)%nat) idx -> take a idx = Err IndexError.
Proof.
  induction idx as [|i idx IH]; intros H; [exfalso; apply H; constructor|].
  cbn [take]. unfold getitem.
  destruct (nth_error a i) as [x|] eqn:E; [|reflexivity]. cbn [bind].
  rewrite IH; [reflexivity|].
  intros Hr. apply H. constructor; [|exact Hr].
  apply nth_error_Some. congruence.
Qed.

Lemma mean_perm (u v : vec) : Permutation u v -> mean u = mean v.
Proof.
  intros H. unfold mean.
  now rewrite (vsum_perm _ _ H), (Permutation_length H).
Qed.

Lemma ncols_perm (N N' : matrix) d :
  Permutation N N' -> Forall (fun r => length r = d) N -> ncols N = ncols N'.
Proof.
  intros HP HN.
  assert (HN' : Forall (fun r => length r = d) N')
    by (eapply Permutation_Forall; eassumption).
  destruct N as [|r N], N' as [|r' N'']; simpl.
  - reflexivity.
  - apply Permutation_nil in HP. discriminate.
  - apply Permutation_sym, Permutation_nil in HP. discriminate.
  - inv HN. inv HN'. congruence.
Qed.

(** The covariance matrix as a table over the pairs of features. *)
Lemma cov_table N_P :
  cov N_P
  = map (fun i =>
           map (fun j =>
                  vsum (map (fun r => (nth i r 0 - mean (col N_P i))
                                      * (nth j r 0 - mean (col N_P j))) N_P)
                  / INR (length N_P))
               (seq 0 (ncols N_P)))
        (seq 0 (ncols N_P)).
Proof.
  unfold cov. cbv zeta. rewrite map_map.
  apply map_ext. intros i. rewrite map_map.
  apply map_ext. intros j. f_equal.
  unfold dot, col. rewrite !map_map. apply f_equal. apply map2_map_map.
Qed.

(** The covariance matrix does not depend on the order of the rows. *)
Lemma cov_perm (N N' : matrix) d :
  Permutation N N' -> Forall (fun r => length r = d) N -> cov N = cov N'.
Proof.
  intros HP HN. rewrite !cov_table.
  rewrite <- (ncols_perm N N' d HP HN), <- (Permutation_length HP).
  apply map_ext. intros i. apply map_ext. intros j. f_equal.
  assert (Hm : forall c, mean (col N c) = mean (col N' c)).
  { intros c. apply mean_perm. unfold col. now apply Permutation_map. }
  rewrite <- !Hm. apply vsum_perm. now apply Permutation_map.
Qed.

Section NeighbourOrder.
Variable eigh : matrix -> list R * matrix.
Variables (X : matrix) (d : nat) (alpha : R).
Hypothesis X_rows : Forall (fun r => length r = ncols X) X.

Lemma analyse_point_perm knn knn' :
  Permutation knn knn' ->
  analyse_point eigh X d alpha knn = analyse_point eigh X d alpha knn'.
Proof.
  intros HP. unfold analyse_point.
  destruct (Forall_dec (fun i => (i < length X)%nat)
              (fun i => lt_dec i (length X)) knn) as [Hin|Hout].
  - assert (Hin' : Forall (fun i => (i < length X)%nat) knn')
      by (eapply Permutation_Forall; eassumption).
    rewrite (take_Ok _ X knn Hin []), (take_Ok _ X knn' Hin' []).
    cbn [bind].
    set (N := map (fun i => nth i X []) knn).
    set (N' := map (fun i => nth i X []) knn').
    assert (HN : Permutation N N') by (now apply Permutation_map).
    assert (Hrows : Forall (fun r => length r = ncols X) N).
    { apply Forall_forall. intros r Hr. apply in_map_iff in Hr.
      destruct Hr as (i & <- & Hi).
      apply (proj1 (Forall_forall _ _) X_rows), nth_In.
      exact (proj1 (Forall_forall _ _) Hin i Hi). }
    now rewrite <- (Permutation_length HN), <- (ncols_perm N N' _ HN Hrows),
      <- (cov_perm N N' _ HN Hrows).
  - assert (Hout' : ~ Forall (fun i => (i < length X)%nat) knn').
    { intros H. apply Hout.
      eapply Permutation_Forall; [symmetry|]; eassumption. }
    now rewrite (take_Err X knn Hout), (take_Err X knn' Hout').
Qed.

Lemma analyse_loop_perm knns knns' :
  Forall2 (@Permutation nat) knns knns' ->
  forall s st,
    foldM (analyse_step eigh X d alpha) (combine (seq s (length knns)) knns) st
    = foldM (analyse_step eigh X d alpha)
            (combine (seq s (length knns')) knns') st.
Proof.
  induction 1 as [|knn knn' knns knns' HP _ IH]; intros s st; [reflexivity|].
  cbn [length seq combine foldM].
  unfold analyse_step at 1 3. cbn [fst snd].
  rewrite (analyse_point_perm knn knn' HP).
  destruct (analyse_point eigh X d alpha knn'); cbn [bind]; [|reflexivity].
  destruct (s <? length (fst st))%nat; cbn [bind]; [apply IH|reflexivity].
Qed.
End NeighbourOrder.

(** X16: over exact arithmetic the result does not depend on the order in
    which the neighbour search lists the neighbours of a point.  Two
    searches that return, point by point, the same neighbours in any order
    lead to the same result of [copac], label for label and error for
    error. *)
Theorem copac_ignores_the_order_of_the_neighbours
    (kneighbors kneighbors' : matrix -> Z -> list (list nat))
    (eigh : matrix -> list R * matrix)
    (dbscan : matrix -> R -> Z -> list Z)
    (X : matrix) (k mu : Z) (eps alpha : R) :
  Forall (fun r => length r = ncols X) X ->
  Forall2 (@Permutation nat) (kneighbors X k) (kneighbors' X k) ->
  copac kneighbors eigh dbscan X k mu eps alpha
  = copac kneighbors' eigh dbscan X k mu eps alpha.
Proof.
  intros HX HP. unfold copac, enumerate.
  now rewrite (analyse_loop_perm eigh X (ncols X) alpha HX _ _ HP).
Qed.

Lemma reversed_lists (l : list (list nat)) :
  Forall2 (@Permutation nat) l (map (@rev nat) l).
Proof.
  induction l as [|x l IH]; simpl; constructor;
    [apply Permutation_rev|exact IH].
Qed.

Lemma X_nine_rows_ncols : Forall (fun r => length r = ncols X_nine) X_nine.
Proof. repeat constructor. Qed.

Lemma copac_ignores_the_order_of_the_neighbours_witness :
  (Forall (fun r => length r = ncols X_nine) X_nine /\
   Forall2 (@Permutation nat) (knn_nine X_nine 3) (knn_nine_reversed X_nine 3)) /\
  copac knn_nine eigh_diag dbscan_five X_nine 3 5 4 (95 / 100)
  = copac knn_nine_reversed eigh_diag dbscan_five X_nine 3 5 4 (95 / 100).
Proof.
  exact (conj (conj X_nine_rows_ncols (reversed_lists (knn_nine X_nine 3)))
              (copac_ignores_the_order_of_the_neighbours
                 knn_nine knn_nine_reversed eigh_diag dbscan_five X_nine
                 3 5 4 (95 / 100)
                 X_nine_rows_ncols (reversed_lists (knn_nine X_nine 3)))).
Defined.

(** ** What the correlation dimension depends on (lines 122-127) *)

Lemma Rleb_true x y : Rleb x y = true <-> x <= y.
Proof. unfold Rleb. destruct (Rle_dec x y); split; intros; auto; discriminate. Qed.












